(** * Uniform-grid flocking kernels (src/src/kernel.cu): a shallow embedding

    The device functions and kernels of [kernel.cu] are transcribed as Rocq
    functions:

    - an [int] is a [Z]; where the source multiplies [int]s (the cell index of
      [gridIndex3Dto1D], the vertex slot [4 * index + k]) the 32-bit wrap-around
      is written out; an [unsigned int] is a [Z] reduced modulo [2^32];
    - a device buffer is a [list]; a read or write outside the buffer is the
      fault [OutOfBounds] of a small error monad;
    - a [float] is an element of a [Scalar] interface with two instances:
      IEEE-754 binary32 with round-to-nearest-even ([float32], built on the
      standard library's [SpecFloat]) and the real numbers ([R]), the exact
      arithmetic that the rounding approximates.  In binary32 every
      operation of the source is rounded on its own: a multiplication and an
      addition are never fused;
    - a kernel launch runs the thread body for every thread index of the
      launch grid, in index order.  On the buffers that the drivers pass
      (separate input and output velocity buffers, sorted cell ids for the
      range extraction) thread [i] writes only slots that no other thread of
      the launch reads or writes, so the order does not matter. *)

From Stdlib Require Import ZArith List Bool Lia Sorting.Sorted Sorting.Permutation.
From Stdlib Require Import Floats.SpecFloat.
From Stdlib Require Import Reals Lra.
From stdpp Require Import base tactics option list list_numbers.

Local Open Scope Z_scope.

(** ** Faults and the error monad *)

Inductive fault : Type :=
| OutOfBounds   (* an index outside its buffer *)
| DivByZero.    (* a division by a zero neighbour count *)

Inductive result (A : Type) : Type :=
| Ok (a : A)
| Err (e : fault).
Arguments Ok {A} a.
Arguments Err {A} e.

Definition rbind {A B : Type} (c : result A) (k : A -> result B) : result B :=
  match c with
  | Ok a => k a
  | Err e => Err e
  end.

Notation "x <- c ;; k" := (rbind c (fun x => k))
  (at level 100, c at next level, right associativity).

(** A [for] loop whose body may fault: the body runs once per element. *)
Fixpoint forM {A S : Type} (xs : list A) (body : A -> S -> result S) (s : S)
  : result S :=
  match xs with
  | [] => Ok s
  | x :: rest => s' <- body x s ;; forM rest body s'
  end.

(** ** Device buffers *)

(** [buf[i]] as an rvalue. *)
Definition rd {A : Type} (buf : list A) (i : Z) : result A :=
  if (i <? 0) then Err OutOfBounds
  else match buf !! Z.to_nat i with
       | Some a => Ok a
       | None => Err OutOfBounds
       end.

(** [buf[i] = a]. *)
Definition wr {A : Type} (buf : list A) (i : Z) (a : A) : result (list A) :=
  if (i <? 0) || (Z.of_nat (length buf) <=? i) then Err OutOfBounds
  else Ok (<[Z.to_nat i := a]> buf).

(** ** Kernel launches *)

Definition blockSize : Z := 128.

(** [dim3 fullBlocksPerGrid((N + blockSize - 1) / blockSize)] *)
Definition fullBlocksPerGrid (N : Z) : Z := (N + blockSize - 1) `quot` blockSize.

(** The thread indices [blockIdx.x * blockDim.x + threadIdx.x] of a launch
    [<<<fullBlocksPerGrid, blockSize>>>]. *)
Definition threadIds (N : Z) : list Z := seqZ 0 (fullBlocksPerGrid N * blockSize).

Definition launch {S : Type} (N : Z) (thread : Z -> S -> result S) (s : S)
  : result S :=
  forM (threadIds N) thread s.

(** ** Integer kernels *)

(** [kernResetIntBuffer] *)
Definition kernResetIntBuffer (N : Z) (value : Z) (index : Z) (intBuffer : list Z)
  : result (list Z) :=
  if index <? N then wr intBuffer index value else Ok intBuffer.

(** [kernIdentifyCellStartEnd]: the state is the pair
    [(gridCellStartIndices, gridCellEndIndices)]. *)
Definition kernIdentifyCellStartEnd (N : Z) (particleGridIndices : list Z)
    (index : Z) (tables : list Z * list Z) : result (list Z * list Z) :=
  let gridCellStartIndices := tables.1 in
  let gridCellEndIndices := tables.2 in
  if N <=? index then Ok tables
  else
    currentGridLoc <- rd particleGridIndices index ;;
    if index =? 0 then
      starts <- wr gridCellStartIndices currentGridLoc index ;;
      Ok (starts, gridCellEndIndices)
    else
      priorGridLoc <- rd particleGridIndices (index - 1) ;;
      if priorGridLoc =? currentGridLoc then Ok tables
      else
        ends <- wr gridCellEndIndices priorGridLoc index ;;
        starts <- wr gridCellStartIndices currentGridLoc index ;;
        if index =? N - 1 then
          ends' <- wr ends currentGridLoc N ;;
          Ok (starts, ends')
        else Ok (starts, ends).

(** The range-table part of the grid step: both tables are reset to the
    sentinel and the extraction kernel is launched over the [N] sorted slots
    ([stepSimulationScatteredGrid], lines 847-860). *)
Definition buildCellRanges (N gridCellCount : Z) (particleGridIndices : list Z)
    (start0 end0 : list Z) : result (list Z * list Z) :=
  starts <- launch gridCellCount (kernResetIntBuffer gridCellCount (-1)) start0 ;;
  ends <- launch gridCellCount (kernResetIntBuffer gridCellCount (-1)) end0 ;;
  launch N (kernIdentifyCellStartEnd N particleGridIndices) (starts, ends).

(** ** Scalars: the arithmetic of [float] *)

(** The operations that the source applies to [float] values.  [of_int] is
    the conversion of an [int] to [float] (as in [pc /= n]), [to_int] the
    conversion [(int) x]. *)
Class Scalar (F : Type) : Type := {
  fadd : F -> F -> F;
  fsub : F -> F -> F;
  fmul : F -> F -> F;
  fdiv : F -> F -> F;
  fopp : F -> F;
  fsqrt : F -> F;
  fltb : F -> F -> bool;
  of_int : Z -> F;
  to_int : F -> Z;
}.

Definition INT_MIN : Z := - 2 ^ 31.
Definition INT_MAX : Z := 2 ^ 31 - 1.

(** A converted value outside the range of [int] is clamped to the end of the
    range, as the device does. *)
Definition clamp_int (z : Z) : Z := Z.max INT_MIN (Z.min INT_MAX z).

(** *** Exact arithmetic *)

Definition Rltb (x y : R) : bool := if Rlt_dec x y then true else false.

Definition Rtrunc (x : R) : Z :=
  if Rle_dec 0 x then Int_part x else - Int_part (- x).

#[export] Instance R_scalar : Scalar R := {
  fadd := Rplus;
  fsub := Rminus;
  fmul := Rmult;
  fdiv := Rdiv;
  fopp := Ropp;
  fsqrt := sqrt;
  fltb := Rltb;
  of_int := IZR;
  to_int := fun x => clamp_int (Rtrunc x);
}.

(** *** IEEE-754 binary32, round to nearest even *)

Definition float32 : Type := spec_float.

Definition f32_prec : Z := 24.
Definition f32_emax : Z := 128.

(** The integer part of a float, rounded toward zero: the value of a finite
    float is [(-1)^s * m * 2^e]. *)
Definition SFtrunc (x : spec_float) : Z :=
  match x with
  | S754_finite s m e => cond_Zopp s (Z.shiftl (Zpos m) e)
  | _ => 0
  end.

(** The integer part of a float, rounded toward minus infinity. *)
Definition SFfloor (x : spec_float) : Z :=
  match x with
  | S754_finite s m e => Z.shiftl (cond_Zopp s (Zpos m)) e
  | _ => 0
  end.

(** Whether a finite float is an integer. *)
Definition SFintegral (x : spec_float) : bool :=
  match x with
  | S754_finite s m e => Z.shiftl (Z.shiftl (Zpos m) e) (- e) =? Zpos m
  | _ => true
  end.

(** [(int) x] on the device: round toward zero, clamp, and 0 for a NaN. *)
Definition f32_to_int (x : float32) : Z :=
  match x with
  | S754_nan => 0
  | S754_infinity s => if s then INT_MIN else INT_MAX
  | _ => clamp_int (SFtrunc x)
  end.

#[export] Instance float32_scalar : Scalar float32 := {
  fadd := SFadd f32_prec f32_emax;
  fsub := SFsub f32_prec f32_emax;
  fmul := SFmul f32_prec f32_emax;
  fdiv := SFdiv f32_prec f32_emax;
  fopp := SFopp;
  fsqrt := SFsqrt f32_prec f32_emax;
  fltb := SFltb;
  of_int := fun n => binary_normalize f32_prec f32_emax n 0 false;
  to_int := f32_to_int;
}.

(** ** Vectors and the configuration constants *)

Record vec3 (F : Type) : Type := mkvec3 { vx : F; vy : F; vz : F }.
Arguments mkvec3 {F} vx vy vz.
Arguments vx {F} v.
Arguments vy {F} v.
Arguments vz {F} v.

Record int3 : Type := make_int3 { ix : Z; iy : Z; iz : Z }.

Section Kernels.
Context {F : Type} {SF : Scalar F}.

(** The [float] literal [n/d]: the scalar nearest to the quotient. *)
Definition flit (n d : Z) : F := fdiv (of_int n) (of_int d).

Definition fzero : F := of_int 0.

Definition rule1Distance : F := of_int 20.
Definition rule2Distance : F := of_int 4.
Definition rule3Distance : F := of_int 10.

Definition rule1Scale : F := flit 1 100.
Definition rule2Scale : F := flit 1 10.
Definition rule3Scale : F := flit 1 10.

Definition maxSpeed : F := of_int 1.
Definition scene_scale : F := of_int 100.
Definition maxGridCells : Z := 9.

(** [glm::vec3] arithmetic, component by component. *)
Definition vzero : vec3 F := mkvec3 fzero fzero fzero.
Definition vadd (a b : vec3 F) : vec3 F :=
  mkvec3 (fadd (vx a) (vx b)) (fadd (vy a) (vy b)) (fadd (vz a) (vz b)).
Definition vsub (a b : vec3 F) : vec3 F :=
  mkvec3 (fsub (vx a) (vx b)) (fsub (vy a) (vy b)) (fsub (vz a) (vz b)).
(** [v * s] *)
Definition vscale (a : vec3 F) (s : F) : vec3 F :=
  mkvec3 (fmul (vx a) s) (fmul (vy a) s) (fmul (vz a) s).
(** [s * v] *)
Definition scalev (s : F) (a : vec3 F) : vec3 F :=
  mkvec3 (fmul s (vx a)) (fmul s (vy a)) (fmul s (vz a)).
(** [v / s] *)
Definition vdivs (a : vec3 F) (s : F) : vec3 F :=
  mkvec3 (fdiv (vx a) s) (fdiv (vy a) s) (fdiv (vz a) s).
(** [glm::dot] and [glm::length] *)
Definition vdot (a b : vec3 F) : F :=
  fadd (fadd (fmul (vx a) (vx b)) (fmul (vy a) (vy b))) (fmul (vz a) (vz b)).
Definition vlength (a : vec3 F) : F := fsqrt (vdot a a).

(** [a > b] *)
Definition fgtb (a b : F) : bool := fltb b a.

End Kernels.

(** ** The flocking rules *)

Section Rules.
Context {F : Type} {SF : Scalar F}.

(** [glm::length(p - self) < d] *)
Definition within (d : F) (p self : vec3 F) : bool :=
  fltb (vlength (vsub p self)) d.

(** [pc /= n] and [scale / n] with an [int] count [n]: a zero count is the
    fault [DivByZero]. *)
Definition vdiv_count (pc : vec3 F) (n : Z) : result (vec3 F) :=
  if n =? 0 then Err DivByZero else Ok (vdivs pc (of_int n)).
Definition fdiv_count (s : F) (n : Z) : result F :=
  if n =? 0 then Err DivByZero else Ok (fdiv s (of_int n)).

(** [for (int k{0}; usedGridIndices[k] != -1; ++k)]: the candidate list is
    walked up to its terminator; a list without one is read past its end. *)
Fixpoint forCells {S : Type} (usedGridIndices : list Z)
    (body : Z -> S -> result S) (s : S) : result S :=
  match usedGridIndices with
  | [] => Err OutOfBounds
  | gridC :: rest =>
      if gridC =? -1 then Ok s
      else s' <- body gridC s ;; forCells rest body s'
  end.

(** [for (int i {gridCellStartIndices[gridC]}; i < gridCellEndIndices[gridC]; ++i)] *)
Definition forSlots {S : Type} (gridCellStartIndices gridCellEndIndices : list Z)
    (gridC : Z) (body : Z -> S -> result S) (s : S) : result S :=
  first <- rd gridCellStartIndices gridC ;;
  last <- rd gridCellEndIndices gridC ;;
  forM (seqZ first (last - first)) body s.

(** *** Rule 1: cohesion *)

(** The body of the two loops of [rule1]; the accumulator is [(pc, n)]. *)
Definition rule1_step (iSelf : Z) (pos : list (vec3 F)) (i : Z)
    (acc : vec3 F * Z) : result (vec3 F * Z) :=
  p <- rd pos i ;;
  self <- rd pos iSelf ;;
  if within rule1Distance p self then Ok (vadd acc.1 p, acc.2 + 1) else Ok acc.

Definition rule1_finish (iSelf : Z) (pos : list (vec3 F)) (scale : F)
    (acc : vec3 F * Z) : result (vec3 F) :=
  if acc.2 =? 0 then Ok vzero
  else
    pc <- vdiv_count acc.1 acc.2 ;;
    self <- rd pos iSelf ;;
    Ok (vscale (vsub pc self) scale).

Definition rule1_scan (N iSelf : Z) (pos : list (vec3 F)) : result (vec3 F * Z) :=
  acc <- forM (seqZ 0 iSelf) (rule1_step iSelf pos) (vzero, 0) ;;
  forM (seqZ (iSelf + 1) (N - (iSelf + 1))) (rule1_step iSelf pos) acc.

Definition rule1 (N iSelf : Z) (pos : list (vec3 F)) (scale : F)
  : result (vec3 F) :=
  acc <- rule1_scan N iSelf pos ;;
  rule1_finish iSelf pos scale acc.

Definition rule1Scatter_scan (iSelf : Z)
    (gridCellStartIndices gridCellEndIndices particleArrayIndices : list Z)
    (pos : list (vec3 F)) (usedGridIndices : list Z) : result (vec3 F * Z) :=
  forCells usedGridIndices (fun gridC =>
    forSlots gridCellStartIndices gridCellEndIndices gridC (fun i acc =>
      neighbor <- rd particleArrayIndices i ;;
      if neighbor =? iSelf then Ok acc
      else rule1_step iSelf pos neighbor acc))
    (vzero, 0).

Definition rule1Scatter (iSelf : Z)
    (gridCellStartIndices gridCellEndIndices particleArrayIndices : list Z)
    (pos : list (vec3 F)) (usedGridIndices : list Z) (scale : F)
  : result (vec3 F) :=
  acc <- rule1Scatter_scan iSelf gridCellStartIndices gridCellEndIndices
           particleArrayIndices pos usedGridIndices ;;
  rule1_finish iSelf pos scale acc.

Definition rule1Coherent_scan (iSelf : Z)
    (gridCellStartIndices gridCellEndIndices : list Z)
    (pos : list (vec3 F)) (usedGridIndices : list Z) : result (vec3 F * Z) :=
  forCells usedGridIndices (fun gridC =>
    forSlots gridCellStartIndices gridCellEndIndices gridC (fun neighbor acc =>
      if neighbor =? iSelf then Ok acc
      else rule1_step iSelf pos neighbor acc))
    (vzero, 0).

Definition rule1Coherent (iSelf : Z)
    (gridCellStartIndices gridCellEndIndices : list Z)
    (pos : list (vec3 F)) (usedGridIndices : list Z) (scale : F)
  : result (vec3 F) :=
  acc <- rule1Coherent_scan iSelf gridCellStartIndices gridCellEndIndices
           pos usedGridIndices ;;
  rule1_finish iSelf pos scale acc.

(** *** Rule 2: separation *)

(** [c -= pos[i] - pos[iSelf]] under the distance test. *)
Definition rule2_step (iSelf : Z) (pos : list (vec3 F)) (i : Z)
    (c : vec3 F) : result (vec3 F) :=
  p <- rd pos i ;;
  self <- rd pos iSelf ;;
  if within rule2Distance p self then Ok (vsub c (vsub p self)) else Ok c.

Definition rule2 (N iSelf : Z) (pos : list (vec3 F)) (scale : F)
  : result (vec3 F) :=
  c <- forM (seqZ 0 iSelf) (rule2_step iSelf pos) vzero ;;
  c <- forM (seqZ (iSelf + 1) (N - (iSelf + 1))) (rule2_step iSelf pos) c ;;
  Ok (vscale c scale).

Definition rule2Scatter (iSelf : Z)
    (gridCellStartIndices gridCellEndIndices particleArrayIndices : list Z)
    (pos : list (vec3 F)) (usedGridIndices : list Z) (scale : F)
  : result (vec3 F) :=
  c <- forCells usedGridIndices (fun gridC =>
         forSlots gridCellStartIndices gridCellEndIndices gridC (fun i c =>
           neighbor <- rd particleArrayIndices i ;;
           if neighbor =? iSelf then Ok c
           else rule2_step iSelf pos neighbor c))
         vzero ;;
  Ok (vscale c scale).

Definition rule2Coherent (iSelf : Z)
    (gridCellStartIndices gridCellEndIndices : list Z)
    (pos : list (vec3 F)) (usedGridIndices : list Z) (scale : F)
  : result (vec3 F) :=
  c <- forCells usedGridIndices (fun gridC =>
         forSlots gridCellStartIndices gridCellEndIndices gridC (fun neighbor c =>
           if neighbor =? iSelf then Ok c
           else rule2_step iSelf pos neighbor c))
         vzero ;;
  Ok (vscale c scale).

(** *** Rule 3: alignment *)

(** The accumulator is [(vsum, n)]. *)
Definition rule3_step (iSelf : Z) (pos vel : list (vec3 F)) (i : Z)
    (acc : vec3 F * Z) : result (vec3 F * Z) :=
  p <- rd pos i ;;
  self <- rd pos iSelf ;;
  if within rule3Distance p self then
    v <- rd vel i ;; Ok (vadd acc.1 v, acc.2 + 1)
  else Ok acc.

(** [if (n != 0) { vsum *= scale / n; } return vsum;] *)
Definition rule3_finish (scale : F) (acc : vec3 F * Z) : result (vec3 F) :=
  if acc.2 =? 0 then Ok acc.1
  else q <- fdiv_count scale acc.2 ;; Ok (vscale acc.1 q).

Definition rule3_scan (N iSelf : Z) (pos vel : list (vec3 F))
  : result (vec3 F * Z) :=
  acc <- forM (seqZ 0 iSelf) (rule3_step iSelf pos vel) (vzero, 0) ;;
  forM (seqZ (iSelf + 1) (N - (iSelf + 1))) (rule3_step iSelf pos vel) acc.

Definition rule3 (N iSelf : Z) (pos vel : list (vec3 F)) (scale : F)
  : result (vec3 F) :=
  acc <- rule3_scan N iSelf pos vel ;;
  rule3_finish scale acc.

Definition rule3Scatter_scan (iSelf : Z)
    (gridCellStartIndices gridCellEndIndices particleArrayIndices : list Z)
    (pos vel : list (vec3 F)) (usedGridIndices : list Z)
  : result (vec3 F * Z) :=
  forCells usedGridIndices (fun gridC =>
    forSlots gridCellStartIndices gridCellEndIndices gridC (fun i acc =>
      neighbor <- rd particleArrayIndices i ;;
      if neighbor =? iSelf then Ok acc
      else rule3_step iSelf pos vel neighbor acc))
    (vzero, 0).

Definition rule3Scatter (iSelf : Z)
    (gridCellStartIndices gridCellEndIndices particleArrayIndices : list Z)
    (pos vel : list (vec3 F)) (usedGridIndices : list Z) (scale : F)
  : result (vec3 F) :=
  acc <- rule3Scatter_scan iSelf gridCellStartIndices gridCellEndIndices
           particleArrayIndices pos vel usedGridIndices ;;
  rule3_finish scale acc.

Definition rule3Coherent_scan (iSelf : Z)
    (gridCellStartIndices gridCellEndIndices : list Z)
    (pos vel : list (vec3 F)) (usedGridIndices : list Z)
  : result (vec3 F * Z) :=
  forCells usedGridIndices (fun gridC =>
    forSlots gridCellStartIndices gridCellEndIndices gridC (fun neighbor acc =>
      if neighbor =? iSelf then Ok acc
      else rule3_step iSelf pos vel neighbor acc))
    (vzero, 0).

Definition rule3Coherent (iSelf : Z)
    (gridCellStartIndices gridCellEndIndices : list Z)
    (pos vel : list (vec3 F)) (usedGridIndices : list Z) (scale : F)
  : result (vec3 F) :=
  acc <- rule3Coherent_scan iSelf gridCellStartIndices gridCellEndIndices
           pos vel usedGridIndices ;;
  rule3_finish scale acc.

(** *** The three-rule velocity change *)

Definition computeVelocityChange (N iSelf : Z) (pos vel : list (vec3 F))
  : result (vec3 F) :=
  v <- rule1 N iSelf pos rule1Scale ;;
  v2 <- rule2 N iSelf pos rule2Scale ;;
  v3 <- rule3 N iSelf pos vel rule3Scale ;;
  Ok (vadd (vadd v v2) v3).

Definition computeVelocityChangeScattered (iSelf : Z)
    (gridCellStartIndices gridCellEndIndices particleArrayIndices : list Z)
    (pos vel : list (vec3 F)) (usedGridIndices : list Z) : result (vec3 F) :=
  v <- rule1Scatter iSelf gridCellStartIndices gridCellEndIndices
         particleArrayIndices pos usedGridIndices rule1Scale ;;
  v2 <- rule2Scatter iSelf gridCellStartIndices gridCellEndIndices
          particleArrayIndices pos usedGridIndices rule2Scale ;;
  v3 <- rule3Scatter iSelf gridCellStartIndices gridCellEndIndices
          particleArrayIndices pos vel usedGridIndices rule3Scale ;;
  Ok (vadd (vadd v v2) v3).

Definition computeVelocityChangeCoherent (iSelf : Z)
    (gridCellStartIndices gridCellEndIndices : list Z)
    (pos vel : list (vec3 F)) (usedGridIndices : list Z) : result (vec3 F) :=
  v <- rule1Coherent iSelf gridCellStartIndices gridCellEndIndices
         pos usedGridIndices rule1Scale ;;
  v2 <- rule2Coherent iSelf gridCellStartIndices gridCellEndIndices
          pos usedGridIndices rule2Scale ;;
  v3 <- rule3Coherent iSelf gridCellStartIndices gridCellEndIndices
          pos vel usedGridIndices rule3Scale ;;
  Ok (vadd (vadd v v2) v3).

End Rules.

(** ** The grid *)

(** Two's-complement wrap-around of a 32-bit [int]. *)
Definition wrap32 (z : Z) : Z := (z + 2 ^ 31) `mod` 2 ^ 32 - 2 ^ 31.

(** [x + y * gridResolution + z * gridResolution * gridResolution] *)
Definition gridIndex3Dto1D (x y z gridResolution : Z) : Z :=
  wrap32 (wrap32 (x + wrap32 (y * gridResolution))
          + wrap32 (wrap32 (z * gridResolution) * gridResolution)).

Definition gridInRange (val : int3) (gridResolution : Z) : bool :=
  (0 <=? ix val) && (ix val <=? gridResolution) &&
  (0 <=? iy val) && (iy val <=? gridResolution) &&
  (0 <=? iz val) && (iz val <=? gridResolution).

Definition xoffsets : list Z := [0; 1; 0; 1].
Definition yoffsets : list Z := [0; 0; 1; 1].

(** The cells probed by the first loop of [findGridCells], in loop order. *)
Definition upperProbes (cellindices : int3) : list int3 :=
  zip_with (fun xo yo =>
              make_int3 (wrap32 (ix cellindices - xo)) (wrap32 (iy cellindices - yo))
                        (iz cellindices))
           xoffsets yoffsets.

(** The cells probed by the second loop. *)
Definition lowerProbes (cellindices : int3) : list int3 :=
  zip_with (fun xo yo =>
              make_int3 (wrap32 (ix cellindices + xo)) (wrap32 (iy cellindices + yo))
                        (iz cellindices))
           xoffsets yoffsets.

(** The body shared by the two loops: [usedGridCells[currLoc++] = gridCell]
    when the probed cell passes [gridInRange] and its start index is not the
    sentinel.  [usedGridCells] is the part of the array written so far. *)
Definition probeCell (gridResolution : Z) (gridCellStartIndices : list Z)
    (cpy : int3) (usedGridCells : list Z) : result (list Z) :=
  let gridCell := gridIndex3Dto1D (ix cpy) (iy cpy) (iz cpy) gridResolution in
  if gridInRange cpy gridResolution then
    first <- rd gridCellStartIndices gridCell ;;
    if first =? -1 then Ok usedGridCells else Ok (usedGridCells ++ [gridCell])
  else Ok usedGridCells.

Section Grid.
Context {F : Type} {SF : Scalar F}.

(** The grid parameters computed by [Boids::initSimulation]. *)
Definition fmax (a b : F) : F := if fltb a b then b else a.
Definition gridCellWidth : F :=
  fmul (of_int 2) (fmax (fmax rule1Distance rule2Distance) rule3Distance).
Definition gridInverseCellWidth : F := fdiv (of_int 1) gridCellWidth.
Definition halfSideCount : Z := to_int (fmul scene_scale gridInverseCellWidth) + 1.
Definition gridSideCount : Z := 2 * halfSideCount.
Definition gridCellCount : Z := gridSideCount * gridSideCount * gridSideCount.
Definition halfGridWidth : F := fmul gridCellWidth (of_int halfSideCount).
Definition gridMinimum : vec3 F :=
  mkvec3 (fsub fzero halfGridWidth) (fsub fzero halfGridWidth)
         (fsub fzero halfGridWidth).

Definition boidGrid (location gridMin : vec3 F) (inverseCellWidth : F) : int3 :=
  let boidCell := vscale (vsub location gridMin) inverseCellWidth in
  make_int3 (to_int (vx boidCell)) (to_int (vy boidCell)) (to_int (vz boidCell)).

(** The cell id that [kernComputeIndices] records for a position:
    [gridCoord = boidGrid(pos[boid], gridMin, inverseCellWidth)], then
    [gridIndex3Dto1D(gridCoord.x, gridCoord.y, gridCoord.z, gridResolution)]. *)
Definition cellIdOf (gridResolution : Z) (gridMin : vec3 F) (inverseCellWidth : F)
    (p : vec3 F) : Z :=
  let gridCoord := boidGrid p gridMin inverseCellWidth in
  gridIndex3Dto1D (ix gridCoord) (iy gridCoord) (iz gridCoord) gridResolution.

(** [kernComputeIndices]: the state is [(indices, gridIndices)]. *)
Definition kernComputeIndices (N gridResolution : Z) (gridMin : vec3 F)
    (inverseCellWidth : F) (pos : list (vec3 F)) (boid : Z)
    (arrays : list Z * list Z) : result (list Z * list Z) :=
  if N <=? boid then Ok arrays
  else
    p <- rd pos boid ;;
    let gridIndex := cellIdOf gridResolution gridMin inverseCellWidth p in
    gridIndices <- wr arrays.2 boid gridIndex ;;
    indices <- wr arrays.1 boid boid ;;
    Ok (indices, gridIndices).

(** [findGridCells]: the result is the written part of [usedGridCells],
    terminator included. *)
Definition findGridCells (iSelf gridResolution : Z) (gridMin : vec3 F)
    (inverseCellWidth cellWidth : F) (gridCellStartIndices : list Z)
    (pos : list (vec3 F)) : result (list Z) :=
  let half := fmul cellWidth (flit 1 2) in
  let boidOffset := mkvec3 half half half in
  self <- rd pos iSelf ;;
  let extremeBoid := vadd self boidOffset in
  let cellindices := boidGrid extremeBoid gridMin inverseCellWidth in
  used <- forM (upperProbes cellindices)
            (probeCell gridResolution gridCellStartIndices) [] ;;
  self <- rd pos iSelf ;;
  let extremeBoid := vsub self boidOffset in
  let cellindices := boidGrid extremeBoid gridMin inverseCellWidth in
  used <- forM (lowerProbes cellindices)
            (probeCell gridResolution gridCellStartIndices) used ;;
  Ok (used ++ [-1]).

(** ** Velocity and position kernels *)

(** The last four statements of the three velocity kernels:
    [vel2[i] = vel1[i] + v; length = glm::length(vel2[i]);
     if (length > maxSpeed) vel2[i] = maxSpeed/length * vel2[i];] *)
Definition storeClamped (i : Z) (vel1 : list (vec3 F)) (vchange : vec3 F)
    (vel2 : list (vec3 F)) : result (list (vec3 F)) :=
  v1 <- rd vel1 i ;;
  vel2 <- wr vel2 i (vadd v1 vchange) ;;
  v2 <- rd vel2 i ;;
  let length := vlength v2 in
  if fgtb length maxSpeed then
    v2 <- rd vel2 i ;;
    wr vel2 i (scalev (fdiv maxSpeed length) v2)
  else Ok vel2.

Definition kernUpdateVelocityBruteForce (N : Z) (pos vel1 : list (vec3 F))
    (boid : Z) (vel2 : list (vec3 F)) : result (list (vec3 F)) :=
  if N <=? boid then Ok vel2
  else
    v3 <- computeVelocityChange N boid pos vel1 ;;
    storeClamped boid vel1 v3 vel2.

(** [x < -scene_scale ? scene_scale : x] then [x > scene_scale ? -scene_scale : x] *)
Definition wrapAxis (x : F) : F :=
  let x := if fltb x (fopp scene_scale) then scene_scale else x in
  if fgtb x scene_scale then fopp scene_scale else x.

Definition kernUpdatePos (N : Z) (dt : F) (vel : list (vec3 F)) (index : Z)
    (pos : list (vec3 F)) : result (list (vec3 F)) :=
  if N <=? index then Ok pos
  else
    thisPos <- rd pos index ;;
    v <- rd vel index ;;
    let thisPos := vadd thisPos (vscale v dt) in
    wr pos index
       (mkvec3 (wrapAxis (vx thisPos)) (wrapAxis (vy thisPos)) (wrapAxis (vz thisPos))).

Definition kernUpdateVelNeighborSearchScattered (N gridResolution : Z)
    (gridMin : vec3 F) (inverseCellWidth cellWidth : F)
    (gridCellStartIndices gridCellEndIndices particleArrayIndices : list Z)
    (pos vel1 : list (vec3 F)) (index : Z) (vel2 : list (vec3 F))
  : result (list (vec3 F)) :=
  if N <=? index then Ok vel2
  else
    iSelf <- rd particleArrayIndices index ;;
    usedGridCells <- findGridCells iSelf gridResolution gridMin inverseCellWidth
                       cellWidth gridCellStartIndices pos ;;
    vchange <- computeVelocityChangeScattered iSelf gridCellStartIndices
                 gridCellEndIndices particleArrayIndices pos vel1 usedGridCells ;;
    storeClamped iSelf vel1 vchange vel2.

(** [kernMakeCoherent]: the state is [(to1, to2)]. *)
Definition kernMakeCoherent (N : Z) (particleArrayIndices : list Z)
    (from1 from2 : list (vec3 F)) (index : Z)
    (tos : list (vec3 F) * list (vec3 F))
  : result (list (vec3 F) * list (vec3 F)) :=
  if N <=? index then Ok tos
  else
    oldLocation <- rd particleArrayIndices index ;;
    a <- rd from1 oldLocation ;;
    to1 <- wr tos.1 index a ;;
    b <- rd from2 oldLocation ;;
    to2 <- wr tos.2 index b ;;
    Ok (to1, to2).

Definition kernUpdateVelNeighborSearchCoherent (N gridResolution : Z)
    (gridMin : vec3 F) (inverseCellWidth cellWidth : F)
    (gridCellStartIndices gridCellEndIndices : list Z)
    (pos vel1 : list (vec3 F)) (iSelf : Z) (vel2 : list (vec3 F))
  : result (list (vec3 F)) :=
  if N <=? iSelf then Ok vel2
  else
    usedGridCells <- findGridCells iSelf gridResolution gridMin inverseCellWidth
                       cellWidth gridCellStartIndices pos ;;
    vchange <- computeVelocityChangeCoherent iSelf gridCellStartIndices
                 gridCellEndIndices pos vel1 usedGridCells ;;
    storeClamped iSelf vel1 vchange vel2.

End Grid.

(** ** The simulation state and the three stepping modes *)

(** The device buffers and grid parameters that [kernel.cu] keeps in
    globals. *)
Record device (F : Type) : Type := mkdevice {
  numObjects : Z;
  dev_pos : list (vec3 F);
  dev_vel1 : list (vec3 F);
  dev_vel2 : list (vec3 F);
  dev_particleArrayIndices : list Z;
  dev_particleGridIndices : list Z;
  dev_gridCellStartIndices : list Z;
  dev_gridCellEndIndices : list Z;
  dev_posCopy : list (vec3 F);
}.
Arguments mkdevice {F}.
Arguments numObjects {F} d.
Arguments dev_pos {F} d.
Arguments dev_vel1 {F} d.
Arguments dev_vel2 {F} d.
Arguments dev_particleArrayIndices {F} d.
Arguments dev_particleGridIndices {F} d.
Arguments dev_gridCellStartIndices {F} d.
Arguments dev_gridCellEndIndices {F} d.
Arguments dev_posCopy {F} d.

Section Driver.
Context {F : Type} {SF : Scalar F}.

(** [thrust::sort_by_key(keys, keys + N, values)]: the library routine is a
    parameter of the stepping functions. *)
Variable sort_by_key : list Z -> list Z -> list Z * list Z.

Definition stepSimulationNaive (dt : F) (d : device F) : result (device F) :=
  let N := numObjects d in
  vel2 <- launch N (kernUpdateVelocityBruteForce N (dev_pos d) (dev_vel1 d))
            (dev_vel2 d) ;;
  pos <- launch N (kernUpdatePos N dt vel2) (dev_pos d) ;;
  Ok (mkdevice N pos vel2 (dev_vel1 d)
        (dev_particleArrayIndices d) (dev_particleGridIndices d)
        (dev_gridCellStartIndices d) (dev_gridCellEndIndices d) (dev_posCopy d)).

(** The part shared by the two grid modes: index building, table reset and
    the sort. *)
Definition buildSortedIndices (d : device F)
  : result (list Z * list Z * list Z * list Z) :=
  let N := numObjects d in
  arrays <- launch N (kernComputeIndices N gridSideCount gridMinimum
                        gridInverseCellWidth (dev_pos d))
              (dev_particleArrayIndices d, dev_particleGridIndices d) ;;
  starts <- launch gridCellCount (kernResetIntBuffer gridCellCount (-1))
              (dev_gridCellStartIndices d) ;;
  ends <- launch gridCellCount (kernResetIntBuffer gridCellCount (-1))
            (dev_gridCellEndIndices d) ;;
  let sorted := sort_by_key arrays.2 arrays.1 in
  Ok (sorted.2, sorted.1, starts, ends).

Definition stepSimulationScatteredGrid (dt : F) (d : device F)
  : result (device F) :=
  let N := numObjects d in
  built <- buildSortedIndices d ;;
  let arrayIndices := built.1.1.1 in
  let gridIndices := built.1.1.2 in
  tables <- launch N (kernIdentifyCellStartEnd N gridIndices)
              (built.1.2, built.2) ;;
  vel2 <- launch N (kernUpdateVelNeighborSearchScattered N gridSideCount
                      gridMinimum gridInverseCellWidth gridCellWidth
                      tables.1 tables.2 arrayIndices (dev_pos d) (dev_vel1 d))
            (dev_vel2 d) ;;
  pos <- launch N (kernUpdatePos N dt vel2) (dev_pos d) ;;
  Ok (mkdevice N pos vel2 (dev_vel1 d) arrayIndices gridIndices
        tables.1 tables.2 (dev_posCopy d)).

Definition stepSimulationCoherentGrid (dt : F) (d : device F)
  : result (device F) :=
  let N := numObjects d in
  built <- buildSortedIndices d ;;
  let arrayIndices := built.1.1.1 in
  let gridIndices := built.1.1.2 in
  tos <- launch N (kernMakeCoherent N arrayIndices (dev_pos d) (dev_vel1 d))
           (dev_posCopy d, dev_vel2 d) ;;
  let posCopy := dev_pos d in
  let pos := tos.1 in
  let vel2 := tos.2 in
  tables <- launch N (kernIdentifyCellStartEnd N gridIndices)
              (built.1.2, built.2) ;;
  vel1 <- launch N (kernUpdateVelNeighborSearchCoherent N gridSideCount
                      gridMinimum gridInverseCellWidth gridCellWidth
                      tables.1 tables.2 pos vel2)
            (dev_vel1 d) ;;
  pos <- launch N (kernUpdatePos N dt vel1) pos ;;
  Ok (mkdevice N pos vel1 vel2 arrayIndices gridIndices
        tables.1 tables.2 posCopy).

End Driver.

(** ** The external sort *)

(** Modelled from the spec: the sort-by-key primitive ([thrust::sort_by_key])
    is a library routine outside the source file.  Its contract (spec, section
    6) is: the two parallel arrays are permuted together, so that every value
    stays paired with its key, and the keys come out non-decreasing. *)
Definition sort_by_key_contract (keys vals keys' vals' : list Z) : Prop :=
  length keys' = length vals' /\
  zip keys' vals' ≡ₚ zip keys vals /\
  Sorted Z.le keys'.

(** Modelled from the spec: one routine that meets the contract, an insertion
    sort of the (key, value) pairs on the key. *)
Fixpoint insert_by_key (kv : Z * Z) (l : list (Z * Z)) : list (Z * Z) :=
  match l with
  | [] => [kv]
  | h :: t => if kv.1 <=? h.1 then kv :: h :: t else h :: insert_by_key kv t
  end.

Definition sort_pairs (l : list (Z * Z)) : list (Z * Z) :=
  foldr insert_by_key [] l.

Definition sort_by_key (keys vals : list Z) : list Z * list Z :=
  let sorted := sort_pairs (zip keys vals) in (sorted.*1, sorted.*2).

(** ** What the candidate list is meant to hold *)

Section Coverage.
Context {F : Type} {SF : Scalar F}.

(** Every particle other than [iSelf] that is strictly within one of the rule
    distances of [iSelf] lies in a cell of the candidate list. *)
Definition candidates_cover (iSelf gridResolution : Z) (gridMin : vec3 F)
    (inverseCellWidth : F) (pos : list (vec3 F)) (usedGridCells : list Z) : bool :=
  forallb (fun j =>
             (j =? iSelf) ||
             match rd pos j, rd pos iSelf with
             | Ok p, Ok self =>
                 negb (within rule1Distance p self || within rule2Distance p self
                       || within rule3Distance p self) ||
                 bool_decide (cellIdOf gridResolution gridMin inverseCellWidth p
                                ∈ usedGridCells)
             | _, _ => true
             end)
          (seqZ 0 (Z.of_nat (length pos))).

(** The cell id of particle [j] (0 when [j] is not a particle). *)
Definition particleCell (gridResolution : Z) (gridMin : vec3 F)
    (inverseCellWidth : F) (pos : list (vec3 F)) (j : Z) : Z :=
  match rd pos j with
  | Ok p => cellIdOf gridResolution gridMin inverseCellWidth p
  | Err _ => 0
  end.

End Coverage.

(** ** What the range tables are meant to hold *)

(** The property of section 8 of the spec ("range table validity") for the
    sorted cell ids [keys] of [N] particles: an unoccupied cell holds the
    sentinel in both tables; an occupied cell [c] has [0 <= start < end <= N]
    and its half-open range holds exactly the slots whose cell is [c], so that
    the ranges of the occupied cells partition [0, N). *)
Definition cell_range_valid (N : Z) (keys starts ends : list Z) (c : Z) : Prop :=
  exists s e, rd starts c = Ok s /\ rd ends c = Ok e /\
    (((c ∉ keys) /\ s = -1 /\ e = -1) \/
     ((c ∈ keys) /\ 0 <= s < e /\ e <= N /\
      forall i, 0 <= i < N -> (rd keys i = Ok c <-> (s <= i < e)))).

Definition range_tables_valid (N : Z) (keys starts ends : list Z) : Prop :=
  forall c, 0 <= c < Z.of_nat (length starts) -> cell_range_valid N keys starts ends c.

(** The same property as a check that computes. *)
Definition cell_range_validb (N : Z) (keys starts ends : list Z) (c : Z) : bool :=
  match rd starts c, rd ends c with
  | Ok s, Ok e =>
      if bool_decide (c ∈ keys) then
        (0 <=? s) && (s <? e) && (e <=? N) &&
        forallb (fun i => eqb (match rd keys i with Ok k => k =? c | Err _ => false end)
                              ((s <=? i) && (i <? e)))
                (seqZ 0 N)
      else (s =? -1) && (e =? -1)
  | _, _ => false
  end.

Definition range_tables_validb (N : Z) (keys starts ends : list Z) : bool :=
  forallb (cell_range_validb N keys starts ends) (seqZ 0 (Z.of_nat (length starts))).

(** ** Runs of equal keys *)

(** Slot [i] is the first slot of a run of cell [c]. *)
Definition run_start (keys : list Z) (i c : Z) : Prop :=
  rd keys i = Ok c /\ (i = 0 \/ exists k, rd keys (i - 1) = Ok k /\ k <> c).

(** Slot [i] is the first slot after a run of cell [c]. *)
Definition run_end (keys : list Z) (i c : Z) : Prop :=
  rd keys (i - 1) = Ok c /\ exists k, rd keys i = Ok k /\ k <> c.

(** Thread [N-1] has run and found that the last slot starts a run of [c]:
    the one case in which [kernIdentifyCellStartEnd] writes [N]. *)
Definition closes_last (N : Z) (keys : list Z) (k c : Z) : Prop :=
  k = N /\ 2 <= N /\ run_start keys (N - 1) c.

(** What the start entry [s] and the end entry [e] of cell [c] hold after
    the threads [0 .. k-1] of the extraction kernel. *)
Definition start_entry (keys : list Z) (k c s : Z) : Prop :=
  (s = -1 /\ forall i, 0 <= i < k -> ~ run_start keys i c) \/
  (0 <= s < k /\ run_start keys s c).

Definition end_entry (N : Z) (keys : list Z) (k c e : Z) : Prop :=
  (e = -1 /\ (forall i, 0 < i < k -> ~ run_end keys i c) /\
   ~ closes_last N keys k c) \/
  (0 < e < k /\ run_end keys e c) \/
  (e = N /\ closes_last N keys k c).

(** The range tables after the threads [0 .. k-1] of the extraction kernel. *)
Definition extracted (N cellCount : Z) (keys : list Z) (k : Z)
    (tables : list Z * list Z) : Prop :=
  length tables.1 = Z.to_nat cellCount /\
  length tables.2 = Z.to_nat cellCount /\
  forall c, 0 <= c < cellCount ->
    exists s e, rd tables.1 c = Ok s /\ rd tables.2 c = Ok e /\
      start_entry keys k c s /\ end_entry N keys k c e.

(** ** Correctly built grid data *)

Section GridData.
Context {F : Type} {SF : Scalar F}.

(** The key at every sorted slot is the cell id of the particle that the
    index table names at that slot. *)
Definition index_pairs_ok (gridResolution : Z) (gridMin : vec3 F)
    (inverseCellWidth : F) (pos : list (vec3 F)) (keys pai : list Z) : Prop :=
  forall i j, rd pai i = Ok j ->
    rd keys i = Ok (particleCell gridResolution gridMin inverseCellWidth pos j).

Definition index_pairs_okb (gridResolution : Z) (gridMin : vec3 F)
    (inverseCellWidth : F) (pos : list (vec3 F)) (keys pai : list Z) : bool :=
  forallb (fun i =>
             match rd pai i, rd keys i with
             | Ok j, Ok k =>
                 k =? particleCell gridResolution gridMin inverseCellWidth pos j
             | Ok _, Err _ => false
             | Err _, _ => true
             end)
          (seqZ 0 (Z.of_nat (length pai))).

(** The grid index, range and candidate-cell data for particle [iSelf] are
    as the spec describes them: the index table is a permutation of [0, N)
    sorted by cell id, the range tables are valid, and the candidate cells
    are distinct cells of the grid that hold every particle within a rule
    distance of [iSelf]. *)
Definition grid_data_correct (N iSelf gridResolution : Z) (gridMin : vec3 F)
    (inverseCellWidth : F) (pos : list (vec3 F))
    (keys pai starts ends cells : list Z) : Prop :=
  0 <= iSelf < N /\
  length pos = Z.to_nat N /\
  pai ≡ₚ seqZ 0 N /\
  Sorted Z.le keys /\
  index_pairs_ok gridResolution gridMin inverseCellWidth pos keys pai /\
  range_tables_valid N keys starts ends /\
  NoDup cells /\
  (forall c, c ∈ cells -> 0 <= c < Z.of_nat (length starts)) /\
  candidates_cover iSelf gridResolution gridMin inverseCellWidth pos cells = true.

End GridData.

(** ** Predicates used in the statements *)

Section Predicates.
Context {F : Type} {SF : Scalar F}.

(** While a scan runs, the count is non-negative and nothing has been added
    to the sum as long as the count is zero. *)
Definition fresh (acc : vec3 F * Z) : Prop :=
  0 <= acc.2 /\ (acc.2 = 0 -> acc.1 = vzero).

(** No other particle of the buffer is strictly within one of the three rule
    distances of particle [iSelf]. *)
Definition isolated (iSelf : Z) (pos : list (vec3 F)) : Prop :=
  forall j p self, j <> iSelf -> rd pos j = Ok p -> rd pos iSelf = Ok self ->
    within rule1Distance p self = false /\
    within rule2Distance p self = false /\
    within rule3Distance p self = false.

Definition isolatedb (iSelf : Z) (pos : list (vec3 F)) : bool :=
  forallb (fun j =>
             (j =? iSelf) ||
             match rd pos j, rd pos iSelf with
             | Ok p, Ok self =>
                 negb (within rule1Distance p self) &&
                 negb (within rule2Distance p self) &&
                 negb (within rule3Distance p self)
             | _, _ => true
             end)
          (seqZ 0 (Z.of_nat (length pos))).

(** [posC] holds at slot [i] what [pos] holds at [pai[i]]. *)
Definition gathered {A : Type} (pai : list Z) (from to : list A) : Prop :=
  forall i, rd to i = (j <- rd pai i ;; rd from j).

(** The velocity that the last statements of a velocity kernel leave in
    [vel2[i]] when [v] is the sum [vel1[i] + delta]. *)
Definition clampSpeed (v : vec3 F) : vec3 F :=
  let length := vlength v in
  if fgtb length maxSpeed then scalev (fdiv maxSpeed length) v else v.

End Predicates.

(** [out] is [v] when [|v| <= maxSpeed], and otherwise [v] rescaled by a
    positive factor to the magnitude [maxSpeed]; either way [|out| <= maxSpeed]. *)
Definition speed_clamped (v out : vec3 R) : Prop :=
  ((vlength v <= maxSpeed)%R -> out = v) /\
  ((maxSpeed < vlength v)%R ->
   out = scalev (maxSpeed / vlength v)%R v /\ (0 < maxSpeed / vlength v)%R /\
   vlength out = maxSpeed) /\
  (vlength out <= maxSpeed)%R.

(** ** The neighbours that a grid scan visits *)

(** The slots [start[c] .. end[c]-1] of a candidate cell. *)
Definition cellSlots (starts ends : list Z) (c : Z) : list Z :=
  match rd starts c, rd ends c with
  | Ok s, Ok e => seqZ s (e - s)
  | _, _ => []
  end.

(** The particle that the index table names at a slot. *)
Definition slotParticle (pai : list Z) (i : Z) : Z :=
  match rd pai i with
  | Ok j => j
  | Err _ => 0
  end.

(** The particles that a scattered scan over the candidate cells [cells]
    visits, in visiting order. *)
Definition visited (starts ends pai cells : list Z) : list Z :=
  slotParticle pai <$> (cells ≫= cellSlots starts ends).

(** [if (neighbor == iSelf) continue;] in front of a per-neighbour body. *)
Definition skipSelf {S : Type} (iSelf : Z) (step : Z -> S -> result S)
    (j : Z) (s : S) : result S :=
  if j =? iSelf then Ok s else step j s.

(** ** The seed hash of the position generator *)

(** An [unsigned int] is a [Z] in [0, 2^32); its arithmetic wraps. *)
Definition wrapu32 (z : Z) : Z := z `mod` 2 ^ 32.

(** [hash]: the six statements, in order.  [a << k] drops the bits shifted
    out of the word; [a >> k] is a logical shift. *)
Definition hash (a : Z) : Z :=
  let a := wrapu32 (wrapu32 (a + 0x7ed55d16) + wrapu32 (Z.shiftl a 12)) in
  let a := Z.lxor (Z.lxor a 0xc761c23c) (Z.shiftr a 19) in
  let a := wrapu32 (wrapu32 (a + 0x165667b1) + wrapu32 (Z.shiftl a 5)) in
  let a := Z.lxor (wrapu32 (a + 0xd3a2646c)) (wrapu32 (Z.shiftl a 9)) in
  let a := wrapu32 (wrapu32 (a + 0xfd7046c5) + wrapu32 (Z.shiftl a 3)) in
  let a := Z.lxor (Z.lxor a 0xb55a4f09) (Z.shiftr a 16) in
  a.

(** ** Generating the initial positions *)

Section Generation.
Context {F : Type} {SF : Scalar F}.

(** [thrust::default_random_engine rng(seed)] followed by three draws of
    [thrust::uniform_real_distribution<float>(-1, 1)]: the library part of
    [generateRandomVec3] is a parameter. *)
Variable unitDraws : Z -> vec3 F.

(** The seed is [hash((int)(index * time))]; the [int] is converted to
    [unsigned int] on the call. *)
Definition generateRandomVec3 (time : F) (index : Z) : vec3 F :=
  unitDraws (hash (wrapu32 (to_int (fmul (of_int index) time)))).

(** [kernGenerateRandomPosArray]: the three components of [arr[index]] are
    assigned one after the other. *)
Definition kernGenerateRandomPosArray (time N : Z) (scale : F) (index : Z)
    (arr : list (vec3 F)) : result (list (vec3 F)) :=
  if index <? N then
    let rand := generateRandomVec3 (of_int time) index in
    p <- rd arr index ;;
    arr <- wr arr index (mkvec3 (fmul scale (vx rand)) (vy p) (vz p)) ;;
    p <- rd arr index ;;
    arr <- wr arr index (mkvec3 (vx p) (fmul scale (vy rand)) (vz p)) ;;
    p <- rd arr index ;;
    wr arr index (mkvec3 (vx p) (vy p) (fmul scale (vz rand)))
  else Ok arr.

End Generation.

(** ** Copying to the vertex buffers *)

Section VBO.
Context {F : Type} {SF : Scalar F}.

(** [4 * index + k], an [int]. *)
Definition vboSlot (index k : Z) : Z := wrap32 (wrap32 (4 * index) + k).

(** [kernCopyPositionsToVBO] *)
Definition kernCopyPositionsToVBO (N : Z) (pos : list (vec3 F)) (s_scale : F)
    (index : Z) (vbo : list F) : result (list F) :=
  let c_scale := fdiv (fopp (of_int 1)) s_scale in
  if index <? N then
    p <- rd pos index ;;
    vbo <- wr vbo (vboSlot index 0) (fmul (vx p) c_scale) ;;
    p <- rd pos index ;;
    vbo <- wr vbo (vboSlot index 1) (fmul (vy p) c_scale) ;;
    p <- rd pos index ;;
    vbo <- wr vbo (vboSlot index 2) (fmul (vz p) c_scale) ;;
    wr vbo (vboSlot index 3) (of_int 1)
  else Ok vbo.

(** [kernCopyVelocitiesToVBO]; [s_scale] is not used. *)
Definition kernCopyVelocitiesToVBO (N : Z) (vel : list (vec3 F)) (s_scale : F)
    (index : Z) (vbo : list F) : result (list F) :=
  if index <? N then
    v <- rd vel index ;;
    vbo <- wr vbo (vboSlot index 0) (fadd (vx v) (flit 3 10)) ;;
    v <- rd vel index ;;
    vbo <- wr vbo (vboSlot index 1) (fadd (vy v) (flit 3 10)) ;;
    v <- rd vel index ;;
    vbo <- wr vbo (vboSlot index 2) (fadd (vz v) (flit 3 10)) ;;
    wr vbo (vboSlot index 3) (of_int 1)
  else Ok vbo.

(** [Boids::copyBoidsToVBO]: the result is the two vertex buffers. *)
Definition copyBoidsToVBO (d : device F) (vbodptr_positions vbodptr_velocities : list F)
  : result (list F * list F) :=
  let N := numObjects d in
  positions <- launch N (kernCopyPositionsToVBO N (dev_pos d) scene_scale)
                 vbodptr_positions ;;
  velocities <- launch N (kernCopyVelocitiesToVBO N (dev_vel1 d) scene_scale)
                  vbodptr_velocities ;;
  Ok (positions, velocities).

(** The four floats that the position kernel writes for a particle. *)
Definition positionVertex (s_scale : F) (p : vec3 F) : list F :=
  let c_scale := fdiv (fopp (of_int 1)) s_scale in
  [fmul (vx p) c_scale; fmul (vy p) c_scale; fmul (vz p) c_scale; of_int 1].

(** The four floats that the velocity kernel writes for a particle. *)
Definition velocityVertex (v : vec3 F) : list F :=
  [fadd (vx v) (flit 3 10); fadd (vy v) (flit 3 10); fadd (vz v) (flit 3 10);
   of_int 1].

End VBO.

(** ** What one thread of [kernUpdatePos] stores *)

Section Advance.
Context {F : Type} {SF : Scalar F}.

(** [thisPos = pos[index] + vel[index] * dt], then the wrap of each axis. *)
Definition advance (dt : F) (p v : vec3 F) : vec3 F :=
  let thisPos := vadd p (vscale v dt) in
  mkvec3 (wrapAxis (vx thisPos)) (wrapAxis (vy thisPos)) (wrapAxis (vz thisPos)).

End Advance.

(** ** Positions inside the scene *)

Section Scene.
Context {F : Type} {SF : Scalar F}.

(** Neither of the two comparisons of the wrap holds for the coordinate. *)
Definition axisInScene (x : F) : bool :=
  negb (fltb x (fopp scene_scale)) && negb (fgtb x scene_scale).

Definition inScene (p : vec3 F) : bool :=
  axisInScene (vx p) && axisInScene (vy p) && axisInScene (vz p).

End Scene.

(** * Properties *)

(** ** Loops, buffers and launches *)

Section Loops.
Context {A S : Type}.
Implicit Types (xs ys : list A) (body : A -> S -> result S) (s : S).

Lemma forM_app xs ys body s :
  forM (xs ++ ys) body s = (s' <- forM xs body s ;; forM ys body s').
Proof.
  revert s. induction xs as [|x xs IH]; intros s; simpl; [done|].
  destruct (body x s); simpl; [apply IH|done].
Qed.

Lemma forM_skip xs body s :
  (forall x s, x ∈ xs -> body x s = Ok s) -> forM xs body s = Ok s.
Proof.
  induction xs as [|x xs IH]; intros Hskip; simpl; [done|].
  rewrite Hskip by left. simpl. apply IH. intros y t Hy. apply Hskip. by right.
Qed.

Lemma forM_ext xs body body' s :
  (forall x s, x ∈ xs -> body x s = body' x s) ->
  forM xs body s = forM xs body' s.
Proof.
  revert s. induction xs as [|x xs IH]; intros s Hext; simpl; [done|].
  rewrite Hext by left. destruct (body' x s); simpl; [|done].
  apply IH. intros y t Hy. apply Hext. by right.
Qed.

Lemma forM_invariant (P : S -> Prop) xs body s s' :
  (forall x t t', x ∈ xs -> P t -> body x t = Ok t' -> P t') ->
  P s -> forM xs body s = Ok s' -> P s'.
Proof.
  revert s. induction xs as [|x xs IH]; intros s Hstep Hs; simpl.
  - intros [= <-]. done.
  - destruct (body x s) as [t|] eqn:Hb; simpl; [|done].
    apply IH.
    + intros y u u' Hy. apply Hstep. by right.
    + eapply Hstep; [by left|exact Hs|exact Hb].
Qed.

Lemma forM_no_fault (e : fault) xs body s :
  (forall x t, x ∈ xs -> body x t <> Err e) -> forM xs body s <> Err e.
Proof.
  revert s. induction xs as [|x xs IH]; intros s Hstep; simpl; [done|].
  destruct (body x s) as [t|e'] eqn:Hb; simpl.
  - apply IH. intros y u Hy. apply Hstep. by right.
  - rewrite <- Hb. apply Hstep. by left.
Qed.

End Loops.

Lemma rd_Ok {A : Type} (buf : list A) (i : Z) (a : A) :
  rd buf i = Ok a <-> 0 <= i /\ buf !! Z.to_nat i = Some a.
Proof.
  unfold rd. destruct (Z.ltb_spec i 0).
  - split; [done|lia].
  - destruct (buf !! Z.to_nat i) as [b|]; split.
    + intros [= ->]. done.
    + intros [_ [= ->]]. done.
    + done.
    + intros [_ ?]. done.
Qed.

Lemma rd_lookup {A : Type} (buf : list A) (k : nat) (a : A) :
  buf !! k = Some a -> rd buf (Z.of_nat k) = Ok a.
Proof. intros Hk. apply rd_Ok. rewrite Nat2Z.id. split; [lia|done]. Qed.

Lemma rd_in_range {A : Type} (buf : list A) (i : Z) :
  0 <= i < Z.of_nat (length buf) -> exists a, rd buf i = Ok a.
Proof.
  intros Hi. destruct (lookup_lt_is_Some_2 buf (Z.to_nat i)) as [a Ha]; [lia|].
  exists a. apply rd_Ok. split; [lia|done].
Qed.

Lemma rd_no_div {A : Type} (buf : list A) (i : Z) : rd buf i <> Err DivByZero.
Proof.
  unfold rd. destruct (i <? 0); [done|]. by destruct (buf !! Z.to_nat i).
Qed.

Lemma wr_in_range {A : Type} (buf : list A) (i : Z) (a : A) :
  0 <= i < Z.of_nat (length buf) -> wr buf i a = Ok (<[Z.to_nat i := a]> buf).
Proof.
  intros Hi. unfold wr.
  destruct (Z.ltb_spec i 0); [lia|].
  destruct (Z.leb_spec (Z.of_nat (length buf)) i); [lia|]. done.
Qed.

Lemma wr_Ok {A : Type} (buf buf' : list A) (i : Z) (a : A) :
  wr buf i a = Ok buf' ->
  0 <= i < Z.of_nat (length buf) /\ buf' = <[Z.to_nat i := a]> buf.
Proof.
  unfold wr.
  destruct (Z.ltb_spec i 0); [done|].
  destruct (Z.leb_spec (Z.of_nat (length buf)) i); [done|].
  intros [= <-]. split; [lia|done].
Qed.

Lemma rbind_Ok {A B : Type} (c : result A) (k : A -> result B) (b : B) :
  rbind c k = Ok b <-> exists a, c = Ok a /\ k a = Ok b.
Proof.
  destruct c as [a|e]; simpl; split.
  - intros H. by exists a.
  - intros (a' & [= ->] & H). done.
  - done.
  - intros (a' & ? & _). done.
Qed.

Lemma threadIds_split (N : Z) :
  0 <= N -> exists extra, 0 <= extra /\ threadIds N = seqZ 0 N ++ seqZ N extra.
Proof.
  intros HN. unfold threadIds, fullBlocksPerGrid, blockSize.
  rewrite Z.quot_div_nonneg by lia.
  exists ((N + 128 - 1) `div` 128 * 128 - N).
  pose proof (Z.div_mod (N + 128 - 1) 128 ltac:(lia)) as Hdm.
  pose proof (Z.mod_pos_bound (N + 128 - 1) 128 ltac:(lia)) as Hm.
  split; [lia|].
  rewrite <- (seqZ_app 0) by lia. f_equal. lia.
Qed.

(** A kernel whose threads return at once for [index >= N] does the work of
    the threads [0 .. N-1]. *)
Lemma launch_guarded {S : Type} (N : Z) (thread : Z -> S -> result S) (s : S) :
  0 <= N ->
  (forall i t, N <= i -> thread i t = Ok t) ->
  launch N thread s = forM (seqZ 0 N) thread s.
Proof.
  intros HN Hguard. unfold launch.
  destruct (threadIds_split N HN) as (extra & Hextra & ->).
  rewrite forM_app. destruct (forM (seqZ 0 N) thread s) as [t|e]; simpl; [|done].
  apply forM_skip. intros i u Hi. apply Hguard.
  apply elem_of_seqZ in Hi. lia.
Qed.

(** ** The sort model meets its contract *)

Lemma insert_by_key_perm (kv : Z * Z) (l : list (Z * Z)) :
  insert_by_key kv l ≡ₚ kv :: l.
Proof.
  induction l as [|h t IH]; simpl; [done|].
  destruct (kv.1 <=? h.1); [done|].
  rewrite IH. apply Permutation_swap.
Qed.

Lemma sort_pairs_perm (l : list (Z * Z)) : sort_pairs l ≡ₚ l.
Proof.
  induction l as [|h t IH]; simpl; [done|].
  rewrite insert_by_key_perm. by f_equiv.
Qed.

Lemma insert_by_key_hd (kv : Z * Z) (l : list (Z * Z)) (k : Z) :
  k <= kv.1 -> HdRel Z.le k (l.*1) -> HdRel Z.le k ((insert_by_key kv l).*1).
Proof.
  intros Hk Hl. destruct l as [|h t]; simpl; [by constructor|].
  destruct (kv.1 <=? h.1); simpl; constructor; [done|].
  by inversion Hl.
Qed.

Lemma insert_by_key_sorted (kv : Z * Z) (l : list (Z * Z)) :
  Sorted Z.le (l.*1) -> Sorted Z.le ((insert_by_key kv l).*1).
Proof.
  induction l as [|h t IH]; simpl; intros Hs.
  - repeat constructor.
  - destruct (Z.leb_spec (kv.1) (h.1)); simpl.
    + constructor; [done|]. by constructor.
    + inversion Hs as [|? ? Ht Hhd]; subst.
      constructor; [by apply IH|].
      apply insert_by_key_hd; [lia|done].
Qed.

Lemma sort_pairs_sorted (l : list (Z * Z)) : Sorted Z.le ((sort_pairs l).*1).
Proof.
  induction l as [|h t IH]; simpl; [constructor|].
  by apply insert_by_key_sorted.
Qed.

Lemma sort_by_key_meets_contract (keys vals : list Z) :
  sort_by_key_contract keys vals (sort_by_key keys vals).1 (sort_by_key keys vals).2.
Proof.
  unfold sort_by_key_contract, sort_by_key; simpl. split_and!.
  - by rewrite !length_fmap.
  - rewrite zip_fst_snd. apply sort_pairs_perm.
  - apply sort_pairs_sorted.
Qed.

(** ** Index building *)

Section IndexBuilding.
Context {F : Type} {SF : Scalar F}.

Lemma insert_at_boundary {A : Type} (done_ rest : list A) (k : nat) (a : A) :
  length done_ = k -> (k < length rest)%nat ->
  <[k := a]> (done_ ++ drop k rest) = (done_ ++ [a]) ++ drop (S k) rest.
Proof.
  intros Hlen Hk.
  destruct (lookup_lt_is_Some_2 rest k Hk) as [b Hb].
  rewrite (drop_S rest b k Hb).
  rewrite insert_app_r_alt by lia.
  replace (k - length done_)%nat with 0%nat by lia. simpl.
  by rewrite <- app_assoc.
Qed.

Lemma kernComputeIndices_prefix (N gridResolution : Z) (gridMin : vec3 F)
    (inverseCellWidth : F) (pos : list (vec3 F)) (indices gridIndices : list Z)
    (k : nat) :
  length pos = Z.to_nat N -> length indices = Z.to_nat N ->
  length gridIndices = Z.to_nat N -> (k <= Z.to_nat N)%nat ->
  forM (seqZ 0 (Z.of_nat k))
       (kernComputeIndices N gridResolution gridMin inverseCellWidth pos)
       (indices, gridIndices)
  = Ok (seqZ 0 (Z.of_nat k) ++ drop k indices,
        (cellIdOf gridResolution gridMin inverseCellWidth <$> take k pos)
          ++ drop k gridIndices).
Proof.
  intros Hpos Hidx Hgrid. induction k as [|k IH]; intros Hk.
  - simpl. by rewrite !drop_0.
  - rewrite seqZ_S, forM_app, IH by lia. simpl.
    unfold kernComputeIndices.
    destruct (Z.leb_spec N (0 + Z.of_nat k)); [lia|].
    destruct (lookup_lt_is_Some_2 pos k ltac:(lia)) as [p Hp].
    rewrite Z.add_0_l, (rd_lookup pos k p Hp). simpl.
    rewrite wr_in_range by (rewrite length_app, length_fmap, length_take, length_drop; lia).
    simpl.
    rewrite wr_in_range by (rewrite length_app, length_seqZ, length_drop; lia).
    simpl. rewrite Nat2Z.id.
    rewrite !insert_at_boundary
      by (rewrite ?length_seqZ, ?length_fmap, ?length_take; lia).
    rewrite (take_S_r pos k p Hp), fmap_app. done.
Qed.

Lemma launch_kernComputeIndices (N gridResolution : Z) (gridMin : vec3 F)
    (inverseCellWidth : F) (pos : list (vec3 F)) (indices gridIndices : list Z) :
  0 <= N -> length pos = Z.to_nat N -> length indices = Z.to_nat N ->
  length gridIndices = Z.to_nat N ->
  launch N (kernComputeIndices N gridResolution gridMin inverseCellWidth pos)
         (indices, gridIndices)
  = Ok (seqZ 0 N, cellIdOf gridResolution gridMin inverseCellWidth <$> pos).
Proof.
  intros HN Hpos Hidx Hgrid.
  rewrite launch_guarded; [|done|].
  - rewrite <- (Z2Nat.id N) at 1 2 by done.
    rewrite kernComputeIndices_prefix by (done || lia).
    rewrite Z2Nat.id by done.
    rewrite !drop_ge, !app_nil_r, take_ge by lia. done.
  - intros i t Hi. unfold kernComputeIndices.
    destruct (Z.leb_spec N i); [done|lia].
Qed.

End IndexBuilding.

(** ** Loops over candidate cells *)

Section CellLoops.
Context {S : Type}.
Implicit Types (body : Z -> S -> result S) (s : S).

Lemma rbind_no_fault {A B : Type} (e : fault) (c : result A) (k : A -> result B) :
  c <> Err e -> (forall a, c = Ok a -> k a <> Err e) -> rbind c k <> Err e.
Proof.
  destruct c as [a|e']; simpl; intros Hc Hk; [by apply Hk|].
  intros [= ->]. by apply Hc.
Qed.

Lemma forCells_invariant (P : S -> Prop) used body s s' :
  (forall gridC t t', P t -> body gridC t = Ok t' -> P t') ->
  P s -> forCells used body s = Ok s' -> P s'.
Proof.
  intros Hstep. revert s. induction used as [|g rest IH]; intros s Hs; simpl; [done|].
  destruct (g =? -1); [by intros [= <-]|].
  destruct (body g s) as [t|] eqn:Hb; simpl; [|done].
  apply IH. by eapply Hstep.
Qed.

Lemma forCells_no_div used body s :
  (forall gridC t, body gridC t <> Err DivByZero) ->
  forCells used body s <> Err DivByZero.
Proof.
  intros Hstep. revert s. induction used as [|g rest IH]; intros s; simpl; [done|].
  destruct (g =? -1); [done|].
  apply rbind_no_fault; [apply Hstep|intros; apply IH].
Qed.

Lemma forSlots_invariant (P : S -> Prop) starts ends gridC body s s' :
  (forall i t t', P t -> body i t = Ok t' -> P t') ->
  P s -> forSlots starts ends gridC body s = Ok s' -> P s'.
Proof.
  intros Hstep Hs. unfold forSlots.
  destruct (rd starts gridC); simpl; [|done].
  destruct (rd ends gridC); simpl; [|done].
  apply forM_invariant; [|done]. intros x t t' _. apply Hstep.
Qed.

Lemma forSlots_no_div starts ends gridC body s :
  (forall i t, body i t <> Err DivByZero) ->
  forSlots starts ends gridC body s <> Err DivByZero.
Proof.
  intros Hstep. unfold forSlots.
  apply rbind_no_fault; [apply rd_no_div|intros first _].
  apply rbind_no_fault; [apply rd_no_div|intros last _].
  apply forM_no_fault. intros; apply Hstep.
Qed.

End CellLoops.

(** ** The neighbour count guards every division *)

Section CountGuard.
Context {F : Type} {SF : Scalar F}.

Lemma fresh_init : fresh (vzero, 0).
Proof. split; simpl; [lia|done]. Qed.

Lemma rule1_step_fresh iSelf pos i acc acc' :
  fresh acc -> rule1_step iSelf pos i acc = Ok acc' -> fresh acc'.
Proof.
  intros [Hn Hz]. unfold rule1_step.
  destruct (rd pos i); simpl; [|done].
  destruct (rd pos iSelf); simpl; [|done].
  destruct (within _ _ _); intros [= <-]; split; simpl; try lia; auto.
Qed.

Lemma rule3_step_fresh iSelf pos vel i acc acc' :
  fresh acc -> rule3_step iSelf pos vel i acc = Ok acc' -> fresh acc'.
Proof.
  intros [Hn Hz]. unfold rule3_step.
  destruct (rd pos i); simpl; [|done].
  destruct (rd pos iSelf); simpl; [|done].
  destruct (within _ _ _).
  - destruct (rd vel i); simpl; [|done]. intros [= <-]; split; simpl; lia.
  - intros [= <-]. by split.
Qed.

Lemma rule1_step_no_div iSelf pos i acc :
  rule1_step iSelf pos i acc <> Err DivByZero.
Proof.
  unfold rule1_step.
  apply rbind_no_fault; [apply rd_no_div|intros p _].
  apply rbind_no_fault; [apply rd_no_div|intros self _].
  by destruct (within _ _ _).
Qed.

Lemma rule3_step_no_div iSelf pos vel i acc :
  rule3_step iSelf pos vel i acc <> Err DivByZero.
Proof.
  unfold rule3_step.
  apply rbind_no_fault; [apply rd_no_div|intros p _].
  apply rbind_no_fault; [apply rd_no_div|intros self _].
  destruct (within _ _ _); [|done].
  apply rbind_no_fault; [apply rd_no_div|done].
Qed.

Lemma rule1_finish_no_div iSelf pos scale acc :
  rule1_finish iSelf pos scale acc <> Err DivByZero.
Proof.
  unfold rule1_finish, vdiv_count.
  destruct (acc.2 =? 0); [done|]. simpl.
  apply rbind_no_fault; [apply rd_no_div|done].
Qed.

Lemma rule3_finish_no_div scale acc : rule3_finish scale acc <> Err DivByZero.
Proof.
  unfold rule3_finish, fdiv_count. by destruct (acc.2 =? 0).
Qed.

Lemma rule3_finish_zero scale acc :
  fresh acc -> acc.2 = 0 -> rule3_finish scale acc = Ok vzero.
Proof.
  intros [_ Hz] Hn. unfold rule3_finish. rewrite Hn. simpl. by rewrite Hz.
Qed.

Lemma rule1_scan_cases N iSelf pos :
  rule1_scan N iSelf pos <> Err DivByZero /\
  forall acc, rule1_scan N iSelf pos = Ok acc -> fresh acc.
Proof.
  unfold rule1_scan. split.
  - apply rbind_no_fault; [|intros acc _];
      apply forM_no_fault; intros; apply rule1_step_no_div.
  - intros acc. rewrite rbind_Ok. intros (mid & Hmid & Hacc).
    eapply forM_invariant; [| |exact Hacc].
    + intros x t t' _. apply rule1_step_fresh.
    + eapply forM_invariant; [| |exact Hmid].
      * intros x t t' _. apply rule1_step_fresh.
      * apply fresh_init.
Qed.

Lemma rule3_scan_cases N iSelf pos vel :
  rule3_scan N iSelf pos vel <> Err DivByZero /\
  forall acc, rule3_scan N iSelf pos vel = Ok acc -> fresh acc.
Proof.
  unfold rule3_scan. split.
  - apply rbind_no_fault; [|intros acc _];
      apply forM_no_fault; intros; apply rule3_step_no_div.
  - intros acc. rewrite rbind_Ok. intros (mid & Hmid & Hacc).
    eapply forM_invariant; [| |exact Hacc].
    + intros x t t' _. apply rule3_step_fresh.
    + eapply forM_invariant; [| |exact Hmid].
      * intros x t t' _. apply rule3_step_fresh.
      * apply fresh_init.
Qed.

(** The grid scans: [step] is the per-neighbour body, [pick] the way a slot
    names its neighbour (through the index table, or directly). *)
Lemma grid_scan_cases (starts ends used : list Z)
    (body : Z -> vec3 F * Z -> result (vec3 F * Z)) :
  (forall i acc, body i acc <> Err DivByZero) ->
  (forall i acc acc', fresh acc -> body i acc = Ok acc' -> fresh acc') ->
  forCells used (fun gridC => forSlots starts ends gridC body) (vzero, 0)
    <> Err DivByZero /\
  forall acc,
    forCells used (fun gridC => forSlots starts ends gridC body) (vzero, 0) = Ok acc ->
    fresh acc.
Proof.
  intros Hdiv Hfresh. split.
  - apply forCells_no_div. intros. by apply forSlots_no_div.
  - intros acc. apply forCells_invariant; [|apply fresh_init].
    intros gridC t t' Ht. apply forSlots_invariant; [|done]. apply Hfresh.
Qed.

Lemma skip_self_no_div (iSelf : Z) (pai : list Z)
    (step : Z -> vec3 F * Z -> result (vec3 F * Z)) i acc :
  (forall j a, step j a <> Err DivByZero) ->
  (neighbor <- rd pai i ;; if neighbor =? iSelf then Ok acc else step neighbor acc)
    <> Err DivByZero.
Proof.
  intros Hstep. apply rbind_no_fault; [apply rd_no_div|intros n _].
  destruct (n =? iSelf); [done|apply Hstep].
Qed.

Lemma skip_self_fresh (iSelf : Z) (pai : list Z)
    (step : Z -> vec3 F * Z -> result (vec3 F * Z)) i acc acc' :
  (forall j a a', fresh a -> step j a = Ok a' -> fresh a') ->
  fresh acc ->
  (neighbor <- rd pai i ;; if neighbor =? iSelf then Ok acc else step neighbor acc)
    = Ok acc' ->
  fresh acc'.
Proof.
  intros Hstep Hacc. rewrite rbind_Ok. intros (n & _ & Hn).
  destruct (n =? iSelf); [by injection Hn as <-|by eapply Hstep].
Qed.

End CountGuard.

Section CountGuardRules.
Context {F : Type} {SF : Scalar F}.
Variables (N iSelf : Z) (starts ends pai used : list Z) (pos vel : list (vec3 F)).
Variable scale : F.

Lemma rule1Scatter_scan_cases :
  rule1Scatter_scan iSelf starts ends pai pos used <> Err DivByZero /\
  forall acc, rule1Scatter_scan iSelf starts ends pai pos used = Ok acc -> fresh acc.
Proof.
  apply grid_scan_cases.
  - intros. apply skip_self_no_div. apply rule1_step_no_div.
  - intros i acc acc'. apply skip_self_fresh. intros j a a'. apply rule1_step_fresh.
Qed.

Lemma rule3Scatter_scan_cases :
  rule3Scatter_scan iSelf starts ends pai pos vel used <> Err DivByZero /\
  forall acc,
    rule3Scatter_scan iSelf starts ends pai pos vel used = Ok acc -> fresh acc.
Proof.
  apply grid_scan_cases.
  - intros. apply skip_self_no_div. apply rule3_step_no_div.
  - intros i acc acc'. apply skip_self_fresh. intros j a a'. apply rule3_step_fresh.
Qed.

Lemma rule1Coherent_scan_cases :
  rule1Coherent_scan iSelf starts ends pos used <> Err DivByZero /\
  forall acc, rule1Coherent_scan iSelf starts ends pos used = Ok acc -> fresh acc.
Proof.
  apply grid_scan_cases.
  - intros i acc. destruct (i =? iSelf); [done|apply rule1_step_no_div].
  - intros i acc acc' Hacc.
    destruct (i =? iSelf); [by intros [= <-]|by apply rule1_step_fresh].
Qed.

Lemma rule3Coherent_scan_cases :
  rule3Coherent_scan iSelf starts ends pos vel used <> Err DivByZero /\
  forall acc,
    rule3Coherent_scan iSelf starts ends pos vel used = Ok acc -> fresh acc.
Proof.
  apply grid_scan_cases.
  - intros i acc. destruct (i =? iSelf); [done|apply rule3_step_no_div].
  - intros i acc acc' Hacc.
    destruct (i =? iSelf); [by intros [= <-]|by apply rule3_step_fresh].
Qed.

End CountGuardRules.

(** C10: in the six cohesion and alignment rule functions the division by the
    neighbour count [n] is reached only with [n <> 0], so none of them ever
    divides by zero; and when the scan ends with [n = 0] the rule returns the
    zero vector. *)
Theorem count_guards_division {F : Type} {SF : Scalar F}
    (N iSelf : Z) (starts ends pai used : list Z) (pos vel : list (vec3 F))
    (scale : F) :
  (rule1 N iSelf pos scale <> Err DivByZero /\
   rule1Scatter iSelf starts ends pai pos used scale <> Err DivByZero /\
   rule1Coherent iSelf starts ends pos used scale <> Err DivByZero /\
   rule3 N iSelf pos vel scale <> Err DivByZero /\
   rule3Scatter iSelf starts ends pai pos vel used scale <> Err DivByZero /\
   rule3Coherent iSelf starts ends pos vel used scale <> Err DivByZero) /\
  (forall pc, rule1_scan N iSelf pos = Ok (pc, 0) ->
     rule1 N iSelf pos scale = Ok vzero) /\
  (forall pc, rule1Scatter_scan iSelf starts ends pai pos used = Ok (pc, 0) ->
     rule1Scatter iSelf starts ends pai pos used scale = Ok vzero) /\
  (forall pc, rule1Coherent_scan iSelf starts ends pos used = Ok (pc, 0) ->
     rule1Coherent iSelf starts ends pos used scale = Ok vzero) /\
  (forall vsum, rule3_scan N iSelf pos vel = Ok (vsum, 0) ->
     rule3 N iSelf pos vel scale = Ok vzero) /\
  (forall vsum, rule3Scatter_scan iSelf starts ends pai pos vel used = Ok (vsum, 0) ->
     rule3Scatter iSelf starts ends pai pos vel used scale = Ok vzero) /\
  (forall vsum, rule3Coherent_scan iSelf starts ends pos vel used = Ok (vsum, 0) ->
     rule3Coherent iSelf starts ends pos vel used scale = Ok vzero).
Proof.
  destruct (rule1_scan_cases N iSelf pos) as [Hd1 Hf1].
  destruct (rule1Scatter_scan_cases iSelf starts ends pai used pos) as [Hd1s Hf1s].
  destruct (rule1Coherent_scan_cases iSelf starts ends used pos) as [Hd1c Hf1c].
  destruct (rule3_scan_cases N iSelf pos vel) as [Hd3 Hf3].
  destruct (rule3Scatter_scan_cases iSelf starts ends pai used pos vel) as [Hd3s Hf3s].
  destruct (rule3Coherent_scan_cases iSelf starts ends used pos vel) as [Hd3c Hf3c].
  split; [split_and!|split_and!].
  - apply rbind_no_fault; [done|intros; apply rule1_finish_no_div].
  - apply rbind_no_fault; [done|intros; apply rule1_finish_no_div].
  - apply rbind_no_fault; [done|intros; apply rule1_finish_no_div].
  - apply rbind_no_fault; [done|intros; apply rule3_finish_no_div].
  - apply rbind_no_fault; [done|intros; apply rule3_finish_no_div].
  - apply rbind_no_fault; [done|intros; apply rule3_finish_no_div].
  - intros pc Hscan. unfold rule1. by rewrite Hscan.
  - intros pc Hscan. unfold rule1Scatter. by rewrite Hscan.
  - intros pc Hscan. unfold rule1Coherent. by rewrite Hscan.
  - intros vsum Hscan. unfold rule3. rewrite Hscan. simpl.
    apply rule3_finish_zero; [by apply Hf3|done].
  - intros vsum Hscan. unfold rule3Scatter. rewrite Hscan. simpl.
    apply rule3_finish_zero; [by apply Hf3s|done].
  - intros vsum Hscan. unfold rule3Coherent. rewrite Hscan. simpl.
    apply rule3_finish_zero; [by apply Hf3c|done].
Qed.

(** ** A particle without neighbours *)

Section Isolated.
Context {F : Type} {SF : Scalar F}.

Lemma isolatedb_spec iSelf pos : isolatedb iSelf pos = true -> isolated iSelf pos.
Proof.
  unfold isolatedb. rewrite forallb_forall. intros Hall j p self Hj Hp Hself.
  assert (Hin : In j (seqZ 0 (Z.of_nat (length pos)))).
  { apply list_elem_of_In, elem_of_seqZ. apply rd_Ok in Hp as [? Hp].
    apply lookup_lt_Some in Hp. lia. }
  specialize (Hall j Hin). rewrite Hp, Hself in Hall.
  destruct (Z.eqb_spec j iSelf); [done|]. simpl in Hall.
  destruct (within rule1Distance p self), (within rule2Distance p self),
    (within rule3Distance p self); done.
Qed.

Variables (iSelf : Z) (pos vel : list (vec3 F)).
Hypothesis Hisolated : isolated iSelf pos.

Lemma rule1_step_isolated j acc acc' :
  j <> iSelf -> rule1_step iSelf pos j acc = Ok acc' -> acc' = acc.
Proof.
  intros Hj. unfold rule1_step.
  destruct (rd pos j) as [p|] eqn:Hp; simpl; [|done].
  destruct (rd pos iSelf) as [self|] eqn:Hs; simpl; [|done].
  destruct (Hisolated j p self Hj Hp Hs) as (-> & _ & _). by intros [= <-].
Qed.

Lemma rule2_step_isolated j c c' :
  j <> iSelf -> rule2_step iSelf pos j c = Ok c' -> c' = c.
Proof.
  intros Hj. unfold rule2_step.
  destruct (rd pos j) as [p|] eqn:Hp; simpl; [|done].
  destruct (rd pos iSelf) as [self|] eqn:Hs; simpl; [|done].
  destruct (Hisolated j p self Hj Hp Hs) as (_ & -> & _). by intros [= <-].
Qed.

Lemma rule3_step_isolated j acc acc' :
  j <> iSelf -> rule3_step iSelf pos vel j acc = Ok acc' -> acc' = acc.
Proof.
  intros Hj. unfold rule3_step.
  destruct (rd pos j) as [p|] eqn:Hp; simpl; [|done].
  destruct (rd pos iSelf) as [self|] eqn:Hs; simpl; [|done].
  destruct (Hisolated j p self Hj Hp Hs) as (_ & _ & ->). by intros [= <-].
Qed.

(** A grid scan whose per-neighbour body leaves the accumulator alone: the
    scan, if it returns, returns the initial accumulator. *)
Lemma grid_scan_unchanged {S : Type} (starts ends used : list Z)
    (body : Z -> S -> result S) (s s' : S) :
  (forall i t t', body i t = Ok t' -> t' = t) ->
  forCells used (fun gridC => forSlots starts ends gridC body) s = Ok s' -> s' = s.
Proof.
  intros Hbody. apply (forCells_invariant (fun t => t = s)); [|done].
  intros gridC t t' ->. apply (forSlots_invariant (fun t => t = s)); [|done].
  intros i u u' ->. apply Hbody.
Qed.

(** In a brute-force scan every read is inside the buffer. *)
Hypothesis Hself : 0 <= iSelf < Z.of_nat (length pos).

Lemma brute_loop_unchanged {S : Type} (lo len : Z) (step : Z -> S -> result S)
    (s : S) :
  (forall j t, lo <= j < lo + len -> step j t = Ok t) ->
  forM (seqZ lo len) step s = Ok s.
Proof.
  intros Hstep. apply forM_skip. intros j t Hj. apply elem_of_seqZ in Hj. by apply Hstep.
Qed.

Lemma step_total {S : Type} (step : Z -> S -> result S) (j : Z) (t : S) :
  (forall t', step j t = Ok t' -> t' = t) ->
  (exists t', step j t = Ok t') -> step j t = Ok t.
Proof. intros Hsame [t' Ht']. rewrite Ht'. f_equal. by apply Hsame. Qed.

Lemma rule1_step_total j acc :
  0 <= j < Z.of_nat (length pos) -> j <> iSelf ->
  rule1_step iSelf pos j acc = Ok acc.
Proof.
  intros Hj Hne. apply step_total; [intros t'; by apply rule1_step_isolated|].
  unfold rule1_step.
  destruct (rd_in_range pos j Hj) as [p ->], (rd_in_range pos iSelf Hself) as [s ->].
  simpl. destruct (within _ _ _); eauto.
Qed.

Lemma rule2_step_total j c :
  0 <= j < Z.of_nat (length pos) -> j <> iSelf ->
  rule2_step iSelf pos j c = Ok c.
Proof.
  intros Hj Hne. apply step_total; [intros t'; by apply rule2_step_isolated|].
  unfold rule2_step.
  destruct (rd_in_range pos j Hj) as [p ->], (rd_in_range pos iSelf Hself) as [s ->].
  simpl. destruct (within _ _ _); eauto.
Qed.

Lemma rule3_step_total j acc :
  0 <= j < Z.of_nat (length pos) -> j <> iSelf ->
  rule3_step iSelf pos vel j acc = Ok acc.
Proof.
  intros Hj Hne. unfold rule3_step.
  destruct (rd_in_range pos j Hj) as [p Hp], (rd_in_range pos iSelf Hself) as [s Hs].
  rewrite Hp, Hs. simpl.
  by destruct (Hisolated j p s Hne Hp Hs) as (_ & _ & ->).
Qed.

(** The two facts of the arithmetic that the result depends on. *)
Hypothesis Hmul : fmul fzero rule2Scale = fzero.
Hypothesis Hadd : fadd fzero fzero = fzero.

Lemma isolated_brute_force (N : Z) :
  N = Z.of_nat (length pos) -> computeVelocityChange N iSelf pos vel = Ok vzero.
Proof.
  intros HN. unfold computeVelocityChange, rule1, rule1_scan, rule2, rule3, rule3_scan.
  repeat (rewrite (brute_loop_unchanged _ _ (rule1_step iSelf pos))
            by (intros; apply rule1_step_total; lia); cbn [rbind]).
  repeat (rewrite (brute_loop_unchanged _ _ (rule2_step iSelf pos))
            by (intros; apply rule2_step_total; lia); cbn [rbind]).
  repeat (rewrite (brute_loop_unchanged _ _ (rule3_step iSelf pos vel))
            by (intros; apply rule3_step_total; lia); cbn [rbind]).
  unfold rule1_finish, rule3_finish. cbn [rbind fst snd Z.eqb].
  unfold vscale, vadd, vzero. cbn [vx vy vz]. by rewrite !Hmul, !Hadd.
Qed.

Lemma isolated_scattered (starts ends pai used : list Z) (v : vec3 F) :
  computeVelocityChangeScattered iSelf starts ends pai pos vel used = Ok v ->
  v = vzero.
Proof.
  unfold computeVelocityChangeScattered, rule1Scatter, rule1Scatter_scan,
    rule2Scatter, rule3Scatter, rule3Scatter_scan.
  rewrite !rbind_Ok. intros (v1 & H1 & H). rewrite !rbind_Ok in H1.
  destruct H1 as (acc1 & Hacc1 & Hfin1).
  apply grid_scan_unchanged in Hacc1 as ->.
  2:{ intros i t t'. rewrite rbind_Ok. intros (n & _ & Hn).
      destruct (Z.eqb_spec n iSelf); [by injection Hn|by eapply rule1_step_isolated]. }
  cbn [rule1_finish snd Z.eqb] in Hfin1. injection Hfin1 as <-.
  rewrite !rbind_Ok in H. destruct H as (v2 & H2 & H). rewrite !rbind_Ok in H2.
  destruct H2 as (c & Hc & [= <-]).
  apply grid_scan_unchanged in Hc as ->.
  2:{ intros i t t'. rewrite rbind_Ok. intros (n & _ & Hn).
      destruct (Z.eqb_spec n iSelf); [by injection Hn|by eapply rule2_step_isolated]. }
  rewrite !rbind_Ok in H. destruct H as (v3 & H3 & [= <-]). rewrite !rbind_Ok in H3.
  destruct H3 as (acc3 & Hacc3 & Hfin3).
  apply grid_scan_unchanged in Hacc3 as ->.
  2:{ intros i t t'. rewrite rbind_Ok. intros (n & _ & Hn).
      destruct (Z.eqb_spec n iSelf); [by injection Hn|by eapply rule3_step_isolated]. }
  cbn [rule3_finish fst snd Z.eqb] in Hfin3. injection Hfin3 as <-.
  unfold vscale, vadd, vzero. cbn [vx vy vz]. by rewrite !Hmul, !Hadd.
Qed.

Lemma isolated_coherent (starts ends used : list Z) (v : vec3 F) :
  computeVelocityChangeCoherent iSelf starts ends pos vel used = Ok v ->
  v = vzero.
Proof.
  unfold computeVelocityChangeCoherent, rule1Coherent, rule1Coherent_scan,
    rule2Coherent, rule3Coherent, rule3Coherent_scan.
  rewrite !rbind_Ok. intros (v1 & H1 & H). rewrite !rbind_Ok in H1.
  destruct H1 as (acc1 & Hacc1 & Hfin1).
  apply grid_scan_unchanged in Hacc1 as ->.
  2:{ intros n t t' Hn.
      destruct (Z.eqb_spec n iSelf); [by injection Hn|by eapply rule1_step_isolated]. }
  cbn [rule1_finish snd Z.eqb] in Hfin1. injection Hfin1 as <-.
  rewrite !rbind_Ok in H. destruct H as (v2 & H2 & H). rewrite !rbind_Ok in H2.
  destruct H2 as (c & Hc & [= <-]).
  apply grid_scan_unchanged in Hc as ->.
  2:{ intros n t t' Hn.
      destruct (Z.eqb_spec n iSelf); [by injection Hn|by eapply rule2_step_isolated]. }
  rewrite !rbind_Ok in H. destruct H as (v3 & H3 & [= <-]). rewrite !rbind_Ok in H3.
  destruct H3 as (acc3 & Hacc3 & Hfin3).
  apply grid_scan_unchanged in Hacc3 as ->.
  2:{ intros n t t' Hn.
      destruct (Z.eqb_spec n iSelf); [by injection Hn|by eapply rule3_step_isolated]. }
  cbn [rule3_finish fst snd Z.eqb] in Hfin3. injection Hfin3 as <-.
  unfold vscale, vadd, vzero. cbn [vx vy vz]. by rewrite !Hmul, !Hadd.
Qed.

End Isolated.

(** ** Constants of the binary32 instance *)

Lemma vzero_f32 :
  vzero (F:=float32) = mkvec3 (S754_zero false) (S754_zero false) (S754_zero false).
Proof. reflexivity. Qed.

Lemma scene_scale_f32 : scene_scale (F:=float32) = S754_finite false 13107200 (-17).
Proof. vm_compute. reflexivity. Qed.

Lemma rule2Scale_f32 : rule2Scale (F:=float32) = S754_finite false 13421773 (-27).
Proof. vm_compute. reflexivity. Qed.

Lemma rule2Distance_f32 : rule2Distance (F:=float32) = S754_finite false 8388608 (-21).
Proof. vm_compute. reflexivity. Qed.

Lemma grid_f32 :
  (gridSideCount (F:=float32), gridCellCount (F:=float32),
   gridCellWidth (F:=float32), gridInverseCellWidth (F:=float32),
   gridMinimum (F:=float32))
  = (6, 216, S754_finite false 10485760 (-18), S754_finite false 13421773 (-29),
     let m := S754_finite true 15728640 (-17) in mkvec3 m m m).
Proof. vm_compute. reflexivity. Qed.



Section TwoParticlesExact.
Local Open Scope R_scope.

Lemma within_unit_offset (d : R) (p self : vec3 R) :
  1 < d ->
  (vx p - vx self) * (vx p - vx self) + (vy p - vy self) * (vy p - vy self)
    + (vz p - vz self) * (vz p - vz self) = 1 ->
  within d p self = true.
Proof.
  intros Hd Hsq. unfold within, vlength, vdot, vsub.
  cbn [vx vy vz fsqrt fltb fadd fmul fsub R_scalar].
  rewrite Hsq, sqrt_1. unfold Rltb. by destruct (Rlt_dec 1 d).
Qed.

Lemma rule2_two_particles_R :
  let pos : list (vec3 R) := [mkvec3 0 0 0; mkvec3 1 0 0] in
  rule2 2 0 pos rule2Scale = Ok (mkvec3 (- (1 / 10)) 0 0) /\
  rule2 2 1 pos rule2Scale = Ok (mkvec3 (1 / 10) 0 0).
Proof.
  intros pos.
  assert (Hnear : forall p self : vec3 R,
             (vx p - vx self) * (vx p - vx self) + (vy p - vy self) * (vy p - vy self)
               + (vz p - vz self) * (vz p - vz self) = 1 ->
             within rule2Distance p self = true).
  { intros p self. apply within_unit_offset. unfold rule2Distance.
    cbn [of_int R_scalar]. lra. }
  split.
  - unfold rule2. change (seqZ 0 0) with (@nil Z).
    change (seqZ (0 + 1) (2 - (0 + 1))) with [1%Z]. cbn [forM rbind].
    unfold rule2_step. change (rd pos 1) with (Ok (mkvec3 1 0 0)).
    change (rd pos 0) with (Ok (mkvec3 0 0 0)). cbn [rbind].
    rewrite Hnear by (cbn [vx vy vz]; ring). cbn [rbind].
    unfold vscale, vsub, vzero, fzero, rule2Scale, flit.
    cbn [vx vy vz fmul fsub fdiv of_int R_scalar]. do 2 f_equal; field.
  - unfold rule2. change (seqZ 0 1) with [0%Z].
    change (seqZ (1 + 1) (2 - (1 + 1))) with (@nil Z). cbn [forM rbind].
    unfold rule2_step. change (rd pos 1) with (Ok (mkvec3 1 0 0)).
    change (rd pos 0) with (Ok (mkvec3 0 0 0)). cbn [rbind].
    rewrite Hnear by (cbn [vx vy vz]; ring). cbn [rbind].
    unfold vscale, vsub, vzero, fzero, rule2Scale, flit.
    cbn [vx vy vz fmul fsub fdiv of_int R_scalar]. do 2 f_equal; field.
Qed.

Lemma vlength_axis_R (a : R) : 0 <= a -> vlength (mkvec3 a 0 0) = a.
Proof.
  intros Ha. unfold vlength, vdot. cbn [vx vy vz fsqrt fadd fmul R_scalar].
  replace (a * a + 0 * 0 + 0 * 0) with (a * a) by ring. by apply sqrt_square.
Qed.

Lemma vlength_neg_axis_R (a : R) : 0 <= a -> vlength (mkvec3 (- a) 0 0) = a.
Proof.
  intros Ha. unfold vlength, vdot. cbn [vx vy vz fsqrt fadd fmul R_scalar].
  replace (- a * - a + 0 * 0 + 0 * 0) with (a * a) by ring. by apply sqrt_square.
Qed.

End TwoParticlesExact.

(** C9: for the two stationary particles at (0,0,0) and (1,0,0), with
    [rule2Distance = 4.0] and [rule2Scale = 0.1], the separation rule gives
    the particle at the origin (-0.1, 0, 0) and the other one (+0.1, 0, 0):
    a push of magnitude 0.1 away from the other particle.  In binary32 0.1 is
    the value of the literal [0.1f]; in exact arithmetic it is 1/10. *)
Theorem separation_of_two_particles :
  (let pos : list (vec3 float32) :=
     [mkvec3 (of_int 0) (of_int 0) (of_int 0);
      mkvec3 (of_int 1) (of_int 0) (of_int 0)] in
   rule2Distance (F:=float32) = of_int 4 /\
   rule2Scale (F:=float32) = flit 1 10 /\
   rule2 2 0 pos rule2Scale = Ok (mkvec3 (fopp (flit 1 10)) fzero fzero) /\
   rule2 2 1 pos rule2Scale = Ok (mkvec3 (flit 1 10) fzero fzero) /\
   vlength (F:=float32) (mkvec3 (fopp (flit 1 10)) fzero fzero) = flit 1 10 /\
   vlength (F:=float32) (mkvec3 (flit 1 10) fzero fzero) = flit 1 10) /\
  (let pos : list (vec3 R) := [mkvec3 0%R 0%R 0%R; mkvec3 1%R 0%R 0%R] in
   rule2 2 0 pos rule2Scale = Ok (mkvec3 (- (1 / 10))%R 0%R 0%R) /\
   rule2 2 1 pos rule2Scale = Ok (mkvec3 (1 / 10)%R 0%R 0%R) /\
   vlength (mkvec3 (- (1 / 10))%R 0%R 0%R) = (1 / 10)%R /\
   vlength (mkvec3 (1 / 10)%R 0%R 0%R) = (1 / 10)%R).
Proof.
  split.
  - intros pos. split_and!; try reflexivity; vm_compute; reflexivity.
  - intros pos. destruct rule2_two_particles_R as [Hfirst Hsecond].
    split_and!; [exact Hfirst|exact Hsecond| |].
    + apply vlength_neg_axis_R. lra.
    + apply vlength_axis_R. lra.
Qed.

(** ** Wrapping at the domain boundary *)

Lemma wrapAxis_f32 (x : float32) :
  wrapAxis x =
  let lo := S754_finite true 13107200 (-17) in
  let hi := S754_finite false 13107200 (-17) in
  let x1 := if SFltb x lo then hi else x in
  if SFltb hi x1 then lo else x1.
Proof.
  unfold wrapAxis, fgtb. cbn [fltb fopp float32_scalar].
  rewrite scene_scale_f32. reflexivity.
Qed.

Lemma above_not_below (x : float32) :
  SFltb (S754_finite false 13107200 (-17)) x = true ->
  SFltb x (S754_finite true 13107200 (-17)) = false.
Proof. destruct x as [s|s| |s m e]; try destruct s; try done. Qed.

(** C4 as the code has it: a coordinate below [-scene_scale] becomes
    [+scene_scale], a coordinate above [+scene_scale] becomes [-scene_scale],
    and every other coordinate is left unchanged, the two boundary values
    [-scene_scale] and [+scene_scale] included. *)
Theorem wrapAxis_cases (x : float32) :
  (fltb x (fopp scene_scale) = true -> wrapAxis x = scene_scale) /\
  (fgtb x scene_scale = true -> wrapAxis x = fopp scene_scale) /\
  (fltb x (fopp scene_scale) = false -> fgtb x scene_scale = false ->
   wrapAxis x = x) /\
  wrapAxis (F:=float32) scene_scale = scene_scale /\
  wrapAxis (F:=float32) (fopp scene_scale) = fopp scene_scale.
Proof.
  unfold fgtb. cbn [fltb fopp float32_scalar].
  rewrite !wrapAxis_f32, scene_scale_f32. cbn [SFopp negb]. split_and!.
  - intros ->. reflexivity.
  - intros Hhi. cbn zeta. rewrite (above_not_below x Hhi), Hhi. reflexivity.
  - intros Hlo Hhi. cbn zeta. rewrite Hlo, Hhi. reflexivity.
  - reflexivity.
  - reflexivity.
Qed.

Lemma wrapAxis_cases_witness :
  wrapAxis (F:=float32) (of_int (-101)) = scene_scale /\
  wrapAxis (F:=float32) (of_int 101) = fopp scene_scale /\
  wrapAxis (F:=float32) (of_int 7) = of_int 7.
Proof.
  split_and!.
  - destruct (wrapAxis_cases (of_int (-101))) as (Hlow & _).
    apply Hlow. vm_compute. reflexivity.
  - destruct (wrapAxis_cases (of_int 101)) as (_ & Hhigh & _).
    apply Hhigh. vm_compute. reflexivity.
  - destruct (wrapAxis_cases (of_int 7)) as (_ & _ & Hmid & _).
    apply Hmid; vm_compute; reflexivity.
Defined.

(** C4 as stated fails: a coordinate exactly equal to [+scene_scale] is not
    wrapped to [-scene_scale]. *)
Lemma wrap_at_upper_bound_unchanged :
  wrapAxis (F:=float32) scene_scale <> fopp scene_scale.
Proof. vm_compute. discriminate. Qed.

(** The kernel stores the wrapped coordinates of [pos + vel * dt]. *)
Lemma kernUpdatePos_thread {F : Type} {SF : Scalar F} (N : Z) (dt : F)
    (vel pos : list (vec3 F)) (index : Z) (p v : vec3 F) :
  index < N -> rd pos index = Ok p -> rd vel index = Ok v ->
  kernUpdatePos N dt vel index pos =
  Ok (<[Z.to_nat index :=
         let thisPos := vadd p (vscale v dt) in
         mkvec3 (wrapAxis (vx thisPos)) (wrapAxis (vy thisPos))
                (wrapAxis (vz thisPos))]> pos).
Proof.
  intros Hidx Hp Hv. unfold kernUpdatePos.
  destruct (Z.leb_spec N index); [lia|].
  rewrite Hp, Hv. cbn [rbind].
  apply rd_Ok in Hp as [? Hp]. apply lookup_lt_Some in Hp.
  apply wr_in_range. lia.
Qed.

(** ** From coordinates to cells *)

(** [SFfloor] is the floor of the value [(-1)^s * m * 2^e]. *)
Lemma SFfloor_spec (s : bool) (m : positive) (e : Z) :
  let x := S754_finite s m e in
  (0 <= e -> SFfloor x = cond_Zopp s (Zpos m) * 2 ^ e) /\
  (e < 0 -> SFfloor x * 2 ^ (- e) <= cond_Zopp s (Zpos m)
                < (SFfloor x + 1) * 2 ^ (- e)).
Proof.
  cbn zeta. unfold SFfloor. split; intros He.
  - by rewrite Z.shiftl_mul_pow2.
  - rewrite Z.shiftl_div_pow2 by lia.
    assert (Hd : 0 < 2 ^ (- e)) by (apply Z.pow_pos_nonneg; lia).
    pose proof (Z.div_mod (cond_Zopp s (Z.pos m)) (2 ^ (- e)) ltac:(lia)).
    pose proof (Z.mod_pos_bound (cond_Zopp s (Z.pos m)) (2 ^ (- e)) Hd).
    nia.
Qed.

Lemma SFintegral_neg_exp (s : bool) (m : positive) (e : Z) :
  e < 0 ->
  SFintegral (S754_finite s m e) = (Zpos m `mod` 2 ^ (- e) =? 0).
Proof.
  intros He. unfold SFintegral.
  assert (Hd : 0 < 2 ^ (- e)) by (apply Z.pow_pos_nonneg; lia).
  rewrite (Z.shiftl_div_pow2 (Z.pos m) e) by lia.
  rewrite Z.shiftl_mul_pow2 by lia.
  pose proof (Z.div_mod (Z.pos m) (2 ^ (- e)) ltac:(lia)).
  destruct (Z.eqb_spec (Z.pos m `div` 2 ^ (- e) * 2 ^ (- e)) (Z.pos m)),
    (Z.eqb_spec (Z.pos m `mod` 2 ^ (- e)) 0); try done; lia.
Qed.

Lemma SFtrunc_floor (s : bool) (m : positive) (e : Z) :
  let x := S754_finite s m e in
  SFtrunc x = SFfloor x + (if s && negb (SFintegral x) then 1 else 0).
Proof.
  intros x. subst x. destruct s; cbn [andb]; [|unfold SFtrunc, SFfloor, cond_Zopp; lia].
  destruct (Z.le_gt_cases 0 e) as [He|He].
  - assert (Hint : SFintegral (S754_finite true m e) = true).
    { unfold SFintegral. rewrite (Z.shiftl_mul_pow2 (Z.pos m) e) by lia.
      rewrite Z.shiftl_div_pow2 by lia.
      rewrite Z.opp_involutive, Z.div_mul; [apply Z.eqb_refl|].
      apply Z.pow_nonzero; lia. }
    rewrite Hint. unfold SFtrunc, SFfloor, cond_Zopp. cbn [negb].
    rewrite !Z.shiftl_mul_pow2 by lia. lia.
  - rewrite SFintegral_neg_exp by done.
    assert (Hd : 0 < 2 ^ (- e)) by (apply Z.pow_pos_nonneg; lia).
    unfold SFtrunc, SFfloor, cond_Zopp. rewrite !Z.shiftl_div_pow2 by lia.
    destruct (Z.eqb_spec (Z.pos m `mod` 2 ^ (- e)) 0) as [Hz|Hnz]; cbn [negb].
    + rewrite Z.div_opp_l_z by lia. lia.
    + rewrite Z.div_opp_l_nz by lia. lia.
Qed.

(** C5 as the code has it: on each axis [boidGrid] returns the product
    [(pos - gridMin) * inverseCellWidth] converted by [(int)], that is
    truncated toward zero (and clamped to the range of [int]).  The truncation
    is the floor of the product when the product is non-negative or an
    integer, and the floor plus one when it is negative and not an integer. *)
Theorem boidGrid_truncates (location gridMin : vec3 float32) (inverseCellWidth : float32) :
  let boidCell := vscale (vsub location gridMin) inverseCellWidth in
  boidGrid location gridMin inverseCellWidth
  = make_int3 (f32_to_int (vx boidCell)) (f32_to_int (vy boidCell))
              (f32_to_int (vz boidCell)) /\
  forall (s : bool) (m : positive) (e : Z),
    let x := S754_finite s m e in
    f32_to_int x = clamp_int (SFtrunc x) /\
    SFtrunc x = SFfloor x + (if s && negb (SFintegral x) then 1 else 0).
Proof.
  split; [reflexivity|]. intros s m e x. split; [reflexivity|apply SFtrunc_floor].
Qed.

(** C5 as stated fails: 20 units below the grid minimum the product is -0.5,
    whose floor is -1, and [boidGrid] returns 0. *)
Lemma boidGrid_not_floor_below_grid :
  let location : vec3 float32 := mkvec3 (of_int (-140)) (of_int 0) (of_int 0) in
  let boidCell := vscale (vsub location gridMinimum) gridInverseCellWidth in
  vx boidCell = S754_finite true 8388608 (-24) /\
  SFfloor (vx boidCell) = -1 /\
  ix (boidGrid location gridMinimum gridInverseCellWidth) = 0 /\
  ix (boidGrid location gridMinimum gridInverseCellWidth) <> SFfloor (vx boidCell).
Proof. vm_compute. split_and!; done. Qed.

(** ** Range extraction *)

Lemma forM_total_invariant {A S : Type} (P : S -> Prop) (xs : list A)
    (body : A -> S -> result S) (s : S) :
  (forall x t, x ∈ xs -> P t -> exists t', body x t = Ok t' /\ P t') ->
  P s -> exists s', forM xs body s = Ok s' /\ P s'.
Proof.
  revert s. induction xs as [|x xs IH]; intros s Hstep Hs; simpl.
  - by exists s.
  - destruct (Hstep x s) as (t & -> & Ht); [by left|done|]. simpl.
    apply IH; [|done]. intros y u Hy. apply Hstep. by right.
Qed.

Lemma kernResetIntBuffer_prefix (N value : Z) (buf : list Z) (k : nat) :
  length buf = Z.to_nat N -> (k <= Z.to_nat N)%nat ->
  forM (seqZ 0 (Z.of_nat k)) (kernResetIntBuffer N value) buf
  = Ok (replicate k value ++ drop k buf).
Proof.
  intros Hlen. induction k as [|k IH]; intros Hk.
  - simpl. by rewrite drop_0.
  - rewrite seqZ_S, forM_app, IH by lia. simpl.
    unfold kernResetIntBuffer.
    destruct (Z.ltb_spec (0 + Z.of_nat k) N); [|lia].
    rewrite wr_in_range by (rewrite length_app, length_replicate, length_drop; lia).
    rewrite Z.add_0_l, Nat2Z.id.
    rewrite insert_at_boundary by (rewrite ?length_replicate; lia).
    by rewrite <- replicate_S_end.
Qed.

Lemma launch_kernResetIntBuffer (N value : Z) (buf : list Z) :
  0 <= N -> length buf = Z.to_nat N ->
  launch N (kernResetIntBuffer N value) buf = Ok (replicate (Z.to_nat N) value).
Proof.
  intros HN Hlen. rewrite launch_guarded; [|done|].
  - rewrite <- (Z2Nat.id N) at 1 by done.
    rewrite kernResetIntBuffer_prefix by (done || lia).
    by rewrite drop_ge, app_nil_r by lia.
  - intros i t Hi. unfold kernResetIntBuffer.
    destruct (Z.ltb_spec i N); [lia|done].
Qed.

Lemma sorted_lookup_le (l : list Z) (i j : nat) (x y : Z) :
  Sorted Z.le l -> l !! i = Some x -> l !! j = Some y -> (i <= j)%nat -> x <= y.
Proof.
  intros Hs. apply Sorted_StronglySorted in Hs; [|intros a b c; lia].
  revert i j. induction Hs as [|h t Ht IH Hall]; intros i j Hi Hj Hij; [done|].
  destruct i as [|i], j as [|j]; simpl in *; simplify_eq; try lia.
  - rewrite Forall_forall in Hall. apply Hall. eapply list_elem_of_lookup_2, Hj.
  - eapply IH; [done..|lia].
Qed.

Lemma rd_sorted_le (keys : list Z) (i j x y : Z) :
  Sorted Z.le keys -> rd keys i = Ok x -> rd keys j = Ok y -> i <= j -> x <= y.
Proof.
  intros Hs Hi Hj Hij. apply rd_Ok in Hi as [? Hi]. apply rd_Ok in Hj as [? Hj].
  eapply sorted_lookup_le; [done..|lia].
Qed.

Lemma rd_wr_ne {A : Type} (buf buf' : list A) (i j : Z) (a : A) :
  wr buf i a = Ok buf' -> i <> j -> rd buf' j = rd buf j.
Proof.
  intros Hw Hij. apply wr_Ok in Hw as [Hi ->]. unfold rd.
  destruct (Z.ltb_spec j 0); [done|].
  rewrite list_lookup_insert_ne by lia. done.
Qed.

Lemma wr_length {A : Type} (buf buf' : list A) (i : Z) (a : A) :
  wr buf i a = Ok buf' -> length buf' = length buf.
Proof. intros Hw. apply wr_Ok in Hw as [_ ->]. apply length_insert. Qed.

(** Two runs in which the last cell is left open, evaluated. *)
Lemma buildCellRanges_single_particle :
  buildCellRanges 1 4 [2] [0; 0; 0; 0] [0; 0; 0; 0]
  = Ok ([-1; -1; 0; -1], [-1; -1; -1; -1]).
Proof. vm_compute. reflexivity. Qed.

Lemma buildCellRanges_shared_last_cell :
  buildCellRanges 3 4 [1; 2; 2] [0; 0; 0; 0] [0; 0; 0; 0]
  = Ok ([-1; 0; 1; -1], [-1; 1; -1; -1]).
Proof. vm_compute. reflexivity. Qed.

(** A run in which the last slot opens a cell of its own: there the tables
    come out as the property asks. *)
Lemma buildCellRanges_closed_last_cell :
  buildCellRanges 4 5 [1; 1; 3; 4] [0; 0; 0; 0; 0] [0; 0; 0; 0; 0]
  = Ok ([-1; 0; -1; 2; 3], [-1; 2; -1; 3; 4]) /\
  range_tables_validb 4 [1; 1; 3; 4] [-1; 0; -1; 2; 3] [-1; 2; -1; 3; 4] = true.
Proof. vm_compute. done. Qed.

(** ** The candidate cells *)

Lemma gridInRange_spec (val : int3) (gridResolution : Z) :
  gridInRange val gridResolution = true <->
  0 <= ix val <= gridResolution /\ 0 <= iy val <= gridResolution /\
  0 <= iz val <= gridResolution.
Proof. unfold gridInRange. rewrite !andb_true_iff, !Z.leb_le. lia. Qed.

(** C3, what the code does instead: [gridInRange] accepts a coordinate equal
    to the grid resolution.  With the default grid (resolution 6) and two
    particles at (100,0,0) and (-100,10,10), the enumerator run for the first
    particle probes the cell (6,2,3), past the last column of the grid; the
    probe passes [gridInRange], its linear id 126 is the id of the cell
    (0,3,3) that holds the second particle, and 126 is written to the
    candidate list.  For a particle at (100,100,100) the probe (6,6,6) passes
    as well and reads the start table past its end. *)
Theorem findGridCells_accepts_cell_beyond_grid :
  let pos : list (vec3 float32) :=
    [mkvec3 (of_int 100) (of_int 0) (of_int 0);
     mkvec3 (of_int (-100)) (of_int 10) (of_int 10)] in
  let half := fmul (gridCellWidth (F:=float32)) (flit 1 2) in
  let upper :=
    upperProbes (boidGrid (vadd (mkvec3 (of_int 100) (of_int 0) (of_int 0))
                                (mkvec3 half half half))
                          gridMinimum gridInverseCellWidth) in
  let lower :=
    lowerProbes (boidGrid (vsub (mkvec3 (of_int 100) (of_int 0) (of_int 0))
                                (mkvec3 half half half))
                          gridMinimum gridInverseCellWidth) in
  gridSideCount (F:=float32) = 6 /\ gridCellCount (F:=float32) = 216 /\
  launch 2 (kernComputeIndices 2 6 gridMinimum gridInverseCellWidth pos)
         ([0; 0], [0; 0]) = Ok ([0; 1], [131; 126]) /\
  sort_by_key [131; 126] [0; 1] = ([126; 131], [1; 0]) /\
  exists starts ends,
    buildCellRanges 2 216 [126; 131] (replicate 216 0) (replicate 216 0)
      = Ok (starts, ends) /\
    findGridCells 0 6 gridMinimum gridInverseCellWidth gridCellWidth starts pos
      = Ok [131; 126; -1] /\
    upper = [make_int3 6 3 3; make_int3 5 3 3; make_int3 6 2 3; make_int3 5 2 3] /\
    lower = [make_int3 5 2 2; make_int3 6 2 2; make_int3 5 3 2; make_int3 6 3 2] /\
    filter (fun c => gridIndex3Dto1D (ix c) (iy c) (iz c) 6 = 126) (upper ++ lower)
      = [make_int3 6 2 3] /\
    gridInRange (make_int3 6 2 3) 6 = true /\
    boidGrid (mkvec3 (of_int (-100)) (of_int 10) (of_int 10))
             (gridMinimum (F:=float32)) gridInverseCellWidth = make_int3 0 3 3 /\
    findGridCells 0 6 gridMinimum gridInverseCellWidth gridCellWidth starts
      [mkvec3 (of_int 100) (of_int 100) (of_int 100)] = Err OutOfBounds.
Proof.
  intros pos half upper lower.
  split_and!; [vm_compute; reflexivity..|].
  destruct (buildCellRanges 2 216 [126; 131] (replicate 216 0) (replicate 216 0))
    as [[starts ends]|] eqn:Hbuild; [|vm_compute in Hbuild; discriminate].
  exists starts, ends. vm_compute in Hbuild. injection Hbuild as <- <-.
  split_and!; vm_compute; reflexivity.
Qed.

(** ** The speed clamp, in exact arithmetic *)

Section SpeedClamp.
Local Open Scope R_scope.

Lemma vlength_R (v : vec3 R) :
  vlength v = sqrt (vx v * vx v + vy v * vy v + vz v * vz v).
Proof. reflexivity. Qed.

Lemma vdot_nonneg (v : vec3 R) : 0 <= vx v * vx v + vy v * vy v + vz v * vz v.
Proof. nra. Qed.

Lemma vlength_scalev (k : R) (v : vec3 R) :
  0 <= k -> vlength (scalev k v) = k * vlength v.
Proof.
  intros Hk. rewrite !vlength_R. cbn [scalev vx vy vz fmul R_scalar].
  replace (k * vx v * (k * vx v) + k * vy v * (k * vy v) + k * vz v * (k * vz v))
    with (k * k * (vx v * vx v + vy v * vy v + vz v * vz v)) by ring.
  rewrite sqrt_mult; [|nra|apply vdot_nonneg].
  by rewrite sqrt_square.
Qed.

Lemma maxSpeed_R : maxSpeed (F:=R) = 1.
Proof. reflexivity. Qed.

Lemma clampSpeed_R (v : vec3 R) : speed_clamped v (clampSpeed v).
Proof.
  unfold speed_clamped, clampSpeed, fgtb. cbn [fltb fdiv R_scalar]. unfold Rltb.
  rewrite maxSpeed_R.
  destruct (Rlt_dec 1 (vlength v)) as [Hgt|Hle].
  - assert (Hk : 0 < 1 / vlength v) by (apply Rdiv_lt_0_compat; lra).
    assert (Hlen : vlength (scalev (1 / vlength v) v) = 1).
    { rewrite vlength_scalev by lra. field. lra. }
    split_and!; [lra|done|lra].
  - split_and!; [done|lra|lra].
Qed.

End SpeedClamp.

Lemma storeClamped_spec {F : Type} {SF : Scalar F} (i : Z)
    (vel1 vel2 : list (vec3 F)) (vchange v1 : vec3 F) :
  rd vel1 i = Ok v1 -> 0 <= i < Z.of_nat (length vel2) ->
  storeClamped i vel1 vchange vel2
  = Ok (<[Z.to_nat i := clampSpeed (vadd v1 vchange)]> vel2).
Proof.
  intros Hv1 Hi. unfold storeClamped, clampSpeed. rewrite Hv1. cbn [rbind].
  rewrite wr_in_range by done. cbn [rbind].
  assert (Hrd : rd (<[Z.to_nat i := vadd v1 vchange]> vel2) i = Ok (vadd v1 vchange)).
  { apply rd_Ok. split; [lia|]. apply list_lookup_insert_eq. lia. }
  rewrite Hrd. cbn [rbind]. cbn zeta.
  destruct (fgtb (vlength (vadd v1 vchange)) maxSpeed).
  - rewrite wr_in_range by (rewrite length_insert; lia).
    by rewrite list_insert_insert_eq.
  - done.
Qed.



(** The same update in binary32, for the velocity (3, 4, 0): the stored
    vector is (0.6, 0.8, 0) up to rounding, and its computed length is 1. *)
Lemma clampSpeed_f32_example :
  clampSpeed (F:=float32) (mkvec3 (of_int 3) (of_int 4) (of_int 0))
  = mkvec3 (S754_finite false 10066330 (-24)) (S754_finite false 13421773 (-24))
           (S754_zero false) /\
  vlength (clampSpeed (F:=float32) (mkvec3 (of_int 3) (of_int 4) (of_int 0)))
  = of_int 1.
Proof. vm_compute. done. Qed.


(** ** Scattered and coherent evaluation *)

Lemma forCells_ext {S : Type} (used : list Z) (body body' : Z -> S -> result S)
    (s : S) :
  (forall gridC t, body gridC t = body' gridC t) ->
  forCells used body s = forCells used body' s.
Proof.
  intros Hext. revert s. induction used as [|g rest IH]; intros s; simpl; [done|].
  destruct (g =? -1); [done|]. rewrite Hext.
  destruct (body' g s); simpl; [apply IH|done].
Qed.

Lemma forSlots_ext {S : Type} (starts ends : list Z) (gridC : Z)
    (body body' : Z -> S -> result S) (s : S) :
  (forall i t, body i t = body' i t) ->
  forSlots starts ends gridC body s = forSlots starts ends gridC body' s.
Proof.
  intros Hext. unfold forSlots.
  destruct (rd starts gridC); simpl; [|done].
  destruct (rd ends gridC); simpl; [|done].
  apply forM_ext. intros; apply Hext.
Qed.

Section Coherence.
Context {F : Type} {SF : Scalar F}.

Variables (pai : list Z) (pos vel posC velC : list (vec3 F)).
Variables (slot iSelf : Z).
Hypothesis Hpos : gathered pai pos posC.
Hypothesis Hvel : gathered pai vel velC.
Hypothesis Hslot : rd pai slot = Ok iSelf.
Hypothesis Hinj : forall i, rd pai i = Ok iSelf -> i = slot.

Lemma gathered_self : rd posC slot = rd pos iSelf.
Proof. by rewrite Hpos, Hslot. Qed.

Lemma rule1_step_gathered (i : Z) (acc : vec3 F * Z) :
  (if i =? slot then Ok acc else rule1_step slot posC i acc)
  = (neighbor <- rd pai i ;;
     if neighbor =? iSelf then Ok acc else rule1_step iSelf pos neighbor acc).
Proof.
  unfold rule1_step. rewrite gathered_self, Hpos.
  destruct (rd pai i) as [n|e] eqn:Hn; cbn [rbind].
  - destruct (Z.eqb_spec n iSelf) as [->|Hne].
    + rewrite (Hinj i Hn), Z.eqb_refl. done.
    + destruct (Z.eqb_spec i slot) as [->|_]; [congruence|done].
  - destruct (Z.eqb_spec i slot) as [->|_]; [congruence|done].
Qed.

Lemma rule2_step_gathered (i : Z) (c : vec3 F) :
  (if i =? slot then Ok c else rule2_step slot posC i c)
  = (neighbor <- rd pai i ;;
     if neighbor =? iSelf then Ok c else rule2_step iSelf pos neighbor c).
Proof.
  unfold rule2_step. rewrite gathered_self, Hpos.
  destruct (rd pai i) as [n|e] eqn:Hn; cbn [rbind].
  - destruct (Z.eqb_spec n iSelf) as [->|Hne].
    + rewrite (Hinj i Hn), Z.eqb_refl. done.
    + destruct (Z.eqb_spec i slot) as [->|_]; [congruence|done].
  - destruct (Z.eqb_spec i slot) as [->|_]; [congruence|done].
Qed.

Lemma rule3_step_gathered (i : Z) (acc : vec3 F * Z) :
  (if i =? slot then Ok acc else rule3_step slot posC velC i acc)
  = (neighbor <- rd pai i ;;
     if neighbor =? iSelf then Ok acc else rule3_step iSelf pos vel neighbor acc).
Proof.
  unfold rule3_step. rewrite gathered_self, Hpos, Hvel.
  destruct (rd pai i) as [n|e] eqn:Hn; cbn [rbind].
  - destruct (Z.eqb_spec n iSelf) as [->|Hne].
    + rewrite (Hinj i Hn), Z.eqb_refl. done.
    + destruct (Z.eqb_spec i slot) as [->|_]; [congruence|done].
  - destruct (Z.eqb_spec i slot) as [->|_]; [congruence|done].
Qed.

Lemma findGridCells_gathered (gridResolution : Z) (gridMin : vec3 F)
    (inverseCellWidth cellWidth : F) (starts : list Z) :
  findGridCells slot gridResolution gridMin inverseCellWidth cellWidth starts posC
  = findGridCells iSelf gridResolution gridMin inverseCellWidth cellWidth starts pos.
Proof. unfold findGridCells. by rewrite gathered_self. Qed.

Lemma rule1_gathered (starts ends used : list Z) (scale : F) :
  rule1Coherent slot starts ends posC used scale
  = rule1Scatter iSelf starts ends pai pos used scale.
Proof.
  unfold rule1Coherent, rule1Scatter, rule1Coherent_scan, rule1Scatter_scan,
    rule1_finish.
  rewrite gathered_self. f_equal.
  apply forCells_ext. intros gridC t. apply forSlots_ext. intros i u.
  apply rule1_step_gathered.
Qed.

Lemma rule2_gathered (starts ends used : list Z) (scale : F) :
  rule2Coherent slot starts ends posC used scale
  = rule2Scatter iSelf starts ends pai pos used scale.
Proof.
  unfold rule2Coherent, rule2Scatter. f_equal.
  apply forCells_ext. intros gridC t. apply forSlots_ext. intros i u.
  apply rule2_step_gathered.
Qed.

Lemma rule3_gathered (starts ends used : list Z) (scale : F) :
  rule3Coherent slot starts ends posC velC used scale
  = rule3Scatter iSelf starts ends pai pos vel used scale.
Proof.
  unfold rule3Coherent, rule3Scatter, rule3Coherent_scan, rule3Scatter_scan.
  f_equal.
  apply forCells_ext. intros gridC t. apply forSlots_ext. intros i u.
  apply rule3_step_gathered.
Qed.

Lemma computeVelocityChange_gathered (starts ends used : list Z) :
  computeVelocityChangeCoherent slot starts ends posC velC used
  = computeVelocityChangeScattered iSelf starts ends pai pos vel used.
Proof.
  unfold computeVelocityChangeCoherent, computeVelocityChangeScattered.
  by rewrite rule1_gathered, rule2_gathered, rule3_gathered.
Qed.

End Coherence.

Section MakeCoherent.
Context {F : Type} {SF : Scalar F}.
Variables (N : Z) (pai : list Z) (pos vel : list (vec3 F)).
Hypothesis HN : 0 <= N.
Hypothesis Hpai : length pai = Z.to_nat N.
Hypothesis Hvalid : forall j, j ∈ pai -> 0 <= j < N.
Hypothesis Hpos : length pos = Z.to_nat N.
Hypothesis Hvel : length vel = Z.to_nat N.

Lemma kernMakeCoherent_prefix (to1 to2 : list (vec3 F)) (k : nat) :
  length to1 = Z.to_nat N -> length to2 = Z.to_nat N -> (k <= Z.to_nat N)%nat ->
  exists posC velC,
    forM (seqZ 0 (Z.of_nat k)) (kernMakeCoherent N pai pos vel) (to1, to2)
      = Ok (posC, velC) /\
    length posC = Z.to_nat N /\ length velC = Z.to_nat N /\
    forall (i : nat) (j : Z), (i < k)%nat -> pai !! i = Some j ->
      posC !! i = pos !! Z.to_nat j /\ velC !! i = vel !! Z.to_nat j.
Proof.
  intros Hto1 Hto2. induction k as [|k IH]; intros Hk.
  - exists to1, to2. split_and!; [done..|]. intros i j Hi. lia.
  - destruct IH as (posC & velC & Hrun & HlenP & HlenV & Hprev); [lia|].
    rewrite seqZ_S, forM_app, Hrun. cbn [rbind forM]. rewrite Z.add_0_l.
    unfold kernMakeCoherent.
    destruct (Z.leb_spec N (Z.of_nat k)); [lia|].
    destruct (lookup_lt_is_Some_2 pai k ltac:(lia)) as [j Hj].
    rewrite (rd_lookup pai k j Hj). cbn [rbind].
    assert (Hjr : 0 <= j < N) by (apply Hvalid; by eapply list_elem_of_lookup_2).
    destruct (lookup_lt_is_Some_2 pos (Z.to_nat j) ltac:(lia)) as [a Ha].
    destruct (lookup_lt_is_Some_2 vel (Z.to_nat j) ltac:(lia)) as [b Hb].
    assert (Hrda : rd pos j = Ok a) by (apply rd_Ok; split; [lia|done]).
    assert (Hrdb : rd vel j = Ok b) by (apply rd_Ok; split; [lia|done]).
    rewrite Hrda. cbn [rbind fst snd]. rewrite wr_in_range by lia. cbn [rbind].
    rewrite Hrdb. cbn [rbind]. rewrite wr_in_range by lia. cbn [rbind].
    rewrite Nat2Z.id.
    eexists _, _. split; [done|]. rewrite !length_insert. split_and!; [done..|].
    intros i j' Hi Hj'. destruct (decide (i = k)) as [->|Hne].
    + rewrite Hj in Hj'. injection Hj' as <-.
      rewrite !list_lookup_insert_eq by lia. by rewrite Ha, Hb.
    + rewrite !list_lookup_insert_ne by done. apply Hprev; [lia|done].
Qed.

Lemma launch_kernMakeCoherent (to1 to2 : list (vec3 F)) :
  length to1 = Z.to_nat N -> length to2 = Z.to_nat N ->
  exists posC velC,
    launch N (kernMakeCoherent N pai pos vel) (to1, to2) = Ok (posC, velC) /\
    gathered pai pos posC /\ gathered pai vel velC.
Proof.
  intros Hto1 Hto2.
  destruct (kernMakeCoherent_prefix to1 to2 (Z.to_nat N) Hto1 Hto2 ltac:(lia))
    as (posC & velC & Hrun & HlenP & HlenV & Hview).
  exists posC, velC. split.
  { rewrite launch_guarded; [by rewrite Z2Nat.id in Hrun|done|].
    intros i t Hi. unfold kernMakeCoherent. destruct (Z.leb_spec N i); [done|lia]. }
  assert (Hg : forall A (from to : list A),
             length from = Z.to_nat N -> length to = Z.to_nat N ->
             (forall (i : nat) (j : Z), pai !! i = Some j ->
                to !! i = from !! Z.to_nat j) ->
             gathered pai from to).
  { intros A from to Hfrom Hto Hlook i. unfold rd at 1 2.
    destruct (Z.ltb_spec i 0); [done|].
    destruct (pai !! Z.to_nat i) as [j|] eqn:Hj; cbn [rbind].
    - rewrite (Hlook _ _ Hj).
      assert (Hjr : 0 <= j < N) by (apply Hvalid; by eapply list_elem_of_lookup_2).
      unfold rd. destruct (Z.ltb_spec j 0); [lia|done].
    - apply lookup_ge_None in Hj.
      rewrite (proj2 (lookup_ge_None to (Z.to_nat i))); [done|lia]. }
  split; apply Hg; try done.
  - intros i j Hj. apply Hview; [|done]. apply lookup_lt_Some in Hj. lia.
  - intros i j Hj. apply Hview; [|done]. apply lookup_lt_Some in Hj. lia.
Qed.

End MakeCoherent.

(** After the coherence pass over an index table that is a permutation of
    [0, N), the coherent evaluation at slot [slot] and the scattered evaluation
    for particle [arrayIndex[slot]] find the same candidate cells and return
    the same velocity change, for any range tables and candidate list. *)
Lemma scattered_coherent_same {F : Type} {SF : Scalar F}
    (N : Z) (pai : list Z) (pos vel to1 to2 : list (vec3 F)) :
  0 <= N -> pai ≡ₚ seqZ 0 N ->
  length pos = Z.to_nat N -> length vel = Z.to_nat N ->
  length to1 = Z.to_nat N -> length to2 = Z.to_nat N ->
  exists posC velC,
    launch N (kernMakeCoherent N pai pos vel) (to1, to2) = Ok (posC, velC) /\
    forall slot, 0 <= slot < N ->
      exists iSelf, rd pai slot = Ok iSelf /\
        forall (gridResolution : Z) (gridMin : vec3 F)
               (inverseCellWidth cellWidth : F) (starts ends : list Z),
          findGridCells slot gridResolution gridMin inverseCellWidth cellWidth
            starts posC
          = findGridCells iSelf gridResolution gridMin inverseCellWidth cellWidth
              starts pos /\
          forall used,
            computeVelocityChangeCoherent slot starts ends posC velC used
            = computeVelocityChangeScattered iSelf starts ends pai pos vel used.
Proof.
  intros HN Hperm Hpos Hvel Hto1 Hto2.
  assert (Hlen : length pai = Z.to_nat N).
  { by rewrite Hperm, length_seqZ. }
  assert (Hvalid : forall j, j ∈ pai -> 0 <= j < N).
  { intros j. rewrite Hperm, elem_of_seqZ. lia. }
  assert (Hnodup : NoDup pai) by (rewrite Hperm; apply NoDup_seqZ).
  destruct (launch_kernMakeCoherent N pai pos vel HN Hlen Hvalid Hpos Hvel to1 to2
              Hto1 Hto2) as (posC & velC & Hrun & HgP & HgV).
  exists posC, velC. split; [done|].
  intros slot Hslot. destruct (rd_in_range pai slot) as [iSelf Hself]; [lia|].
  exists iSelf. split; [done|].
  assert (Hinj : forall i, rd pai i = Ok iSelf -> i = slot).
  { intros i Hi. apply rd_Ok in Hi as [? Hi]. apply rd_Ok in Hself as [? Hs].
    pose proof (NoDup_lookup _ _ _ _ Hnodup Hi Hs). lia. }
  intros res gmin inv cw starts ends. split.
  - by apply (findGridCells_gathered pai pos posC slot iSelf).
  - intros used. by apply (computeVelocityChange_gathered pai pos vel posC velC slot iSelf).
Qed.

(** ** Brute force against the grid *)

Lemma cell_range_validb_sound (N : Z) (keys starts ends : list Z) (c : Z) :
  cell_range_validb N keys starts ends c = true ->
  cell_range_valid N keys starts ends c.
Proof.
  unfold cell_range_validb, cell_range_valid.
  destruct (rd starts c) as [s|]; [|done]. destruct (rd ends c) as [e|]; [|done].
  intros Hb. exists s, e. split_and!; [done..|].
  destruct (bool_decide_reflect (c ∈ keys)) as [Hin|Hout].
  - right. rewrite !andb_true_iff, forallb_forall in Hb.
    rewrite Z.leb_le, Z.ltb_lt, Z.leb_le in Hb.
    destruct Hb as (((Hs & Hse) & He) & Hall).
    split_and!; [done|lia..|].
    intros i Hi. specialize (Hall i).
    rewrite <- list_elem_of_In, elem_of_seqZ in Hall. specialize (Hall ltac:(lia)).
    apply eqb_prop in Hall. symmetry in Hall.
    destruct (rd keys i) as [k|] eqn:Hk; split.
    + intros [= ->]. rewrite Z.eqb_refl, andb_true_iff, Z.leb_le, Z.ltb_lt in Hall.
      done.
    + intros Hr. destruct (Z.eqb_spec k c) as [->|]; [done|].
      rewrite andb_false_iff, Z.leb_gt, Z.ltb_ge in Hall. lia.
    + done.
    + intros Hr. rewrite andb_false_iff, Z.leb_gt, Z.ltb_ge in Hall. lia.
  - left. apply andb_true_iff in Hb as [?%Z.eqb_eq ?%Z.eqb_eq]. done.
Qed.

Lemma range_tables_validb_sound (N : Z) (keys starts ends : list Z) :
  range_tables_validb N keys starts ends = true ->
  range_tables_valid N keys starts ends.
Proof.
  unfold range_tables_validb, range_tables_valid. rewrite forallb_forall.
  intros Hall c Hc. apply cell_range_validb_sound, Hall.
  apply list_elem_of_In, elem_of_seqZ. lia.
Qed.

Lemma count_guards_division_witness :
  let pos : list (vec3 float32) := [mkvec3 (of_int 3) (of_int (-7)) (of_int 0)] in
  rule1_scan 1 0 pos = Ok (vzero, 0) /\
  rule1 1 0 pos rule1Scale = Ok vzero /\
  rule3_scan 1 0 pos pos = Ok (vzero, 0) /\
  rule3 1 0 pos pos rule3Scale = Ok vzero.
Proof.
  intros pos.
  destruct (count_guards_division 1 0 [] [] [] [] pos pos rule1Scale)
    as (_ & Hrule1 & _).
  destruct (count_guards_division 1 0 [] [] [] [] pos pos rule3Scale)
    as (_ & _ & _ & _ & Hrule3 & _).
  split_and!; [reflexivity|apply (Hrule1 vzero); reflexivity
              |reflexivity|apply (Hrule3 vzero); reflexivity].
Defined.

(** ** The sorted index pairs *)

Lemma zip_lookup_pair {A B : Type} (l1 : list A) (l2 : list B) (i : nat) (a : A) (b : B) :
  zip l1 l2 !! i = Some (a, b) <-> l1 !! i = Some a /\ l2 !! i = Some b.
Proof.
  revert l2 i. induction l1 as [|x l1 IH]; intros [|y l2] [|i]; simpl;
    try (split; [done|intros [? ?]; done]).
  - split; [by intros [= -> ->]|by intros [[= ->] [= ->]]].
  - apply IH.
Qed.

(** C6: in the grid step, once [kernComputeIndices] has filled
    [indices[i] = i] and a sort-by-key that meets its contract has permuted
    the (gridCellId, arrayIndex) arrays, the arrayIndex array is a permutation
    of [0, N) (every value [0 .. N-1] appears exactly once), the gridCellId
    keys are non-decreasing, and every array index is still paired with the
    cell id of its own particle. *)
Theorem sorted_indices_are_permutation {F : Type} {SF : Scalar F}
    (sort : list Z -> list Z -> list Z * list Z) (d : device F) :
  (forall keys vals, length keys = length vals ->
     sort_by_key_contract keys vals (sort keys vals).1 (sort keys vals).2) ->
  0 <= numObjects d -> 0 <= gridCellCount (F:=F) ->
  length (dev_pos d) = Z.to_nat (numObjects d) ->
  length (dev_particleArrayIndices d) = Z.to_nat (numObjects d) ->
  length (dev_particleGridIndices d) = Z.to_nat (numObjects d) ->
  length (dev_gridCellStartIndices d) = Z.to_nat (gridCellCount (F:=F)) ->
  length (dev_gridCellEndIndices d) = Z.to_nat (gridCellCount (F:=F)) ->
  exists arrayIndices gridIndices starts ends,
    buildSortedIndices sort d = Ok (arrayIndices, gridIndices, starts, ends) /\
    arrayIndices ≡ₚ seqZ 0 (numObjects d) /\
    NoDup arrayIndices /\
    (forall v, v ∈ arrayIndices <-> 0 <= v < numObjects d) /\
    Sorted Z.le gridIndices /\
    (forall (i : nat) (j k : Z),
       arrayIndices !! i = Some j -> gridIndices !! i = Some k ->
       exists p, dev_pos d !! Z.to_nat j = Some p /\
                 k = cellIdOf gridSideCount gridMinimum gridInverseCellWidth p).
Proof.
  intros Hsort HN Hcc Hpos Hidx Hgrid Hstarts Hends.
  unfold buildSortedIndices.
  rewrite launch_kernComputeIndices by done. cbn [rbind].
  rewrite !launch_kernResetIntBuffer by done. cbn [rbind fst snd].
  set (keys := cellIdOf gridSideCount gridMinimum gridInverseCellWidth <$> dev_pos d).
  assert (Hlen : length keys = length (seqZ 0 (numObjects d))).
  { unfold keys. by rewrite length_fmap, length_seqZ. }
  destruct (Hsort keys (seqZ 0 (numObjects d)) Hlen) as (Hlen' & Hperm & Hsorted).
  eexists _, _, _, _. split; [reflexivity|].
  assert (Hvals : (sort keys (seqZ 0 (numObjects d))).2 ≡ₚ seqZ 0 (numObjects d)).
  { rewrite <- (snd_zip (sort keys (seqZ 0 (numObjects d))).1
                        (sort keys (seqZ 0 (numObjects d))).2) by lia.
    rewrite Hperm. rewrite snd_zip; [done|lia]. }
  split_and!; [done| | |done|].
  - rewrite Hvals. apply NoDup_seqZ.
  - intros v. rewrite Hvals, elem_of_seqZ. lia.
  - intros i j k Hj Hk.
    assert (Hin : (k, j) ∈ zip keys (seqZ 0 (numObjects d))).
    { rewrite <- Hperm. apply (list_elem_of_lookup_2 _ i). by apply zip_lookup_pair. }
    apply list_elem_of_lookup in Hin as [i0 Hi0].
    apply zip_lookup_pair in Hi0 as [Hk0 Hj0].
    apply lookup_seqZ in Hj0 as [-> Hi0]. unfold keys in Hk0.
    rewrite list_lookup_fmap in Hk0.
    destruct (dev_pos d !! i0) as [p|] eqn:Hp; [|done].
    injection Hk0 as <-. exists p. split; [|done].
    by rewrite Z.add_0_l, Nat2Z.id.
Qed.

Lemma sorted_indices_are_permutation_witness :
  let d : device float32 :=
    mkdevice 3
      [mkvec3 (of_int 50) (of_int 0) (of_int 0);
       mkvec3 (of_int (-50)) (of_int 0) (of_int 0);
       mkvec3 (of_int 0) (of_int 0) (of_int 0)]
      (replicate 3 vzero) (replicate 3 vzero) [7; 7; 7] [9; 9; 9]
      (replicate 216 0) (replicate 216 0) (replicate 3 vzero) in
  exists arrayIndices gridIndices starts ends,
    buildSortedIndices sort_by_key d = Ok (arrayIndices, gridIndices, starts, ends) /\
    arrayIndices ≡ₚ seqZ 0 3 /\
    NoDup arrayIndices /\
    (forall v, v ∈ arrayIndices <-> 0 <= v < 3) /\
    Sorted Z.le gridIndices /\
    (forall (i : nat) (j k : Z),
       arrayIndices !! i = Some j -> gridIndices !! i = Some k ->
       exists p, dev_pos d !! Z.to_nat j = Some p /\
                 k = cellIdOf gridSideCount gridMinimum gridInverseCellWidth p).
Proof.
  intros d.
  apply (sorted_indices_are_permutation sort_by_key d);
    [intros keys vals _; apply sort_by_key_meets_contract
    |simpl; lia|vm_compute; discriminate
    |reflexivity|reflexivity|reflexivity|reflexivity|reflexivity].
Defined.

Lemma buildSortedIndices_example :
  buildSortedIndices sort_by_key
    (mkdevice (F:=float32) 3
       [mkvec3 (of_int 50) (of_int 0) (of_int 0);
        mkvec3 (of_int (-50)) (of_int 0) (of_int 0);
        mkvec3 (of_int 0) (of_int 0) (of_int 0)]
       (replicate 3 vzero) (replicate 3 vzero) [7; 7; 7] [9; 9; 9]
       (replicate 216 0) (replicate 216 0) (replicate 3 vzero))
  = Ok ([1; 2; 0], [127; 129; 130], replicate 216 (-1), replicate 216 (-1)).
Proof. vm_compute. reflexivity. Qed.

(** ** Brute force and grid scans visit the same neighbours *)

Lemma rbind_ret {A : Type} (c : result A) : (a <- c ;; Ok a) = c.
Proof. by destruct c. Qed.

Lemma rbind_assoc {A B C : Type} (c : result A) (k : A -> result B)
    (h : B -> result C) :
  (b <- (a <- c ;; k a) ;; h b) = (a <- c ;; b <- k a ;; h b).
Proof. by destruct c. Qed.

Lemma rd_Err {A : Type} (buf : list A) (i : Z) (e : fault) :
  rd buf i = Err e -> e = OutOfBounds.
Proof.
  unfold rd. destruct (i <? 0); [by intros [= <-]|].
  destruct (buf !! Z.to_nat i); [done|by intros [= <-]].
Qed.

Section LoopAlgebra.
Context {A S : Type}.
Implicit Types (body : A -> S -> result S) (s : S).

Lemma forM_bind {B : Type} (f : B -> list A) (l : list B) body s :
  forM (l ≫= f) body s = forM l (fun x => forM (f x) body) s.
Proof.
  revert s. induction l as [|x l IH]; intros s; csimpl; [done|].
  rewrite forM_app. destruct (forM (f x) body s); simpl; [apply IH|done].
Qed.

Lemma forM_fmap {B : Type} (g : B -> A) (l : list B) body s :
  forM (g <$> l) body s = forM l (fun x => body (g x)) s.
Proof.
  revert s. induction l as [|x l IH]; intros s; csimpl; [done|].
  destruct (body (g x) s); simpl; [apply IH|done].
Qed.

(** A loop whose iterations commute may run in any order. *)
Lemma forM_perm (l l' : list A) body s :
  l ≡ₚ l' ->
  (forall x y t, (t' <- body x t ;; body y t') = (t' <- body y t ;; body x t')) ->
  forM l body s = forM l' body s.
Proof.
  intros Hperm Hcomm. revert s.
  induction Hperm as [|x l l' _ IH|x y l|l l' l'' _ IH1 _ IH2]; intros s.
  - done.
  - simpl. destruct (body x s); simpl; [apply IH|done].
  - simpl. rewrite <- !rbind_assoc. by rewrite Hcomm.
  - by rewrite IH1, IH2.
Qed.

End LoopAlgebra.

Lemma forCells_terminated {S : Type} (cells : list Z) (body : Z -> S -> result S)
    (s : S) :
  -1 ∉ cells -> forCells (cells ++ [-1]) body s = forM cells body s.
Proof.
  revert s. induction cells as [|c cells IH]; intros s Hc; simpl; [done|].
  destruct (Z.eqb_spec c (-1)) as [->|_]; [exfalso; apply Hc; by left|].
  destruct (body c s); simpl; [|done].
  apply IH. intros Hin. apply Hc. by right.
Qed.

Lemma forSlots_cellSlots {S : Type} (starts ends : list Z) (c : Z)
    (body : Z -> S -> result S) (s : S) :
  (exists first last, rd starts c = Ok first /\ rd ends c = Ok last) ->
  forSlots starts ends c body s = forM (cellSlots starts ends c) body s.
Proof.
  intros (first & last & Hf & Hl). unfold forSlots, cellSlots. by rewrite Hf, Hl.
Qed.

Section GridVersusBrute.
Variables (N : Z) (keys pai starts ends cells : list Z) (iSelf : Z).
Variable cellOf : Z -> Z.
Hypothesis Hself : 0 <= iSelf < N.
Hypothesis Hperm : pai ≡ₚ seqZ 0 N.
Hypothesis Hkeys : forall i j, rd pai i = Ok j -> rd keys i = Ok (cellOf j).
Hypothesis Hvalid : range_tables_valid N keys starts ends.
Hypothesis Hnodup : NoDup cells.
Hypothesis Hrange : forall c, c ∈ cells -> 0 <= c < Z.of_nat (length starts).

Lemma pai_length : length pai = Z.to_nat N.
Proof. by rewrite Hperm, length_seqZ. Qed.

Lemma pai_rd (i : Z) : 0 <= i < N -> exists j, rd pai i = Ok j /\ 0 <= j < N.
Proof.
  intros Hi. destruct (rd_in_range pai i) as [j Hj]; [rewrite pai_length; lia|].
  exists j. split; [done|]. apply rd_Ok in Hj as [_ Hj].
  apply list_elem_of_lookup_2 in Hj. rewrite Hperm, elem_of_seqZ in Hj. lia.
Qed.

Lemma pai_slot (j : Z) : 0 <= j < N -> exists i, 0 <= i < N /\ rd pai i = Ok j.
Proof.
  intros Hj. assert (Hin : j ∈ pai) by (rewrite Hperm, elem_of_seqZ; lia).
  apply list_elem_of_lookup in Hin as [k Hk].
  exists (Z.of_nat k). split; [|by apply rd_lookup].
  apply lookup_lt_Some in Hk. rewrite pai_length in Hk. lia.
Qed.

Lemma pai_inj (i i' j : Z) : rd pai i = Ok j -> rd pai i' = Ok j -> i = i'.
Proof.
  intros [? Hi]%rd_Ok [? Hi']%rd_Ok.
  assert (Hnd : NoDup pai) by (rewrite Hperm; apply NoDup_seqZ).
  pose proof (NoDup_lookup _ _ _ _ Hnd Hi Hi'). lia.
Qed.

Lemma cell_reads (c : Z) :
  c ∈ cells -> exists first last, rd starts c = Ok first /\ rd ends c = Ok last.
Proof.
  intros Hc. destruct (Hvalid c (Hrange c Hc)) as (s & e & Hs & He & _). eauto.
Qed.

Lemma cellSlots_spec (c i : Z) :
  c ∈ cells ->
  i ∈ cellSlots starts ends c <-> 0 <= i < N /\ rd keys i = Ok c.
Proof.
  intros Hc. unfold cellSlots.
  destruct (Hvalid c (Hrange c Hc))
    as (s & e & -> & -> & [(Hout & -> & ->)|(Hin & Hse & He & Hslots)]).
  - rewrite seqZ_nil by lia. split; [by intros ?%elem_of_nil|].
    intros [_ [_ Hk]%rd_Ok]. exfalso. apply Hout. by eapply list_elem_of_lookup_2.
  - rewrite elem_of_seqZ. split.
    + intros Hi. split; [lia|]. apply Hslots; lia.
    + intros [Hi Hk]. apply Hslots in Hk; lia.
Qed.

Lemma visited_spec (j : Z) :
  j ∈ visited starts ends pai cells <-> 0 <= j < N /\ cellOf j ∈ cells.
Proof.
  unfold visited. rewrite list_elem_of_fmap. split.
  - intros (i & -> & (c & Hi & Hc)%list_elem_of_bind).
    apply cellSlots_spec in Hi as [Hi Hk]; [|done].
    destruct (pai_rd i Hi) as (j & Hj & Hjr). unfold slotParticle. rewrite Hj.
    split; [done|]. rewrite (Hkeys i j Hj) in Hk. by injection Hk as ->.
  - intros [Hj Hc]. destruct (pai_slot j Hj) as (i & Hi & Hij).
    exists i. split; [unfold slotParticle; by rewrite Hij|].
    apply list_elem_of_bind. exists (cellOf j). split; [|done].
    apply cellSlots_spec; [done|]. split; [done|by apply Hkeys].
Qed.

Lemma visited_NoDup : NoDup (visited starts ends pai cells).
Proof.
  unfold visited. apply NoDup_fmap_2_strong.
  - intros i i' (c & Hi & Hc)%list_elem_of_bind (c' & Hi' & Hc')%list_elem_of_bind.
    apply cellSlots_spec in Hi as [Hi _]; [|done].
    apply cellSlots_spec in Hi' as [Hi' _]; [|done].
    destruct (pai_rd i Hi) as (j & Hj & _), (pai_rd i' Hi') as (j' & Hj' & _).
    unfold slotParticle. rewrite Hj, Hj'. intros ->. by eapply pai_inj.
  - apply NoDup_bind; [| |done].
    + intros c c' i Hc Hc' [_ Hk]%cellSlots_spec [_ Hk']%cellSlots_spec; [|done..].
      rewrite Hk in Hk'. by injection Hk'.
    + intros c Hc. unfold cellSlots.
      destruct (rd starts c); [|constructor].
      destruct (rd ends c); [apply NoDup_seqZ|constructor].
Qed.

Lemma all_particles_split :
  seqZ 0 N ≡ₚ visited starts ends pai cells
              ++ filter (fun j => j ∉ visited starts ends pai cells) (seqZ 0 N).
Proof.
  apply NoDup_Permutation.
  - apply NoDup_seqZ.
  - apply NoDup_app. split_and!.
    + apply visited_NoDup.
    + intros j Hj [Hnot _]%list_elem_of_filter. done.
    + apply NoDup_filter, NoDup_seqZ.
  - intros j. rewrite elem_of_app, list_elem_of_filter, elem_of_seqZ.
    split.
    + intros Hj. destruct (decide (j ∈ visited starts ends pai cells)); auto.
    + intros [[Hj _]%visited_spec|[_ Hj]]; lia.
Qed.

Context {S : Type}.
Variable step : Z -> S -> result S.
Hypothesis Hcomm : forall j k t,
  (t' <- step j t ;; step k t') = (t' <- step k t ;; step j t').
Hypothesis Hfar : forall j t,
  0 <= j < N -> j <> iSelf -> cellOf j ∉ cells -> step j t = Ok t.

Lemma skipSelf_comm (j k : Z) (t : S) :
  (t' <- skipSelf iSelf step j t ;; skipSelf iSelf step k t')
  = (t' <- skipSelf iSelf step k t ;; skipSelf iSelf step j t').
Proof.
  unfold skipSelf.
  destruct (j =? iSelf), (k =? iSelf); cbn [rbind]; rewrite ?rbind_ret; auto.
Qed.

Lemma grid_scan_visited (s : S) :
  forCells (cells ++ [-1])
    (fun gridC => forSlots starts ends gridC (fun i acc =>
       neighbor <- rd pai i ;;
       if neighbor =? iSelf then Ok acc else step neighbor acc)) s
  = forM (visited starts ends pai cells) (skipSelf iSelf step) s.
Proof.
  rewrite forCells_terminated.
  2:{ intros Hin. apply Hrange in Hin. lia. }
  unfold visited. rewrite forM_fmap, forM_bind.
  apply forM_ext. intros c t Hc.
  rewrite forSlots_cellSlots by by apply cell_reads.
  apply forM_ext. intros i u Hi.
  apply cellSlots_spec in Hi as [Hi _]; [|done].
  destruct (pai_rd i Hi) as (j & Hj & _).
  unfold slotParticle, skipSelf. by rewrite Hj.
Qed.

Lemma brute_scan_all (s : S) :
  forM (seqZ 0 iSelf ++ seqZ (iSelf + 1) (N - (iSelf + 1))) step s
  = forM (seqZ 0 N) (skipSelf iSelf step) s.
Proof.
  assert (Hsplit : seqZ 0 N
                   = seqZ 0 iSelf ++ iSelf :: seqZ (iSelf + 1) (N - (iSelf + 1))).
  { replace N with (iSelf + (N - iSelf)) at 1 by lia.
    rewrite seqZ_app by lia. f_equal.
    rewrite seqZ_cons by lia. rewrite Z.add_0_l. f_equal. f_equal; lia. }
  rewrite Hsplit, !forM_app. cbn [forM].
  rewrite (forM_ext (seqZ 0 iSelf) step (skipSelf iSelf step)).
  2:{ intros j t Hj%elem_of_seqZ. unfold skipSelf.
      destruct (Z.eqb_spec j iSelf); [lia|done]. }
  destruct (forM (seqZ 0 iSelf) (skipSelf iSelf step) s) as [t|]; cbn [rbind]; [|done].
  assert (Hskip : skipSelf iSelf step iSelf t = Ok t)
    by (unfold skipSelf; by rewrite Z.eqb_refl).
  rewrite Hskip. cbn [rbind].
  apply forM_ext. intros j u Hj%elem_of_seqZ. unfold skipSelf.
  destruct (Z.eqb_spec j iSelf); [lia|done].
Qed.

(** The scattered scan over the candidate cells and the brute-force scan
    over all other particles end in the same state. *)
Lemma grid_scan_is_brute_scan (s : S) :
  forCells (cells ++ [-1])
    (fun gridC => forSlots starts ends gridC (fun i acc =>
       neighbor <- rd pai i ;;
       if neighbor =? iSelf then Ok acc else step neighbor acc)) s
  = forM (seqZ 0 iSelf ++ seqZ (iSelf + 1) (N - (iSelf + 1))) step s.
Proof.
  rewrite grid_scan_visited, brute_scan_all.
  rewrite (forM_perm _ _ _ _ all_particles_split skipSelf_comm).
  rewrite forM_app.
  destruct (forM (visited starts ends pai cells) (skipSelf iSelf step) s) as [t|];
    cbn [rbind]; [|done].
  symmetry. apply forM_skip.
  intros j u [Hnot Hj%elem_of_seqZ]%list_elem_of_filter. unfold skipSelf.
  destruct (Z.eqb_spec j iSelf); [done|].
  apply Hfar; [lia|done|]. intros Hc. apply Hnot, visited_spec. split; [lia|done].
Qed.

End GridVersusBrute.

(** ** Brute force and the grid in exact arithmetic *)

Section ExactArithmetic.

Lemma vadd_swap_R (a p q : vec3 R) : vadd (vadd a p) q = vadd (vadd a q) p.
Proof. unfold vadd; cbn [vx vy vz fadd R_scalar]. f_equal; ring. Qed.

Lemma vsub_swap_R (c x y : vec3 R) : vsub (vsub c x) y = vsub (vsub c y) x.
Proof. unfold vsub; cbn [vx vy vz fsub R_scalar]. f_equal; ring. Qed.

Ltac same_fault :=
  repeat match goal with
         | H : rd _ _ = Err ?e |- _ => apply rd_Err in H; subst e
         end.

Lemma rule1_step_comm (iSelf : Z) (pos : list (vec3 R)) (j k : Z) (t : vec3 R * Z) :
  (t' <- rule1_step iSelf pos j t ;; rule1_step iSelf pos k t')
  = (t' <- rule1_step iSelf pos k t ;; rule1_step iSelf pos j t').
Proof.
  unfold rule1_step.
  destruct (rd pos j) as [p|] eqn:Hp, (rd pos k) as [q|] eqn:Hq,
    (rd pos iSelf) as [self|] eqn:Hs; same_fault; cbn [rbind]; try done.
  - destruct (within rule1Distance p self), (within rule1Distance q self);
      cbn [rbind fst snd]; rewrite ?Hp, ?Hq, ?Hs; cbn [rbind fst snd]; try done.
    by rewrite vadd_swap_R.
  - destruct (within rule1Distance p self); cbn [rbind]; by rewrite ?Hq.
  - destruct (within rule1Distance q self); cbn [rbind]; by rewrite ?Hp.
Qed.

Lemma rule2_step_comm (iSelf : Z) (pos : list (vec3 R)) (j k : Z) (t : vec3 R) :
  (t' <- rule2_step iSelf pos j t ;; rule2_step iSelf pos k t')
  = (t' <- rule2_step iSelf pos k t ;; rule2_step iSelf pos j t').
Proof.
  unfold rule2_step.
  destruct (rd pos j) as [p|] eqn:Hp, (rd pos k) as [q|] eqn:Hq,
    (rd pos iSelf) as [self|] eqn:Hs; same_fault; cbn [rbind]; try done.
  - destruct (within rule2Distance p self), (within rule2Distance q self);
      cbn [rbind]; rewrite ?Hp, ?Hq, ?Hs; cbn [rbind]; try done.
    by rewrite vsub_swap_R.
  - destruct (within rule2Distance p self); cbn [rbind]; by rewrite ?Hq.
  - destruct (within rule2Distance q self); cbn [rbind]; by rewrite ?Hp.
Qed.

Lemma rule3_step_comm (iSelf : Z) (pos vel : list (vec3 R)) (j k : Z)
    (t : vec3 R * Z) :
  (t' <- rule3_step iSelf pos vel j t ;; rule3_step iSelf pos vel k t')
  = (t' <- rule3_step iSelf pos vel k t ;; rule3_step iSelf pos vel j t').
Proof.
  unfold rule3_step.
  destruct (rd pos j) as [p|] eqn:Hp, (rd pos k) as [q|] eqn:Hq,
    (rd pos iSelf) as [self|] eqn:Hs; same_fault; cbn [rbind]; try done.
  - destruct (within rule3Distance p self), (within rule3Distance q self);
      cbn [rbind]; rewrite ?Hp, ?Hq, ?Hs; cbn [rbind]; try done.
    + destruct (rd vel j) as [v|] eqn:Hv, (rd vel k) as [w|] eqn:Hw; same_fault;
        cbn [rbind fst snd]; rewrite ?Hp, ?Hq, ?Hs; cbn [rbind];
        rewrite ?Hv, ?Hw; cbn [rbind fst snd]; try done.
      by rewrite vadd_swap_R.
    + destruct (rd vel j) as [v|] eqn:Hv; cbn [rbind]; rewrite ?Hq, ?Hs; by cbn [rbind].
    + destruct (rd vel k) as [w|] eqn:Hw; cbn [rbind]; rewrite ?Hp, ?Hs; by cbn [rbind].
  - destruct (within rule3Distance p self); cbn [rbind]; [|by rewrite ?Hq].
    destruct (rd vel j) as [v|] eqn:Hv; same_fault; cbn [rbind]; by rewrite ?Hq.
  - destruct (within rule3Distance q self); cbn [rbind]; [|by rewrite ?Hp].
    destruct (rd vel k) as [w|] eqn:Hw; same_fault; cbn [rbind]; by rewrite ?Hp.
Qed.

End ExactArithmetic.

Lemma candidates_cover_far {F : Type} {SF : Scalar F} (iSelf gridResolution : Z)
    (gridMin : vec3 F) (inverseCellWidth : F) (pos : list (vec3 F))
    (cells : list Z) (j : Z) (p self : vec3 F) :
  candidates_cover iSelf gridResolution gridMin inverseCellWidth pos cells = true ->
  j <> iSelf -> rd pos j = Ok p -> rd pos iSelf = Ok self ->
  particleCell gridResolution gridMin inverseCellWidth pos j ∉ cells ->
  within rule1Distance p self = false /\
  within rule2Distance p self = false /\
  within rule3Distance p self = false.
Proof.
  unfold candidates_cover, particleCell. rewrite forallb_forall.
  intros Hall Hj Hp Hs Hcell. rewrite Hp in Hcell.
  assert (Hin : In j (seqZ 0 (Z.of_nat (length pos)))).
  { apply list_elem_of_In, elem_of_seqZ. apply rd_Ok in Hp as [? Hp].
    apply lookup_lt_Some in Hp. lia. }
  specialize (Hall j Hin). rewrite Hp, Hs in Hall.
  destruct (Z.eqb_spec j iSelf); [done|]. cbn [orb] in Hall.
  rewrite (bool_decide_eq_false_2 _ Hcell), orb_false_r in Hall.
  apply negb_true_iff in Hall.
  destruct (within rule1Distance p self), (within rule2Distance p self),
    (within rule3Distance p self); done.
Qed.

Section ExactAgreement.
Variables (N iSelf gridResolution : Z) (gridMin : vec3 R) (inverseCellWidth : R).
Variables (keys pai starts ends cells : list Z) (pos vel : list (vec3 R)).
Hypothesis Hself : 0 <= iSelf < N.
Hypothesis Hpos : length pos = Z.to_nat N.
Hypothesis Hperm : pai ≡ₚ seqZ 0 N.
Hypothesis Hkeys : forall i j, rd pai i = Ok j ->
  rd keys i = Ok (particleCell gridResolution gridMin inverseCellWidth pos j).
Hypothesis Hvalid : range_tables_valid N keys starts ends.
Hypothesis Hnodup : NoDup cells.
Hypothesis Hrange : forall c, c ∈ cells -> 0 <= c < Z.of_nat (length starts).
Hypothesis Hcover :
  candidates_cover iSelf gridResolution gridMin inverseCellWidth pos cells = true.

Lemma far_particle (j : Z) :
  0 <= j < N -> j <> iSelf ->
  particleCell gridResolution gridMin inverseCellWidth pos j ∉ cells ->
  exists p self, rd pos j = Ok p /\ rd pos iSelf = Ok self /\
    within rule1Distance p self = false /\
    within rule2Distance p self = false /\
    within rule3Distance p self = false.
Proof.
  intros Hj Hne Hcell.
  destruct (rd_in_range pos j) as [p Hp]; [lia|].
  destruct (rd_in_range pos iSelf) as [self Hs]; [lia|].
  exists p, self. split_and!; [done..| | |];
    by eapply (candidates_cover_far iSelf gridResolution gridMin inverseCellWidth
                 pos cells j p self).
Qed.

Lemma rule1_exact (scale : R) :
  rule1Scatter iSelf starts ends pai pos (cells ++ [-1]) scale
  = rule1 N iSelf pos scale.
Proof.
  unfold rule1Scatter, rule1Scatter_scan, rule1, rule1_scan.
  rewrite (grid_scan_is_brute_scan N keys pai starts ends cells iSelf
             (particleCell gridResolution gridMin inverseCellWidth pos)
             Hself Hperm Hkeys Hvalid Hnodup Hrange (rule1_step iSelf pos)).
  - by rewrite forM_app.
  - apply rule1_step_comm.
  - intros j t Hj Hne Hcell.
    destruct (far_particle j Hj Hne Hcell) as (p & self & Hp & Hs & Hw & _).
    unfold rule1_step. rewrite Hp, Hs. cbn [rbind]. by rewrite Hw.
Qed.

Lemma rule2_exact (scale : R) :
  rule2Scatter iSelf starts ends pai pos (cells ++ [-1]) scale
  = rule2 N iSelf pos scale.
Proof.
  unfold rule2Scatter, rule2.
  rewrite (grid_scan_is_brute_scan N keys pai starts ends cells iSelf
             (particleCell gridResolution gridMin inverseCellWidth pos)
             Hself Hperm Hkeys Hvalid Hnodup Hrange (rule2_step iSelf pos)).
  - by rewrite forM_app, rbind_assoc.
  - apply rule2_step_comm.
  - intros j t Hj Hne Hcell.
    destruct (far_particle j Hj Hne Hcell) as (p & self & Hp & Hs & _ & Hw & _).
    unfold rule2_step. rewrite Hp, Hs. cbn [rbind]. by rewrite Hw.
Qed.

Lemma rule3_exact (scale : R) :
  rule3Scatter iSelf starts ends pai pos vel (cells ++ [-1]) scale
  = rule3 N iSelf pos vel scale.
Proof.
  unfold rule3Scatter, rule3Scatter_scan, rule3, rule3_scan.
  rewrite (grid_scan_is_brute_scan N keys pai starts ends cells iSelf
             (particleCell gridResolution gridMin inverseCellWidth pos)
             Hself Hperm Hkeys Hvalid Hnodup Hrange (rule3_step iSelf pos vel)).
  - by rewrite forM_app.
  - apply rule3_step_comm.
  - intros j t Hj Hne Hcell.
    destruct (far_particle j Hj Hne Hcell) as (p & self & Hp & Hs & _ & _ & Hw).
    unfold rule3_step. rewrite Hp, Hs. cbn [rbind]. by rewrite Hw.
Qed.

Lemma computeVelocityChange_exact :
  computeVelocityChangeScattered iSelf starts ends pai pos vel (cells ++ [-1])
  = computeVelocityChange N iSelf pos vel.
Proof.
  unfold computeVelocityChangeScattered, computeVelocityChange.
  by rewrite rule1_exact, rule2_exact, rule3_exact.
Qed.

End ExactAgreement.

(** ** The three evaluations *)

Lemma index_pairs_okb_sound {F : Type} {SF : Scalar F} (gridResolution : Z)
    (gridMin : vec3 F) (inverseCellWidth : F) (pos : list (vec3 F))
    (keys pai : list Z) :
  index_pairs_okb gridResolution gridMin inverseCellWidth pos keys pai = true ->
  index_pairs_ok gridResolution gridMin inverseCellWidth pos keys pai.
Proof.
  unfold index_pairs_okb, index_pairs_ok. rewrite forallb_forall.
  intros Hall i j Hj.
  assert (Hin : In i (seqZ 0 (Z.of_nat (length pai)))).
  { apply list_elem_of_In, elem_of_seqZ. apply rd_Ok in Hj as [? Hj].
    apply lookup_lt_Some in Hj. lia. }
  specialize (Hall i Hin). rewrite Hj in Hall.
  destruct (rd keys i) as [k|]; [|done]. by apply Z.eqb_eq in Hall as ->.
Qed.

(** C2 as the code has it.  (1) In any arithmetic, binary32 included, after
    the coherence pass the coherent evaluation at a slot and the scattered
    evaluation for the particle of that slot find the same candidate cells and
    return bit-identical velocity changes.  (2) In exact arithmetic, with
    correctly built grid index, range and candidate-cell data, the scattered
    evaluation returns the same velocity change as the brute-force one: the
    two add the same neighbours, in a different order. *)
Theorem grid_evaluations_agree :
  (forall (F : Type) (SF : Scalar F) (N : Z) (pai : list Z)
          (pos vel to1 to2 : list (vec3 F)),
     0 <= N -> pai ≡ₚ seqZ 0 N ->
     length pos = Z.to_nat N -> length vel = Z.to_nat N ->
     length to1 = Z.to_nat N -> length to2 = Z.to_nat N ->
     exists posC velC,
       launch N (kernMakeCoherent N pai pos vel) (to1, to2) = Ok (posC, velC) /\
       forall slot, 0 <= slot < N ->
         exists iSelf, rd pai slot = Ok iSelf /\
           forall (gridResolution : Z) (gridMin : vec3 F)
                  (inverseCellWidth cellWidth : F) (starts ends : list Z),
             findGridCells slot gridResolution gridMin inverseCellWidth
               cellWidth starts posC
             = findGridCells iSelf gridResolution gridMin inverseCellWidth
                 cellWidth starts pos /\
             forall used,
               computeVelocityChangeCoherent slot starts ends posC velC used
               = computeVelocityChangeScattered iSelf starts ends pai pos vel
                   used) /\
  (forall (N iSelf gridResolution : Z) (gridMin : vec3 R) (inverseCellWidth : R)
          (pos vel : list (vec3 R)) (keys pai starts ends cells : list Z),
     grid_data_correct N iSelf gridResolution gridMin inverseCellWidth pos
       keys pai starts ends cells ->
     computeVelocityChangeScattered iSelf starts ends pai pos vel (cells ++ [-1])
     = computeVelocityChange N iSelf pos vel).
Proof.
  split.
  - intros F SF. apply scattered_coherent_same.
  - intros N iSelf res gmin inv pos vel keys pai starts ends cells
      (Hself & Hpos & Hperm & _ & Hkeys & Hvalid & Hnodup & Hrange & Hcover).
    by apply (computeVelocityChange_exact N iSelf res gmin inv keys pai starts
                ends cells pos vel).
Qed.

(** C2 as stated fails.  Five particles, the default grid, zero velocities:
    particle 0 at the origin has the neighbours 1 (in the cell below it in y)
    and 2, 3 (in its own cell); particle 4 is far away.  The index, range and
    candidate data come from the code's own pipeline and are correctly built.
    Brute force subtracts the offsets of 1, 2, 3 in that order, the scattered
    grid those of 2, 3, 1: in binary32 [(-1 - 2^-24) - 2^-24 = -1] but
    [(-2^-24 - 2^-24) - 1 = -(1 + 2^-23)], and the two velocity changes differ
    in the last bits of their x component. *)
Lemma brute_force_and_grid_differ :
  let tiny : float32 := S754_finite false 8388608 (-47) in
  let pos : list (vec3 float32) :=
    [mkvec3 (of_int 0) (of_int 0) (of_int 0);
     mkvec3 (of_int 1) (of_int (-1)) (of_int 0);
     mkvec3 tiny (of_int 0) (of_int 0);
     mkvec3 tiny (of_int 0) (of_int 1);
     mkvec3 (of_int 90) (of_int 90) (of_int 90)] in
  let vel : list (vec3 float32) := replicate 5 vzero in
  let keys := [123; 129; 129; 129; 215] in
  let pai := [1; 0; 2; 3; 4] in
  let cells := [129; 123] in
  launch 5 (kernComputeIndices 5 gridSideCount gridMinimum gridInverseCellWidth pos)
         (replicate 5 0, replicate 5 0)
    = Ok (seqZ 0 5, [129; 123; 129; 129; 215]) /\
  sort_by_key [129; 123; 129; 129; 215] (seqZ 0 5) = (keys, pai) /\
  exists starts ends,
    buildCellRanges 5 gridCellCount keys (replicate 216 0) (replicate 216 0)
      = Ok (starts, ends) /\
    findGridCells 0 gridSideCount gridMinimum gridInverseCellWidth gridCellWidth
      starts pos = Ok (cells ++ [-1]) /\
    grid_data_correct 5 0 gridSideCount gridMinimum gridInverseCellWidth pos
      keys pai starts ends cells /\
    computeVelocityChange 5 0 pos vel
      = Ok (mkvec3 (S754_finite true 12974381 (-27))
                   (S754_finite false 12974381 (-27))
                   (S754_finite true 12974381 (-27))) /\
    computeVelocityChangeScattered 0 starts ends pai pos vel (cells ++ [-1])
      = Ok (mkvec3 (S754_finite true 12974383 (-27))
                   (S754_finite false 12974381 (-27))
                   (S754_finite true 12974381 (-27))) /\
    computeVelocityChangeScattered 0 starts ends pai pos vel (cells ++ [-1])
      <> computeVelocityChange 5 0 pos vel.
Proof.
  intros tiny pos vel keys pai cells.
  split; [vm_compute; reflexivity|]. split; [vm_compute; reflexivity|].
  destruct (buildCellRanges 5 gridCellCount keys (replicate 216 0) (replicate 216 0))
    as [[starts ends]|] eqn:Hbuild; [|vm_compute in Hbuild; discriminate].
  exists starts, ends. split; [done|].
  vm_compute in Hbuild. injection Hbuild as <- <-.
  split; [vm_compute; reflexivity|]. split.
  { unfold grid_data_correct. split; [lia|]. split_and!.
    - reflexivity.
    - change (seqZ 0 5) with [0; 1; 2; 3; 4]. apply Permutation_swap.
    - repeat constructor; lia.
    - apply index_pairs_okb_sound. vm_compute. reflexivity.
    - apply range_tables_validb_sound. vm_compute. reflexivity.
    - apply (bool_decide_eq_true (NoDup cells)). vm_compute. reflexivity.
    - intros c Hc.
      repeat (apply elem_of_cons in Hc as [->|Hc]; [vm_compute; done|]).
      by apply elem_of_nil in Hc.
    - vm_compute. reflexivity. }
  split; [vm_compute; reflexivity|]. split; [vm_compute; reflexivity|].
  vm_compute. discriminate.
Qed.

(** Cell coordinates of integer positions, in exact arithmetic, on the grid
    with minimum corner (0,0,0) and cells of width 1. *)
Lemma Rtrunc_IZR (z : Z) : Rtrunc (IZR z) = z.
Proof.
  unfold Rtrunc. destruct (Rle_dec 0 (IZR z)) as [Hpos|Hneg].
  - symmetry. apply Int_part_spec. lra.
  - rewrite <- opp_IZR. rewrite <- (Int_part_spec (IZR (- z)) (- z)) by lra. lia.
Qed.

Lemma cellIdOf_unit_grid (gridResolution a b c : Z) :
  INT_MIN <= a <= INT_MAX -> INT_MIN <= b <= INT_MAX -> INT_MIN <= c <= INT_MAX ->
  cellIdOf gridResolution (mkvec3 0%R 0%R 0%R) 1%R (mkvec3 (IZR a) (IZR b) (IZR c))
  = gridIndex3Dto1D a b c gridResolution.
Proof.
  intros Ha Hb Hc. unfold cellIdOf, boidGrid, vscale, vsub.
  cbn [vx vy vz ix iy iz fmul fsub to_int R_scalar].
  replace ((IZR a - 0) * 1)%R with (IZR a) by ring.
  replace ((IZR b - 0) * 1)%R with (IZR b) by ring.
  replace ((IZR c - 0) * 1)%R with (IZR c) by ring.
  rewrite !Rtrunc_IZR. unfold clamp_int. f_equal; lia.
Qed.

Lemma grid_evaluations_agree_witness :
  (let tiny : float32 := S754_finite false 8388608 (-47) in
   let pos : list (vec3 float32) :=
     [mkvec3 (of_int 0) (of_int 0) (of_int 0);
      mkvec3 (of_int 1) (of_int (-1)) (of_int 0);
      mkvec3 tiny (of_int 0) (of_int 0);
      mkvec3 tiny (of_int 0) (of_int 1);
      mkvec3 (of_int 90) (of_int 90) (of_int 90)] in
   let vel : list (vec3 float32) := replicate 5 vzero in
   let pai := [1; 0; 2; 3; 4] in
   exists posC velC,
     launch 5 (kernMakeCoherent 5 pai pos vel) (replicate 5 vzero, replicate 5 vzero)
       = Ok (posC, velC) /\
     forall slot, 0 <= slot < 5 ->
       exists iSelf, rd pai slot = Ok iSelf /\
         forall (gridResolution : Z) (gridMin : vec3 float32)
                (inverseCellWidth cellWidth : float32) (starts ends : list Z),
           findGridCells slot gridResolution gridMin inverseCellWidth cellWidth
             starts posC
           = findGridCells iSelf gridResolution gridMin inverseCellWidth
               cellWidth starts pos /\
           forall used,
             computeVelocityChangeCoherent slot starts ends posC velC used
             = computeVelocityChangeScattered iSelf starts ends pai pos vel used) /\
  (let pos : list (vec3 R) := [mkvec3 0%R 0%R 0%R; mkvec3 1%R 0%R 0%R] in
   let vel : list (vec3 R) := [mkvec3 0%R 0%R 0%R; mkvec3 0%R 1%R 0%R] in
   let starts := [0; 1; -1; -1; -1; -1; -1; -1] in
   let ends := [1; 2; -1; -1; -1; -1; -1; -1] in
   computeVelocityChangeScattered 0 starts ends [0; 1] pos vel ([0; 1] ++ [-1])
   = computeVelocityChange 2 0 pos vel).
Proof.
  destruct grid_evaluations_agree as [Hcoherent Hexact]. split.
  - intros tiny pos vel pai.
    apply (Hcoherent float32 float32_scalar 5 pai pos vel (replicate 5 vzero)
             (replicate 5 vzero));
      [lia|change (seqZ 0 5) with [0; 1; 2; 3; 4]; apply Permutation_swap
      |reflexivity|reflexivity|reflexivity|reflexivity].
  - intros pos vel starts ends.
    assert (Hcell0 : cellIdOf 2 (mkvec3 0%R 0%R 0%R) 1%R (mkvec3 0%R 0%R 0%R) = 0)
      by (rewrite cellIdOf_unit_grid; [reflexivity|vm_compute; split; discriminate..]).
    assert (Hcell1 : cellIdOf 2 (mkvec3 0%R 0%R 0%R) 1%R (mkvec3 1%R 0%R 0%R) = 1)
      by (rewrite cellIdOf_unit_grid; [reflexivity|vm_compute; split; discriminate..]).
    apply (Hexact 2 0 2 (mkvec3 0%R 0%R 0%R) 1%R pos vel [0; 1] [0; 1] starts ends
             [0; 1]).
    unfold grid_data_correct. split; [lia|]. split_and!.
    + reflexivity.
    + reflexivity.
    + repeat constructor; lia.
    + intros i j [Hi Hj]%rd_Ok. unfold particleCell.
      destruct (Z.to_nat i) as [|[|n]] eqn:Hn; simpl in Hj; [| |done];
        injection Hj as <-.
      * replace i with 0 by lia. cbn [rd pos Z.ltb Z.compare Z.to_nat lookup
          list_lookup]. simpl. by rewrite Hcell0.
      * replace i with 1 by lia. simpl. by rewrite Hcell1.
    + apply range_tables_validb_sound. vm_compute. reflexivity.
    + apply (bool_decide_eq_true (NoDup [0; 1])). vm_compute. reflexivity.
    + intros c Hc.
      repeat (apply elem_of_cons in Hc as [->|Hc]; [vm_compute; done|]).
      by apply elem_of_nil in Hc.
    + unfold candidates_cover. simpl. rewrite Hcell1, andb_true_r.
      rewrite (bool_decide_eq_true_2 (1 ∈ [0; 1]));
        [apply orb_true_r|apply list_elem_of_further, list_elem_of_here].
Defined.

(** ** Range extraction on sorted keys *)

Lemma rd_wr_eq {A : Type} (buf buf' : list A) (i : Z) (a : A) :
  wr buf i a = Ok buf' -> rd buf' i = Ok a.
Proof.
  intros [Hi ->]%wr_Ok. apply rd_Ok. split; [lia|].
  apply list_lookup_insert_eq. lia.
Qed.

Lemma rd_negative {A : Type} (buf : list A) (i : Z) (a : A) :
  i < 0 -> rd buf i <> Ok a.
Proof. intros Hi [? _]%rd_Ok. lia. Qed.

Section EntryUpdates.
Variables (N : Z) (keys : list Z).

Lemma start_entry_keep (k c s : Z) :
  start_entry keys k c s -> ~ run_start keys k c -> start_entry keys (k + 1) c s.
Proof.
  intros [[-> Hnone]|[Hs Hrun]] Hk.
  - left. split; [done|]. intros i Hi.
    destruct (decide (i = k)) as [->|]; [done|]. apply Hnone. lia.
  - right. split; [lia|done].
Qed.

Lemma start_entry_new (k c : Z) :
  0 <= k -> run_start keys k c -> start_entry keys (k + 1) c k.
Proof. intros Hk Hrun. right. split; [lia|done]. Qed.

Lemma end_entry_keep (k c e : Z) :
  k < N -> end_entry N keys k c e -> ~ run_end keys k c ->
  ~ closes_last N keys (k + 1) c -> end_entry N keys (k + 1) c e.
Proof.
  intros HkN [(-> & Hnone & _)|[[He Hrun]|[_ (Heq & _)]]] Hk Hlast.
  - left. split_and!; [done| |done]. intros i Hi.
    destruct (decide (i = k)) as [->|]; [done|]. apply Hnone. lia.
  - right. left. split; [lia|done].
  - lia.
Qed.

Lemma end_entry_new (k c : Z) :
  0 < k -> run_end keys k c -> end_entry N keys (k + 1) c k.
Proof. intros Hk Hrun. right. left. split; [lia|done]. Qed.

End EntryUpdates.

Section SortedExtraction.
Variables (N cellCount : Z) (keys : list Z).
Hypothesis HN : 1 <= N.
Hypothesis Hkeys : length keys = Z.to_nat N.
Hypothesis Hsorted : Sorted Z.le keys.
Hypothesis Hrange : forall k, k ∈ keys -> 0 <= k < cellCount.

Lemma key_at (i : Z) :
  0 <= i < N -> exists k, rd keys i = Ok k /\ 0 <= k < cellCount.
Proof.
  intros Hi. destruct (rd_in_range keys i) as [k Hk]; [lia|].
  exists k. split; [done|]. apply Hrange.
  apply rd_Ok in Hk as [_ Hk]. by eapply list_elem_of_lookup_2.
Qed.

Lemma extracted_step (k : Z) (tables : list Z * list Z) :
  0 <= k < N -> extracted N cellCount keys k tables ->
  exists tables',
    kernIdentifyCellStartEnd N keys k tables = Ok tables' /\
    extracted N cellCount keys (k + 1) tables'.
Proof.
  intros Hk (Hls & Hle & Hinv). unfold kernIdentifyCellStartEnd.
  destruct (Z.leb_spec N k); [lia|].
  destruct (key_at k Hk) as (cur & Hcur & Hcr). rewrite Hcur. cbn [rbind].
  destruct (Z.eqb_spec k 0) as [->|Hnz].
  - (* slot 0 starts its cell *)
    destruct (wr tables.1 cur 0) as [starts'|] eqn:Hw;
      [|rewrite wr_in_range in Hw by lia; done].
    cbn [rbind]. eexists. split; [done|].
    split_and!; cbn [fst snd]; [by rewrite (wr_length _ _ _ _ Hw)|done|].
    intros c Hc. destruct (Hinv c Hc) as (s & e & Hs & He & Hstart & Hend).
    assert (Hnoend : ~ run_end keys 0 c).
    { intros [Hprev _]. by apply rd_negative in Hprev. }
    assert (Hnolast : ~ closes_last N keys (0 + 1) c).
    { intros (? & ? & _). lia. }
    destruct (decide (c = cur)) as [->|Hne].
    + exists 0, e. split_and!; [by eapply rd_wr_eq|done| |by apply end_entry_keep].
      apply start_entry_new; [lia|]. split; [done|by left].
    + exists s, e. split_and!; [|done| |by apply end_entry_keep].
      * by rewrite (rd_wr_ne _ _ _ _ _ Hw).
      * apply start_entry_keep; [done|]. intros [Hk0 _]. congruence.
  - destruct (key_at (k - 1) ltac:(lia)) as (prior & Hprior & Hpr).
    rewrite Hprior. cbn [rbind].
    destruct (Z.eqb_spec prior cur) as [->|Hchange].
    + (* no change: the thread returns *)
      eexists. split; [done|]. split_and!; [done..|].
      intros c Hc. destruct (Hinv c Hc) as (s & e & Hs & He & Hstart & Hend).
      assert (Hnostart : ~ run_start keys k c).
      { intros [Hkc [?|(k' & Hk' & Hne)]]; [lia|]. congruence. }
      exists s, e. split_and!; [done..|by apply start_entry_keep|].
      apply end_entry_keep; [lia|done| |].
      * intros [Hkc (k' & Hk' & Hne)]. congruence.
      * intros (Heq & _ & Hrun). apply Hnostart.
        by replace k with (N - 1) by lia.
    + (* a change: end of the prior cell, start of the current one *)
      assert (Hrunstart : run_start keys k cur).
      { split; [done|]. right. by exists prior. }
      assert (Hrunend : run_end keys k prior).
      { split; [done|]. by exists cur. }
      destruct (wr tables.2 prior k) as [ends'|] eqn:Hwe;
        [|rewrite wr_in_range in Hwe by lia; done].
      destruct (wr tables.1 cur k) as [starts'|] eqn:Hws;
        [|rewrite wr_in_range in Hws by lia; done].
      cbn [rbind].
      assert (Hstarts : forall c, 0 <= c < cellCount ->
                exists s, rd starts' c = Ok s /\ start_entry keys (k + 1) c s).
      { intros c Hc. destruct (Hinv c Hc) as (s & e & Hs & He & Hstart & Hend).
        destruct (decide (c = cur)) as [->|Hne].
        - exists k. split; [by eapply rd_wr_eq|]. apply start_entry_new; [lia|done].
        - exists s. split; [by rewrite (rd_wr_ne _ _ _ _ _ Hws)|].
          apply start_entry_keep; [done|]. intros [Hkc _]. congruence. }
      destruct (Z.eqb_spec k (N - 1)) as [->|Hnotlast].
      * (* the last slot closes its cell *)
        destruct (wr ends' cur N) as [ends''|] eqn:Hwl;
          [|rewrite wr_in_range in Hwl
              by (rewrite (wr_length _ _ _ _ Hwe); lia); done].
        cbn [rbind]. eexists. split; [done|].
        split_and!; cbn [fst snd].
        -- by rewrite (wr_length _ _ _ _ Hws).
        -- by rewrite (wr_length _ _ _ _ Hwl), (wr_length _ _ _ _ Hwe).
        -- intros c Hc. destruct (Hstarts c Hc) as (s & Hs & Hstart).
           destruct (Hinv c Hc) as (_ & e & _ & He & _ & Hend).
           replace (N - 1 + 1) with N in * by lia.
           destruct (decide (c = cur)) as [->|Hne].
           ++ exists s, N. split_and!; [done|by eapply rd_wr_eq|done|].
              right. right. split; [done|]. split_and!; [done|lia|done].
           ++ rewrite (rd_wr_ne _ _ _ _ _ Hwl) by done.
              destruct (decide (c = prior)) as [->|Hnp].
              ** exists s, (N - 1). split_and!; [done|by eapply rd_wr_eq|done|].
                 right. left. split; [lia|done].
              ** exists s, e. split_and!; [done| |done|].
                 { by rewrite (rd_wr_ne _ _ _ _ _ Hwe). }
                 replace N with (N - 1 + 1) at 2 by lia.
                 apply end_entry_keep; [lia|done| |].
                 { intros [Hkc _]. congruence. }
                 { intros (_ & _ & [Hkc _]). congruence. }
      * eexists. split; [done|].
        split_and!; cbn [fst snd].
        -- by rewrite (wr_length _ _ _ _ Hws).
        -- by rewrite (wr_length _ _ _ _ Hwe).
        -- intros c Hc. destruct (Hstarts c Hc) as (s & Hs & Hstart).
           destruct (Hinv c Hc) as (_ & e & _ & He & _ & Hend).
           destruct (decide (c = prior)) as [->|Hnp].
           ++ exists s, k. split_and!; [done|by eapply rd_wr_eq|done|].
              apply end_entry_new; [lia|done].
           ++ exists s, e. split_and!; [done| |done|].
              { by rewrite (rd_wr_ne _ _ _ _ _ Hwe). }
              apply end_entry_keep; [lia|done| |].
              { intros [Hkc _]. congruence. }
              { intros (? & _). lia. }
Qed.

End SortedExtraction.

Section SortedRuns.
Variables (N cellCount : Z) (keys : list Z).
Hypothesis HN : 1 <= N.
Hypothesis Hkeys : length keys = Z.to_nat N.
Hypothesis Hsorted : Sorted Z.le keys.
Hypothesis Hrange : forall k, k ∈ keys -> 0 <= k < cellCount.

Lemma key_in (i c : Z) : rd keys i = Ok c -> 0 <= i < N /\ c ∈ keys.
Proof.
  intros [Hi Hc]%rd_Ok. split; [|by eapply list_elem_of_lookup_2].
  apply lookup_lt_Some in Hc. lia.
Qed.

Lemma in_key (c : Z) : c ∈ keys -> exists i, 0 <= i < N /\ rd keys i = Ok c.
Proof.
  intros [n Hn]%list_elem_of_lookup. exists (Z.of_nat n).
  split; [|by apply rd_lookup]. apply lookup_lt_Some in Hn. lia.
Qed.

Lemma run_start_exists (c : Z) (j : nat) :
  rd keys (Z.of_nat j) = Ok c ->
  exists i, 0 <= i <= Z.of_nat j /\ run_start keys i c.
Proof.
  induction j as [|j IH]; intros Hj.
  - exists 0. split; [lia|]. split; [done|by left].
  - destruct (key_in _ _ Hj) as [Hjr _].
    destruct (rd_in_range keys (Z.of_nat j)) as [k Hk]; [lia|].
    destruct (decide (k = c)) as [->|Hne].
    + destruct (IH Hk) as (i & Hi & Hrun). exists i. split; [lia|done].
    + exists (Z.of_nat (S j)). split; [lia|]. split; [done|]. right.
      exists k. split; [|done]. by replace (Z.of_nat (S j) - 1) with (Z.of_nat j) by lia.
Qed.

Lemma run_end_exists (c : Z) (n : nat) (j : Z) :
  Z.of_nat n = N - 1 - j -> 0 <= j -> rd keys j = Ok c ->
  rd keys (N - 1) <> Ok c ->
  exists i, j < i < N /\ run_end keys i c.
Proof.
  revert j. induction n as [|n IH]; intros j Hn Hj Hc Hlast.
  - replace j with (N - 1) in Hc by lia. done.
  - destruct (rd_in_range keys (j + 1)) as [k Hk]; [lia|].
    destruct (decide (k = c)) as [->|Hne].
    + destruct (IH (j + 1)) as (i & Hi & Hrun); [lia|lia|done..|].
      exists i. split; [lia|done].
    + exists (j + 1). split; [lia|]. split.
      * by replace (j + 1 - 1) with j by lia.
      * by exists k.
Qed.

Lemma run_start_le (s c i : Z) :
  run_start keys s c -> rd keys i = Ok c -> s <= i.
Proof.
  intros [Hs Hfirst] Hi. destruct (key_in _ _ Hi) as [Hir _].
  destruct (Z.le_gt_cases s i) as [|Hlt]; [done|].
  destruct Hfirst as [->|(k & Hk & Hne)]; [lia|].
  pose proof (rd_sorted_le keys i (s - 1) c k Hsorted Hi Hk ltac:(lia)).
  pose proof (rd_sorted_le keys (s - 1) s k c Hsorted Hk Hs ltac:(lia)). lia.
Qed.

Lemma run_end_gt (e c i : Z) :
  run_end keys e c -> rd keys i = Ok c -> i < e.
Proof.
  intros [Hprev (k & Hk & Hne)] Hi.
  destruct (Z.lt_ge_cases i e) as [|Hge]; [done|].
  pose proof (rd_sorted_le keys (e - 1) e c k Hsorted Hprev Hk ltac:(lia)).
  pose proof (rd_sorted_le keys e i k c Hsorted Hk Hi ltac:(lia)). lia.
Qed.

Lemma run_between (s e c i : Z) :
  run_start keys s c -> rd keys (e - 1) = Ok c -> s <= i < e -> rd keys i = Ok c.
Proof.
  intros [Hs _] He Hi.
  destruct (key_in _ _ Hs) as [Hsr _], (key_in _ _ He) as [Her _].
  destruct (rd_in_range keys i) as [k Hk]; [lia|].
  pose proof (rd_sorted_le keys s i c k Hsorted Hs Hk ltac:(lia)).
  pose proof (rd_sorted_le keys i (e - 1) k c Hsorted Hk He ltac:(lia)).
  rewrite Hk. f_equal. lia.
Qed.

Lemma last_has_no_run_end (last i : Z) :
  rd keys (N - 1) = Ok last -> ~ run_end keys i last.
Proof.
  intros Hlast [Hprev (k & Hk & Hne)].
  destruct (key_in _ _ Hk) as [Hir _].
  pose proof (rd_sorted_le keys (i - 1) i last k Hsorted Hprev Hk ltac:(lia)).
  pose proof (rd_sorted_le keys i (N - 1) k last Hsorted Hk Hlast ltac:(lia)). lia.
Qed.

(** The final tables, cell by cell. *)
Lemma extracted_cell (tables : list Z * list Z) (c : Z) :
  extracted N cellCount keys N tables -> 0 <= c < cellCount ->
  exists s e, rd tables.1 c = Ok s /\ rd tables.2 c = Ok e /\
    (((c ∉ keys) /\ s = -1 /\ e = -1) \/
     ((c ∈ keys) /\ run_start keys s c /\
      ((rd keys (N - 1) <> Ok c /\ run_end keys e c /\ 0 < e < N) \/
       (rd keys (N - 1) = Ok c /\
        ((e = N /\ 2 <= N /\ run_start keys (N - 1) c) \/
         (e = -1 /\ ~ (2 <= N /\ run_start keys (N - 1) c))))))).
Proof.
  intros (_ & _ & Hinv) Hc.
  destruct (Hinv c Hc) as (s & e & Hs & He & Hstart & Hend).
  exists s, e. split_and!; [done..|].
  destruct (decide (c ∈ keys)) as [Hin|Hout].
  - right. split; [done|].
    destruct (in_key c Hin) as (j & Hj & Hjc).
    assert (Hrs : run_start keys s c).
    { destruct Hstart as [[_ Hnone]|[_ Hrun]]; [|done].
      destruct (run_start_exists c (Z.to_nat j)) as (i & Hi & Hrun);
        [by rewrite Z2Nat.id by lia|].
      exfalso. apply (Hnone i); [lia|done]. }
    split; [done|].
    destruct (rd_in_range keys (N - 1)) as [last Hlast]; [lia|].
    destruct (decide (last = c)) as [->|Hne].
    + right. split; [done|].
      destruct Hend as [(-> & _ & Hnl)|[[_ Hrun]|[-> (_ & ? & ?)]]].
      * right. split; [done|]. intros [? ?]. apply Hnl. by split_and!.
      * by apply (last_has_no_run_end c) in Hrun.
      * by left.
    + left. assert (Hlc : rd keys (N - 1) <> Ok c) by congruence.
      split; [done|].
      destruct Hend as [(_ & Hnone & _)|[[? Hrun]|[_ (_ & _ & [Hl _])]]].
      * destruct (run_end_exists c (Z.to_nat (N - 1 - j)) j) as (i & Hi & Hrun);
          [lia|lia|done..|].
        exfalso. apply (Hnone i); [lia|done].
      * done.
      * congruence.
  - left. split; [done|].
    assert (Hs1 : s = -1).
    { destruct Hstart as [[-> _]|[_ [Hk _]]]; [done|].
      by apply key_in in Hk as [_ ?]. }
    assert (He1 : e = -1).
    { destruct Hend as [(-> & _)|[[_ [Hk _]]|[_ (_ & _ & [Hk _])]]]; [done| |].
      - by apply key_in in Hk as [_ ?].
      - by apply key_in in Hk as [_ ?]. }
    done.
Qed.

End SortedRuns.

Section ExtractionRun.
Variables (N cellCount : Z) (keys : list Z).
Hypothesis HN : 1 <= N.
Hypothesis Hcc : 0 <= cellCount.
Hypothesis Hkeys : length keys = Z.to_nat N.
Hypothesis Hrange : forall k, k ∈ keys -> 0 <= k < cellCount.

Lemma extracted_init :
  extracted N cellCount keys 0
    (replicate (Z.to_nat cellCount) (-1), replicate (Z.to_nat cellCount) (-1)).
Proof.
  split_and!; cbn [fst snd]; [by rewrite length_replicate..|].
  intros c Hc. exists (-1), (-1).
  assert (Hrd : rd (replicate (Z.to_nat cellCount) (-1)) c = Ok (-1)).
  { apply rd_Ok. split; [lia|]. apply lookup_replicate_2. lia. }
  split_and!; [done..| |].
  - left. split; [done|]. intros i Hi. lia.
  - left. split_and!; [done| |].
    + intros i Hi. lia.
    + intros (? & _). lia.
Qed.

Lemma extracted_prefix (k : nat) :
  (k <= Z.to_nat N)%nat ->
  exists tables,
    forM (seqZ 0 (Z.of_nat k)) (kernIdentifyCellStartEnd N keys)
      (replicate (Z.to_nat cellCount) (-1), replicate (Z.to_nat cellCount) (-1))
      = Ok tables /\
    extracted N cellCount keys (Z.of_nat k) tables.
Proof.
  induction k as [|k IH]; intros Hk.
  - eexists. split; [done|]. apply extracted_init.
  - destruct IH as (tables & Hrun & Hinv); [lia|].
    destruct (extracted_step N cellCount keys HN Hkeys Hrange (Z.of_nat k) tables)
      as (tables' & Hstep & Hinv'); [lia|done|].
    exists tables'. rewrite seqZ_S, forM_app, Hrun. cbn [rbind forM].
    rewrite Z.add_0_l, Hstep. split; [done|].
    by replace (Z.of_nat (S k)) with (Z.of_nat k + 1) by lia.
Qed.

Lemma buildCellRanges_extracted (start0 end0 : list Z) :
  length start0 = Z.to_nat cellCount -> length end0 = Z.to_nat cellCount ->
  exists tables,
    buildCellRanges N cellCount keys start0 end0 = Ok tables /\
    extracted N cellCount keys N tables.
Proof.
  intros Hs0 He0. unfold buildCellRanges.
  rewrite !launch_kernResetIntBuffer by done. cbn [rbind].
  rewrite launch_guarded; [|lia|].
  2:{ intros i t Hi. unfold kernIdentifyCellStartEnd.
      destruct (Z.leb_spec N i); [done|lia]. }
  destruct (extracted_prefix (Z.to_nat N)) as (tables & Hrun & Hinv); [lia|].
  rewrite Z2Nat.id in Hrun, Hinv by lia. by exists tables.
Qed.

End ExtractionRun.

(** C1, what the code does instead.  For [N >= 1] sorted slots the extraction
    kernel returns tables in which every cell other than the cell of the last
    slot is as the range-table property asks (sentinels when unoccupied,
    [0 <= start < end <= N] and exactly its own slots when occupied), and the
    start of the last cell is right.  The end of the last cell is [N] only
    when the last slot differs from the slot before it; when the last slot
    repeats the one before it, or is the only slot, that end keeps the
    sentinel -1 and the property fails. *)
Theorem cell_ranges_of_sorted_keys (N cellCount : Z) (keys start0 end0 : list Z)
    (last : Z) :
  1 <= N -> length keys = Z.to_nat N -> Sorted Z.le keys ->
  (forall k, k ∈ keys -> 0 <= k < cellCount) ->
  rd keys (N - 1) = Ok last ->
  length start0 = Z.to_nat cellCount -> length end0 = Z.to_nat cellCount ->
  exists starts ends,
    buildCellRanges N cellCount keys start0 end0 = Ok (starts, ends) /\
    (forall c, 0 <= c < cellCount -> c <> last ->
       cell_range_valid N keys starts ends c) /\
    (exists s, rd starts last = Ok s /\ 0 <= s < N /\
       forall i, 0 <= i < N -> (rd keys i = Ok last <-> s <= i)) /\
    (2 <= N /\ rd keys (N - 2) <> Ok last ->
       rd ends last = Ok N /\ range_tables_valid N keys starts ends) /\
    (N = 1 \/ rd keys (N - 2) = Ok last ->
       rd ends last = Ok (-1) /\ ~ range_tables_valid N keys starts ends).
Proof.
  intros HN Hkeys Hsorted Hrange Hlast Hs0 He0.
  destruct (key_in N keys HN Hkeys (N - 1) last Hlast) as [_ Hlastin].
  pose proof (Hrange last Hlastin) as Hlr.
  destruct (buildCellRanges_extracted N cellCount keys HN ltac:(lia) Hkeys Hrange
              start0 end0 Hs0 He0) as ([starts ends] & Hrun & Hinv).
  pose proof (extracted_cell N cellCount keys HN Hkeys Hsorted (starts, ends))
    as Hcell. cbn [fst snd] in Hcell.
  assert (Hlen : length starts = Z.to_nat cellCount) by apply Hinv.
  (* the cells other than the last one *)
  assert (Hothers : forall c, 0 <= c < cellCount -> c <> last ->
            cell_range_valid N keys starts ends c).
  { intros c Hc Hne.
    destruct (Hcell c Hinv Hc)
      as (s & e & Hs & He & [(Hout & Hs1 & He1)|(Hin & Hrs & Hre)]);
      exists s, e; (split_and!; [done..|]); [by left|].
    destruct Hre as [(_ & Hre & Her)|[Hl _]]; [|congruence].
    pose proof Hrs as [Hsk _]. pose proof Hre as [Hek _].
    destruct (key_in N keys HN Hkeys s c Hsk) as [Hsr _].
    pose proof (run_end_gt N keys Hkeys Hsorted e c s Hre Hsk).
    right. split_and!; [done|lia..|].
    intros i Hi. split.
    - intros Hic. split.
      + exact (run_start_le N keys HN Hkeys Hsorted s c i Hrs Hic).
      + exact (run_end_gt N keys Hkeys Hsorted e c i Hre Hic).
    - intros Hie. by eapply (run_between N keys HN Hkeys Hsorted s e). }
  (* the last cell *)
  destruct (Hcell last Hinv Hlr)
    as (s & e & Hs & He & [(Hout & _)|(_ & Hrs & Hre)]); [done|].
  destruct Hre as [(Hnl & _)|(_ & Hre)]; [done|].
  pose proof Hrs as [Hsk _].
  destruct (key_in N keys HN Hkeys s last Hsk) as [Hsr _].
  assert (Hslots : forall i, 0 <= i < N -> (rd keys i = Ok last <-> s <= i)).
  { intros i Hi. split.
    - intros Hic. exact (run_start_le N keys HN Hkeys Hsorted s last i Hrs Hic).
    - intros Hie. eapply (run_between N keys HN Hkeys Hsorted s N); [done..|lia]. }
  exists starts, ends. split_and!; [done|done|by exists s| |].
  - intros [HN2 Hchange].
    assert (HeN : e = N).
    { destruct Hre as [(-> & _)|(-> & Hno)]; [done|]. exfalso. apply Hno.
      split; [done|]. split; [done|]. right.
      destruct (rd_in_range keys (N - 2)) as [k Hk]; [lia|].
      exists k. replace (N - 1 - 1) with (N - 2) by lia. split; [done|congruence]. }
    subst e. split; [done|].
    intros c Hc. rewrite Hlen in Hc.
    destruct (decide (c = last)) as [->|Hne]; [|apply Hothers; [lia|done]].
    exists s, N. split_and!; [done..|]. right. split_and!; [done|lia..|].
    intros i Hi. rewrite (Hslots i Hi). lia.
  - intros Hrepeat.
    assert (He1 : e = -1).
    { destruct Hre as [(-> & HN2 & [_ Hfirst])|(-> & _)]; [|done]. exfalso.
      destruct Hfirst as [?|(k & Hk & Hne)]; [lia|].
      destruct Hrepeat as [?|Hsame]; [lia|].
      replace (N - 1 - 1) with (N - 2) in Hk by lia. congruence. }
    subst e. split; [done|].
    intros Hvalid.
    destruct (Hvalid last) as (s' & e' & _ & He' & [(Hout & _)|(_ & Hse & _)]);
      [lia|done|].
    rewrite He in He'. injection He' as <-. lia.
Qed.

Lemma cell_ranges_of_sorted_keys_witness :
  exists starts ends,
    buildCellRanges 3 4 [1; 2; 2] [0; 0; 0; 0] [0; 0; 0; 0] = Ok (starts, ends) /\
    (forall c, 0 <= c < 4 -> c <> 2 -> cell_range_valid 3 [1; 2; 2] starts ends c) /\
    (exists s, rd starts 2 = Ok s /\ 0 <= s < 3 /\
       forall i, 0 <= i < 3 -> (rd [1; 2; 2] i = Ok 2 <-> s <= i)) /\
    (2 <= 3 /\ rd [1; 2; 2] (3 - 2) <> Ok 2 ->
       rd ends 2 = Ok 3 /\ range_tables_valid 3 [1; 2; 2] starts ends) /\
    (3 = 1 \/ rd [1; 2; 2] (3 - 2) = Ok 2 ->
       rd ends 2 = Ok (-1) /\ ~ range_tables_valid 3 [1; 2; 2] starts ends).
Proof.
  apply (cell_ranges_of_sorted_keys 3 4 [1; 2; 2] [0; 0; 0; 0] [0; 0; 0; 0] 2);
    [lia|reflexivity|repeat constructor; lia| |reflexivity|reflexivity|reflexivity].
  intros k Hk. repeat (apply elem_of_cons in Hk as [->|Hk]; [lia|]).
  by apply elem_of_nil in Hk.
Defined.

(** ** The seed hash *)

Section HashSteps.

Lemma wrapu32_range (z : Z) : 0 <= wrapu32 z < 2 ^ 32.
Proof. unfold wrapu32. apply Z.mod_pos_bound. lia. Qed.

Lemma lxor_mod_pow2 (a b n : Z) :
  0 <= n -> Z.lxor a b `mod` 2 ^ n = Z.lxor (a `mod` 2 ^ n) (b `mod` 2 ^ n).
Proof.
  intros Hn. apply Z.bits_inj'. intros k Hk.
  rewrite Z.lxor_spec. destruct (Z.lt_ge_cases k n).
  - by rewrite !Z.mod_pow2_bits_low, Z.lxor_spec by lia.
  - by rewrite !Z.mod_pow2_bits_high by lia.
Qed.

Lemma lxor_range (a b n : Z) :
  0 <= n -> 0 <= a < 2 ^ n -> 0 <= b < 2 ^ n -> 0 <= Z.lxor a b < 2 ^ n.
Proof.
  intros Hn Ha Hb.
  rewrite <- (Z.mod_small a (2 ^ n)), <- (Z.mod_small b (2 ^ n)) by lia.
  rewrite <- lxor_mod_pow2 by lia. apply Z.mod_pos_bound. lia.
Qed.

Lemma shiftr_range (a k : Z) : 0 <= k -> 0 <= a < 2 ^ 32 -> 0 <= Z.shiftr a k < 2 ^ 32.
Proof.
  intros Hk Ha. rewrite Z.shiftr_div_pow2 by lia. split.
  - apply Z.div_pos; lia.
  - apply Z.le_lt_trans with a; [|lia]. apply Z.div_le_upper_bound; nia.
Qed.

(** [a = (a + c) + (a << k)] multiplies by the odd number [2^k + 1]. *)
Lemma add_shl_step (a c k : Z) :
  0 <= k ->
  wrapu32 (wrapu32 (a + c) + wrapu32 (Z.shiftl a k)) = (a * (2 ^ k + 1) + c) `mod` 2 ^ 32.
Proof.
  intros Hk. unfold wrapu32. rewrite Z.shiftl_mul_pow2 by lia.
  rewrite <- Zplus_mod. f_equal. lia.
Qed.

Lemma mul_add_inj (a b c m : Z) :
  Z.gcd (2 ^ 32) m = 1 -> 0 <= a < 2 ^ 32 -> 0 <= b < 2 ^ 32 ->
  (a * m + c) `mod` 2 ^ 32 = (b * m + c) `mod` 2 ^ 32 -> a = b.
Proof.
  intros Hm Ha Hb Heq.
  assert (Hdiv : (2 ^ 32 | m * (a - b))).
  { apply Z.mod_divide; [lia|].
    replace (m * (a - b)) with ((a * m + c) - (b * m + c)) by lia.
    rewrite Zminus_mod, Heq, Z.sub_diag. done. }
  apply Z.gauss in Hdiv; [|done].
  destruct Hdiv as [q Hq]. nia.
Qed.

(** [a = (a ^ c) ^ (a >> k)] with [2 k >= 32] is undone by applying the
    shift-and-xor again. *)
Lemma xor_shr_inj (a b c k : Z) :
  16 <= k -> 0 <= a < 2 ^ 32 -> 0 <= b < 2 ^ 32 ->
  Z.lxor (Z.lxor a c) (Z.shiftr a k) = Z.lxor (Z.lxor b c) (Z.shiftr b k) -> a = b.
Proof.
  intros Hk Ha Hb Heq.
  assert (Hundo : forall x, 0 <= x < 2 ^ 32 ->
            let y := Z.lxor (Z.lxor x c) (Z.shiftr x k) in
            x = Z.lxor (Z.lxor y c) (Z.shiftr (Z.lxor y c) k)).
  { intros x Hx y. subst y. apply Z.bits_inj'. intros n Hn.
    rewrite !Z.lxor_spec, !Z.shiftr_spec, !Z.lxor_spec, !Z.shiftr_spec by lia.
    assert (Hhigh : Z.testbit x (n + k + k) = false).
    { rewrite <- (Z.mod_small x (2 ^ 32)) by lia.
      apply Z.mod_pow2_bits_high. lia. }
    rewrite Hhigh.
    destruct (Z.testbit x n), (Z.testbit c n), (Z.testbit x (n + k)),
      (Z.testbit c (n + k)); done. }
  rewrite (Hundo a Ha), (Hundo b Hb). cbn zeta. by rewrite Heq.
Qed.

(** [a = (a + c) ^ (a << 9)]: the low [j] bits of the result determine the
    low [j] bits of [a], nine more bits at a time. *)
Lemma add_xor_shl_low (a b c k j : Z) :
  0 <= k -> 9 <= j <= 32 -> j <= k + 9 ->
  Z.lxor (wrapu32 (a + c)) (wrapu32 (Z.shiftl a 9))
    = Z.lxor (wrapu32 (b + c)) (wrapu32 (Z.shiftl b 9)) ->
  a `mod` 2 ^ k = b `mod` 2 ^ k -> a `mod` 2 ^ j = b `mod` 2 ^ j.
Proof.
  intros Hk Hj Hjk Heq Hlow.
  assert (Hmm : forall x, (x `mod` 2 ^ 32) `mod` 2 ^ j = x `mod` 2 ^ j).
  { intros x. apply Z.mod_mod_divide.
    exists (2 ^ (32 - j)). rewrite <- Z.pow_add_r by lia. f_equal. lia. }
  assert (Hshift : forall x, Z.shiftl x 9 `mod` 2 ^ j = (x `mod` 2 ^ (j - 9)) * 2 ^ 9).
  { intros x. rewrite Z.shiftl_mul_pow2 by lia.
    replace (2 ^ j) with (2 ^ (j - 9) * 2 ^ 9)
      by (rewrite <- Z.pow_add_r by lia; f_equal; lia).
    apply Z.mul_mod_distr_r; lia. }
  assert (Hlow' : a `mod` 2 ^ (j - 9) = b `mod` 2 ^ (j - 9)).
  { assert (Hd : forall x, x `mod` 2 ^ (j - 9) = (x `mod` 2 ^ k) `mod` 2 ^ (j - 9)).
    { intros x. symmetry. apply Z.mod_mod_divide.
      exists (2 ^ (k - (j - 9))). rewrite <- Z.pow_add_r by lia. f_equal. lia. }
    by rewrite (Hd a), (Hd b), Hlow. }
  apply (f_equal (fun x => x `mod` 2 ^ j)) in Heq.
  rewrite !lxor_mod_pow2 in Heq by lia. unfold wrapu32 in Heq.
  rewrite !Hmm, !Hshift, Hlow' in Heq.
  apply (f_equal (fun x => Z.lxor x (b `mod` 2 ^ (j - 9) * 2 ^ 9))) in Heq.
  rewrite !Z.lxor_assoc, !Z.lxor_nilpotent, !Z.lxor_0_r in Heq.
  replace a with ((a + c) - c) by lia. replace b with ((b + c) - c) by lia.
  by rewrite Zminus_mod, Heq, <- Zminus_mod.
Qed.

Lemma add_xor_shl_inj (a b c : Z) :
  0 <= a < 2 ^ 32 -> 0 <= b < 2 ^ 32 ->
  Z.lxor (wrapu32 (a + c)) (wrapu32 (Z.shiftl a 9))
    = Z.lxor (wrapu32 (b + c)) (wrapu32 (Z.shiftl b 9)) -> a = b.
Proof.
  intros Ha Hb Heq.
  assert (H0 : a `mod` 2 ^ 0 = b `mod` 2 ^ 0) by (by rewrite !Z.mod_1_r).
  pose proof (add_xor_shl_low a b c 0 9 ltac:(lia) ltac:(lia) ltac:(lia) Heq H0) as H9.
  pose proof (add_xor_shl_low a b c 9 18 ltac:(lia) ltac:(lia) ltac:(lia) Heq H9) as H18.
  pose proof (add_xor_shl_low a b c 18 27 ltac:(lia) ltac:(lia) ltac:(lia) Heq H18) as H27.
  pose proof (add_xor_shl_low a b c 27 32 ltac:(lia) ltac:(lia) ltac:(lia) Heq H27) as H32.
  by rewrite !Z.mod_small in H32 by lia.
Qed.

End HashSteps.

(** X1: [hash] maps 32-bit words to 32-bit words, and no two words
    collide: on [unsigned int] it is a bijection. *)
Theorem hash_is_injective (a b : Z) :
  0 <= a < 2 ^ 32 -> 0 <= b < 2 ^ 32 ->
  0 <= hash a < 2 ^ 32 /\ (hash a = hash b -> a = b).
Proof.
  intros Ha Hb. unfold hash. cbn zeta.
  rewrite !add_shl_step by lia.
  assert (Hc2 : 0 <= 0xc761c23c < 2 ^ 32) by lia.
  assert (Hc6 : 0 <= 0xb55a4f09 < 2 ^ 32) by lia.
  set (a1 := (a * (2 ^ 12 + 1) + 0x7ed55d16) `mod` 2 ^ 32).
  set (b1 := (b * (2 ^ 12 + 1) + 0x7ed55d16) `mod` 2 ^ 32).
  assert (Ha1 : 0 <= a1 < 2 ^ 32) by (apply Z.mod_pos_bound; lia).
  assert (Hb1 : 0 <= b1 < 2 ^ 32) by (apply Z.mod_pos_bound; lia).
  set (a2 := Z.lxor (Z.lxor a1 0xc761c23c) (Z.shiftr a1 19)).
  set (b2 := Z.lxor (Z.lxor b1 0xc761c23c) (Z.shiftr b1 19)).
  assert (Ha2 : 0 <= a2 < 2 ^ 32)
    by (repeat apply lxor_range; try apply shiftr_range; lia).
  assert (Hb2 : 0 <= b2 < 2 ^ 32)
    by (repeat apply lxor_range; try apply shiftr_range; lia).
  set (a3 := (a2 * (2 ^ 5 + 1) + 0x165667b1) `mod` 2 ^ 32).
  set (b3 := (b2 * (2 ^ 5 + 1) + 0x165667b1) `mod` 2 ^ 32).
  assert (Ha3 : 0 <= a3 < 2 ^ 32) by (apply Z.mod_pos_bound; lia).
  assert (Hb3 : 0 <= b3 < 2 ^ 32) by (apply Z.mod_pos_bound; lia).
  set (a4 := Z.lxor (wrapu32 (a3 + 0xd3a2646c)) (wrapu32 (Z.shiftl a3 9))).
  set (b4 := Z.lxor (wrapu32 (b3 + 0xd3a2646c)) (wrapu32 (Z.shiftl b3 9))).
  assert (Ha4 : 0 <= a4 < 2 ^ 32)
    by (apply lxor_range; try apply wrapu32_range; lia).
  assert (Hb4 : 0 <= b4 < 2 ^ 32)
    by (apply lxor_range; try apply wrapu32_range; lia).
  set (a5 := (a4 * (2 ^ 3 + 1) + 0xfd7046c5) `mod` 2 ^ 32).
  set (b5 := (b4 * (2 ^ 3 + 1) + 0xfd7046c5) `mod` 2 ^ 32).
  assert (Ha5 : 0 <= a5 < 2 ^ 32) by (apply Z.mod_pos_bound; lia).
  assert (Hb5 : 0 <= b5 < 2 ^ 32) by (apply Z.mod_pos_bound; lia).
  split.
  - repeat apply lxor_range; try apply shiftr_range; lia.
  - intros H6.
    apply xor_shr_inj in H6; [|lia|done..].
    apply mul_add_inj in H6; [|by vm_compute|done..].
    apply add_xor_shl_inj in H6; [|done..].
    apply mul_add_inj in H6; [|by vm_compute|done..].
    apply xor_shr_inj in H6; [|lia|done..].
    apply mul_add_inj in H6; [|by vm_compute|done..].
    done.
Qed.

Lemma hash_is_injective_witness :
  0 <= hash 0 < 2 ^ 32 /\ (hash 0 = hash 1 -> 0 = 1).
Proof. apply (hash_is_injective 0 1); lia. Defined.

Lemma hash_values : hash 0 = 1800329511 /\ hash 1 = 3028713910.
Proof. by vm_compute. Qed.

(** ** Cell coordinates and cell indices *)

Lemma wrap32_small (z : Z) : - 2 ^ 31 <= z < 2 ^ 31 -> wrap32 z = z.
Proof. intros Hz. unfold wrap32. rewrite Z.mod_small by lia. lia. Qed.

Lemma wrap32_range (z : Z) : INT_MIN <= wrap32 z <= INT_MAX.
Proof.
  unfold wrap32, INT_MIN, INT_MAX.
  pose proof (Z.mod_pos_bound (z + 2 ^ 31) (2 ^ 32) ltac:(lia)). lia.
Qed.

(** Two's-complement results agree exactly when the exact results agree
    modulo [2^32]. *)
Lemma wrap32_eq (a b : Z) : a `mod` 2 ^ 32 = b `mod` 2 ^ 32 -> wrap32 a = wrap32 b.
Proof.
  intros Heq. unfold wrap32. f_equal.
  rewrite (Zplus_mod a), (Zplus_mod b), Heq. done.
Qed.

Lemma wrap32_mod (a : Z) : wrap32 a `mod` 2 ^ 32 = a `mod` 2 ^ 32.
Proof.
  unfold wrap32. rewrite Zminus_mod, Z.mod_mod by lia.
  rewrite <- Zminus_mod. f_equal. lia.
Qed.

Lemma wrap32_add_l (a b : Z) : wrap32 (wrap32 a + b) = wrap32 (a + b).
Proof. apply wrap32_eq. by rewrite Zplus_mod, wrap32_mod, <- Zplus_mod. Qed.

Lemma wrap32_add_r (a b : Z) : wrap32 (a + wrap32 b) = wrap32 (a + b).
Proof. apply wrap32_eq. by rewrite Zplus_mod, wrap32_mod, <- Zplus_mod. Qed.

Lemma wrap32_mul_l (a b : Z) : wrap32 (wrap32 a * b) = wrap32 (a * b).
Proof. apply wrap32_eq. by rewrite Zmult_mod, wrap32_mod, <- Zmult_mod. Qed.

(** The index is the value of [x + y*R + z*R*R], reduced to an [int]. *)
Lemma gridIndex3Dto1D_poly (x y z R : Z) :
  gridIndex3Dto1D x y z R = wrap32 (x + y * R + z * R * R).
Proof.
  unfold gridIndex3Dto1D.
  rewrite wrap32_mul_l, wrap32_add_l.
  replace (x + wrap32 (y * R) + wrap32 (z * R * R))
    with (wrap32 (z * R * R) + (x + wrap32 (y * R))) by lia.
  rewrite wrap32_add_l.
  replace (z * R * R + (x + wrap32 (y * R)))
    with (z * R * R + x + wrap32 (y * R)) by lia.
  rewrite wrap32_add_r. f_equal. lia.
Qed.

(** X2: on a grid of [R^3 <= 2^31] cells the index of an in-grid cell lies in
    [0, R^3) and the coordinates are read back from it by division: distinct
    cells of the grid have distinct indices. *)
Theorem gridIndex3Dto1D_round_trip (x y z R : Z) :
  0 <= x < R -> 0 <= y < R -> 0 <= z < R -> R * R * R <= 2 ^ 31 ->
  let i := gridIndex3Dto1D x y z R in
  0 <= i < R * R * R /\
  i `mod` R = x /\ (i `div` R) `mod` R = y /\ i `div` (R * R) = z.
Proof.
  intros Hx Hy Hz HR i. subst i. rewrite gridIndex3Dto1D_poly.
  assert (Hlt : 0 <= x + y * R + z * R * R < R * R * R) by nia.
  rewrite wrap32_small by lia.
  split; [done|].
  replace (x + y * R + z * R * R) with (x + (y + z * R) * R) by lia.
  split_and!.
  - rewrite Z.mod_add by lia. apply Z.mod_small. lia.
  - rewrite Z.div_add by lia. rewrite (Z.div_small x R) by lia.
    rewrite Z.add_0_l, Z.mod_add by lia. apply Z.mod_small. lia.
  - replace (x + (y + z * R) * R) with (x + y * R + z * (R * R)) by lia.
    rewrite Z.div_add by nia. rewrite Z.div_small by nia. lia.
Qed.

Lemma gridIndex3Dto1D_round_trip_witness :
  let i := gridIndex3Dto1D 5 2 3 6 in
  0 <= i < 6 * 6 * 6 /\
  i `mod` 6 = 5 /\ (i `div` 6) `mod` 6 = 2 /\ i `div` (6 * 6) = 3.
Proof. apply (gridIndex3Dto1D_round_trip 5 2 3 6); lia. Defined.

(** X3: a probe with a coordinate equal to the grid resolution [R] passes
    [gridInRange], and (for [R^3 + R^2 + R <= INT_MAX]) its index is the plain
    value [x + y*R + z*R*R].  With [x = R] that is the index of [(0, y+1, z)],
    which is a cell of the grid, with an index below [R^3], when [y + 1 < R]
    and [z < R].  With [y = R] it is the index of [(x, 0, z+1)], which is a
    cell of the grid when [x < R] and [z + 1 < R].  With [z = R] the index is
    at or beyond [R^3], the length of the range tables. *)
Theorem gridIndex3Dto1D_at_upper_face (x y z R : Z) :
  0 <= x <= R -> 0 <= y <= R -> 0 <= z <= R -> R * R * R + R * R + R <= INT_MAX ->
  gridInRange (make_int3 x y z) R = true /\
  gridIndex3Dto1D x y z R = x + y * R + z * R * R /\
  (x = R ->
   gridIndex3Dto1D x y z R = gridIndex3Dto1D 0 (y + 1) z R /\
   (y + 1 < R -> z < R -> 0 <= gridIndex3Dto1D x y z R < R * R * R)) /\
  (y = R ->
   gridIndex3Dto1D x y z R = gridIndex3Dto1D x 0 (z + 1) R /\
   (x < R -> z + 1 < R -> 0 <= gridIndex3Dto1D x y z R < R * R * R)) /\
  (z = R -> R * R * R <= gridIndex3Dto1D x y z R).
Proof.
  intros Hx Hy Hz HR. unfold INT_MAX in HR.
  assert (Hplain : gridIndex3Dto1D x y z R = x + y * R + z * R * R).
  { rewrite gridIndex3Dto1D_poly. apply wrap32_small. nia. }
  split_and!.
  - unfold gridInRange. cbn [ix iy iz].
    repeat (apply andb_true_intro; split); lia.
  - done.
  - intros ->. split.
    + rewrite !gridIndex3Dto1D_poly. f_equal. lia.
    + intros Hy1 Hz1. rewrite Hplain. nia.
  - intros ->. split.
    + rewrite !gridIndex3Dto1D_poly. f_equal. lia.
    + intros Hx1 Hz1. rewrite Hplain. nia.
  - intros ->. rewrite Hplain. nia.
Qed.

Lemma gridIndex3Dto1D_at_upper_face_witness :
  gridInRange (make_int3 6 2 3) 6 = true /\
  gridIndex3Dto1D 6 2 3 6 = 126 /\
  gridIndex3Dto1D 6 2 3 6 = gridIndex3Dto1D 0 (2 + 1) 3 6 /\
  0 <= gridIndex3Dto1D 6 2 3 6 < 6 * 6 * 6.
Proof.
  destruct (gridIndex3Dto1D_at_upper_face 6 2 3 6) as (Hin & Hplain & Hx & _);
    [lia|lia|lia|unfold INT_MAX; lia|].
  destruct (Hx eq_refl) as [Halias Hgrid].
  split; [exact Hin|]. split; [exact Hplain|]. split; [exact Halias|].
  apply Hgrid; lia.
Defined.

(** ** Launch geometry *)

(** X4: for [0 <= N] with [N + blockSize <= INT_MAX], where no [int] sum of
    the source expression overflows, the block count
    [(N + blockSize - 1) / blockSize] computed on [int]s is the one of the
    model; the launch of that many blocks of [blockSize] threads has a thread
    for every index below [N], and every thread index is below
    [N + blockSize]: fewer than [blockSize] threads find [index >= N]. *)
Theorem launch_covers_every_index (N : Z) :
  0 <= N -> N + blockSize <= INT_MAX ->
  wrap32 (wrap32 (N + blockSize) - 1) `quot` blockSize = fullBlocksPerGrid N /\
  N <= fullBlocksPerGrid N * blockSize < N + blockSize /\
  (forall i, 0 <= i < N -> i ∈ threadIds N) /\
  (forall i, i ∈ threadIds N -> 0 <= i < N + blockSize).
Proof.
  intros HN Hmax. unfold INT_MAX, blockSize in Hmax.
  assert (Hcount : N <= fullBlocksPerGrid N * blockSize < N + blockSize).
  { unfold fullBlocksPerGrid, blockSize. rewrite Z.quot_div_nonneg by lia.
    pose proof (Z.div_mod (N + 128 - 1) 128 ltac:(lia)).
    pose proof (Z.mod_pos_bound (N + 128 - 1) 128 ltac:(lia)). lia. }
  split_and!; [|lia..| |].
  - unfold fullBlocksPerGrid, blockSize.
    rewrite (wrap32_small (N + 128)) by lia. by rewrite wrap32_small by lia.
  - intros i Hi. unfold threadIds. apply elem_of_seqZ. lia.
  - intros i Hi. unfold threadIds in Hi. apply elem_of_seqZ in Hi. lia.
Qed.

Lemma launch_covers_every_index_witness :
  wrap32 (wrap32 (300 + blockSize) - 1) `quot` blockSize = fullBlocksPerGrid 300 /\
  300 <= fullBlocksPerGrid 300 * blockSize < 300 + blockSize /\
  (forall i, 0 <= i < 300 -> i ∈ threadIds 300) /\
  (forall i, i ∈ threadIds 300 -> 0 <= i < 300 + blockSize).
Proof. apply (launch_covers_every_index 300); [lia|unfold INT_MAX, blockSize; lia]. Defined.

(** ** Kernels that write one slot per thread *)

(** A loop whose iteration [i] replaces slot [i], as long as that slot still
    has its initial content, fills the first [k] slots in order. *)
Lemma forM_pointwise {A : Type} (f : Z -> A) (thread : Z -> list A -> result (list A))
    (buf : list A) (k : nat) :
  (forall i t, 0 <= i < Z.of_nat k -> length t = length buf ->
     t !! Z.to_nat i = buf !! Z.to_nat i ->
     thread i t = Ok (<[Z.to_nat i := f i]> t)) ->
  (k <= length buf)%nat ->
  forM (seqZ 0 (Z.of_nat k)) thread buf
  = Ok ((f <$> seqZ 0 (Z.of_nat k)) ++ drop k buf).
Proof.
  induction k as [|k IH]; intros Hthread Hk.
  - simpl. by rewrite drop_0.
  - rewrite seqZ_S, forM_app, IH; [|intros; apply Hthread; (lia || done)|lia].
    cbn [rbind forM]. rewrite Z.add_0_l.
    rewrite Hthread; [|lia| |].
    + cbn [rbind]. rewrite Nat2Z.id, fmap_app. cbn [fmap list_fmap].
      rewrite insert_at_boundary by (rewrite ?length_fmap, ?length_seqZ; lia).
      done.
    + rewrite length_app, length_fmap, length_seqZ, length_drop. lia.
    + rewrite Nat2Z.id, lookup_app_r by (rewrite length_fmap, length_seqZ; lia).
      rewrite length_fmap, length_seqZ, lookup_drop. f_equal. lia.
Qed.

Lemma launch_pointwise {A : Type} (N : Z) (f : Z -> A)
    (thread : Z -> list A -> result (list A)) (buf : list A) :
  0 <= N -> (Z.to_nat N <= length buf)%nat ->
  (forall i t, N <= i -> thread i t = Ok t) ->
  (forall i t, 0 <= i < N -> length t = length buf ->
     t !! Z.to_nat i = buf !! Z.to_nat i ->
     thread i t = Ok (<[Z.to_nat i := f i]> t)) ->
  launch N thread buf = Ok ((f <$> seqZ 0 N) ++ drop (Z.to_nat N) buf).
Proof.
  intros HN Hlen Hguard Hthread.
  rewrite launch_guarded by done.
  rewrite <- (Z2Nat.id N) at 1 2 by done.
  apply forM_pointwise; [|done].
  intros i t Hi. apply Hthread. lia.
Qed.

(** X5: [kernResetIntBuffer] launched over [N] entries sets the first [N]
    entries of the buffer to [value] and leaves the rest alone; on a buffer of
    fewer than [N] entries it writes past the end. *)
Theorem kernResetIntBuffer_launch (N value : Z) (buf : list Z) :
  0 <= N ->
  (N <= Z.of_nat (length buf) ->
   launch N (kernResetIntBuffer N value) buf
   = Ok (replicate (Z.to_nat N) value ++ drop (Z.to_nat N) buf)) /\
  (Z.of_nat (length buf) < N ->
   launch N (kernResetIntBuffer N value) buf = Err OutOfBounds).
Proof.
  intros HN.
  assert (Hguard : forall i t, N <= i -> kernResetIntBuffer N value i t = Ok t).
  { intros i t Hi. unfold kernResetIntBuffer. destruct (Z.ltb_spec i N); [lia|done]. }
  assert (Hthread : forall i t, 0 <= i < N -> i < Z.of_nat (length t) ->
            kernResetIntBuffer N value i t = Ok (<[Z.to_nat i := value]> t)).
  { intros i t Hi Hlen. unfold kernResetIntBuffer.
    destruct (Z.ltb_spec i N); [|lia]. apply wr_in_range. lia. }
  split.
  - intros Hlen.
    rewrite (launch_pointwise N (fun _ => value)); [|done|lia|done|].
    + rewrite (const_fmap _ _ value) by done. by rewrite length_seqZ.
    + intros i t Hi Ht _. apply Hthread; lia.
  - intros Hlen. unfold launch.
    destruct (threadIds_split N HN) as (extra & Hextra & ->).
    assert (Hsplit : seqZ 0 N = seqZ 0 (Z.of_nat (length buf))
                                  ++ seqZ (0 + Z.of_nat (length buf))
                                          (N - Z.of_nat (length buf))).
    { rewrite <- seqZ_app by lia. f_equal. lia. }
    rewrite Hsplit, <- !app_assoc, forM_app.
    rewrite (forM_pointwise (fun _ => value)); [|intros i t Hi Ht _; apply Hthread; lia|lia].
    cbn [rbind]. rewrite seqZ_cons by lia. cbn [app forM].
    unfold kernResetIntBuffer at 1.
    destruct (Z.ltb_spec (0 + Z.of_nat (length buf)) N); [|lia].
    unfold wr. rewrite length_app, length_fmap, length_seqZ, length_drop.
    destruct (Z.ltb_spec (0 + Z.of_nat (length buf)) 0); [done|].
    destruct (Z.leb_spec
      (Z.of_nat (Z.to_nat (Z.of_nat (length buf)) + (length buf - length buf)))
      (0 + Z.of_nat (length buf))); [done|lia].
Qed.

Lemma kernResetIntBuffer_launch_witness :
  (3 <= Z.of_nat (length [7; 8; 9; 10]) ->
   launch 3 (kernResetIntBuffer 3 (-1)) [7; 8; 9; 10]
   = Ok (replicate (Z.to_nat 3) (-1) ++ drop (Z.to_nat 3) [7; 8; 9; 10])) /\
  (Z.of_nat (length [7; 8; 9; 10]) < 3 ->
   launch 3 (kernResetIntBuffer 3 (-1)) [7; 8; 9; 10] = Err OutOfBounds).
Proof. apply (kernResetIntBuffer_launch 3 (-1) [7; 8; 9; 10]). lia. Defined.

(** ** The brute-force step *)

Section BruteForceTotal.
Context {F : Type} {SF : Scalar F}.
Variables (N : Z) (pos vel : list (vec3 F)).
Hypothesis Hpos : length pos = Z.to_nat N.
Hypothesis Hvel : length vel = Z.to_nat N.

Lemma rule1_step_returns iSelf j acc :
  0 <= iSelf < N -> 0 <= j < N -> exists acc', rule1_step iSelf pos j acc = Ok acc'.
Proof.
  intros Hi Hj. unfold rule1_step.
  destruct (rd_in_range pos j) as [p ->]; [lia|].
  destruct (rd_in_range pos iSelf) as [s ->]; [lia|].
  cbn [rbind]. destruct (within _ _ _); eauto.
Qed.

Lemma rule2_step_returns iSelf j c :
  0 <= iSelf < N -> 0 <= j < N -> exists c', rule2_step iSelf pos j c = Ok c'.
Proof.
  intros Hi Hj. unfold rule2_step.
  destruct (rd_in_range pos j) as [p ->]; [lia|].
  destruct (rd_in_range pos iSelf) as [s ->]; [lia|].
  cbn [rbind]. destruct (within _ _ _); eauto.
Qed.

Lemma rule3_step_returns iSelf j acc :
  0 <= iSelf < N -> 0 <= j < N -> exists acc', rule3_step iSelf pos vel j acc = Ok acc'.
Proof.
  intros Hi Hj. unfold rule3_step.
  destruct (rd_in_range pos j) as [p ->]; [lia|].
  destruct (rd_in_range pos iSelf) as [s ->]; [lia|].
  cbn [rbind]. destruct (within _ _ _); [|eauto].
  destruct (rd_in_range vel j) as [v ->]; [lia|]. cbn [rbind]. eauto.
Qed.

(** A loop over particle indices below [N] whose body returns, returns. *)
Lemma brute_loop_returns {S : Type} (step : Z -> S -> result S) (lo len : Z) (s : S) :
  0 <= lo -> lo + len <= N ->
  (forall j t, 0 <= j < N -> exists t', step j t = Ok t') ->
  exists s', forM (seqZ lo len) step s = Ok s'.
Proof.
  intros Hlo Hhi Hstep.
  destruct (forM_total_invariant (fun _ => True) (seqZ lo len) step s) as (s' & Hs' & _);
    [|done|by exists s'].
  intros j t Hj _. apply elem_of_seqZ in Hj.
  destruct (Hstep j t) as [t' Ht']; [lia|]. by exists t'.
Qed.

(** The brute-force velocity change reads only inside the buffers and never
    divides by a zero count. *)
Lemma computeVelocityChange_returns iSelf :
  0 <= iSelf < N -> exists v, computeVelocityChange N iSelf pos vel = Ok v.
Proof.
  intros Hi. unfold computeVelocityChange, rule1, rule1_scan, rule2, rule3, rule3_scan.
  destruct (brute_loop_returns (rule1_step iSelf pos) 0 iSelf (vzero, 0))
    as [a1 ->]; [lia..|intros; by apply rule1_step_returns|]. cbn [rbind].
  destruct (brute_loop_returns (rule1_step iSelf pos) (iSelf + 1) (N - (iSelf + 1)) a1)
    as [a2 ->]; [lia..|intros; by apply rule1_step_returns|]. cbn [rbind].
  assert (exists v1, rule1_finish iSelf pos rule1Scale a2 = Ok v1) as [v1 ->].
  { unfold rule1_finish, vdiv_count. destruct (a2.2 =? 0); [eauto|]. cbn [rbind].
    destruct (rd_in_range pos iSelf) as [s ->]; [lia|]. cbn [rbind]. eauto. }
  cbn [rbind].
  destruct (brute_loop_returns (rule2_step iSelf pos) 0 iSelf vzero)
    as [c1 ->]; [lia..|intros; by apply rule2_step_returns|]. cbn [rbind].
  destruct (brute_loop_returns (rule2_step iSelf pos) (iSelf + 1) (N - (iSelf + 1)) c1)
    as [c2 ->]; [lia..|intros; by apply rule2_step_returns|]. cbn [rbind].
  destruct (brute_loop_returns (rule3_step iSelf pos vel) 0 iSelf (vzero, 0))
    as [b1 ->]; [lia..|intros; by apply rule3_step_returns|]. cbn [rbind].
  destruct (brute_loop_returns (rule3_step iSelf pos vel) (iSelf + 1) (N - (iSelf + 1)) b1)
    as [b2 ->]; [lia..|intros; by apply rule3_step_returns|]. cbn [rbind].
  assert (exists v3, rule3_finish rule3Scale b2 = Ok v3) as [v3 ->].
  { unfold rule3_finish, fdiv_count. destruct (b2.2 =? 0); cbn [rbind]; eauto. }
  cbn [rbind]. eauto.
Qed.

End BruteForceTotal.

(** The last statements of a velocity kernel, in one step. *)
Lemma storeClamped_cases {F : Type} {SF : Scalar F} (i : Z)
    (vel1 vel2 : list (vec3 F)) (vchange : vec3 F) :
  storeClamped i vel1 vchange vel2
  = (v1 <- rd vel1 i ;; wr vel2 i (clampSpeed (vadd v1 vchange))).
Proof.
  destruct (rd vel1 i) as [v1|e] eqn:Hv1.
  - cbn [rbind].
    destruct (decide (0 <= i < Z.of_nat (length vel2))) as [Hi|Hi].
    + rewrite (storeClamped_spec i vel1 vel2 vchange v1 Hv1 Hi).
      by rewrite wr_in_range.
    + unfold storeClamped. rewrite Hv1. cbn [rbind]. unfold wr.
      destruct (Z.ltb_spec i 0); [done|].
      destruct (Z.leb_spec (Z.of_nat (length vel2)) i); [done|lia].
  - unfold storeClamped. by rewrite Hv1.
Qed.

Section NaiveKernels.
Context {F : Type} {SF : Scalar F}.
Variables (N : Z) (pos vel1 : list (vec3 F)).
Hypothesis HN : 0 <= N.
Hypothesis Hpos : length pos = Z.to_nat N.
Hypothesis Hvel1 : length vel1 = Z.to_nat N.

(** The velocity that thread [i] of the brute-force kernel stores. *)
Lemma kernUpdateVelocityBruteForce_thread (i : Z) (vel2 : list (vec3 F)) :
  0 <= i < N -> length vel2 = Z.to_nat N ->
  exists v delta,
    rd vel1 i = Ok v /\ computeVelocityChange N i pos vel1 = Ok delta /\
    kernUpdateVelocityBruteForce N pos vel1 i vel2
    = Ok (<[Z.to_nat i := clampSpeed (vadd v delta)]> vel2).
Proof.
  intros Hi Hvel2.
  destruct (computeVelocityChange_returns N pos vel1 Hpos Hvel1 i Hi) as [delta Hd].
  destruct (rd_in_range vel1 i) as [v Hv]; [lia|].
  exists v, delta. split_and!; [done..|].
  unfold kernUpdateVelocityBruteForce. destruct (Z.leb_spec N i); [lia|].
  rewrite Hd. cbn [rbind]. apply storeClamped_spec; [done|lia].
Qed.

Lemma launch_kernUpdateVelocityBruteForce (vel2 : list (vec3 F)) :
  length vel2 = Z.to_nat N ->
  exists out,
    launch N (kernUpdateVelocityBruteForce N pos vel1) vel2 = Ok out /\
    length out = Z.to_nat N /\
    forall i, 0 <= i < N ->
      exists v delta,
        rd vel1 i = Ok v /\ computeVelocityChange N i pos vel1 = Ok delta /\
        rd out i = Ok (clampSpeed (vadd v delta)).
Proof.
  intros Hvel2.
  pose (f := fun i => match rd vel1 i, computeVelocityChange N i pos vel1 with
                      | Ok v, Ok delta => clampSpeed (vadd v delta)
                      | _, _ => vzero
                      end).
  exists (f <$> seqZ 0 N). split_and!.
  - rewrite (launch_pointwise N f); [|done|lia| |].
    + by rewrite drop_ge, app_nil_r by lia.
    + intros i t Hi. unfold kernUpdateVelocityBruteForce.
      destruct (Z.leb_spec N i); [done|lia].
    + intros i t Hi Ht _.
      destruct (kernUpdateVelocityBruteForce_thread i t Hi ltac:(lia))
        as (v & delta & Hv & Hd & ->).
      unfold f. by rewrite Hv, Hd.
  - rewrite length_fmap, length_seqZ. done.
  - intros i Hi.
    destruct (kernUpdateVelocityBruteForce_thread i vel2 Hi Hvel2)
      as (v & delta & Hv & Hd & _).
    exists v, delta. split_and!; [done..|].
    apply rd_Ok. split; [lia|].
    rewrite list_lookup_fmap, lookup_seqZ_lt by lia. cbn [fmap option_fmap option_map].
    unfold f. rewrite Z.add_0_l, Z2Nat.id by lia. by rewrite Hv, Hd.
Qed.

End NaiveKernels.

Lemma launch_kernUpdatePos {F : Type} {SF : Scalar F} (N : Z) (dt : F)
    (pos vel : list (vec3 F)) :
  0 <= N -> length pos = Z.to_nat N -> length vel = Z.to_nat N ->
  launch N (kernUpdatePos N dt vel) pos = Ok (zip_with (advance dt) pos vel).
Proof.
  intros HN Hpos Hvel.
  pose (f := fun i => match rd pos i, rd vel i with
                      | Ok p, Ok v => advance dt p v
                      | _, _ => vzero
                      end).
  rewrite (launch_pointwise N f); [|done|lia| |].
  - rewrite drop_ge, app_nil_r by lia. f_equal.
    apply list_eq. intros k.
    rewrite list_lookup_fmap, lookup_zip_with.
    destruct (decide (k < Z.to_nat N)%nat) as [Hk|Hk].
    + rewrite lookup_seqZ_lt by lia. cbn [fmap option_fmap option_map].
      destruct (lookup_lt_is_Some_2 pos k ltac:(lia)) as [p Hp].
      destruct (lookup_lt_is_Some_2 vel k ltac:(lia)) as [v Hv].
      rewrite Hp, Hv. cbn [mbind option_bind]. f_equal. unfold f.
      rewrite Z.add_0_l. by rewrite (rd_lookup pos k p Hp), (rd_lookup vel k v Hv).
    + rewrite lookup_seqZ_ge by lia.
      rewrite (proj2 (lookup_ge_None pos k)) by lia. done.
  - intros i t Hi. unfold kernUpdatePos. destruct (Z.leb_spec N i); [done|lia].
  - intros i t Hi Ht Hsame.
    destruct (rd_in_range pos i) as [p Hp]; [lia|].
    destruct (rd_in_range vel i) as [v Hv]; [lia|].
    assert (Htp : rd t i = Ok p).
    { apply rd_Ok in Hp as [? Hp]. apply rd_Ok. split; [done|]. by rewrite Hsame. }
    rewrite (kernUpdatePos_thread N dt vel t i p v); [|lia|done..].
    unfold f. by rewrite Hp, Hv.
Qed.

(** X6: one brute-force tick on [N >= 1] particles with buffers of [N]
    entries never faults.  Every particle's new velocity is the clamped sum
    of its old velocity and its three-rule change computed from the old
    positions and velocities; its new position is the old one advanced by the
    new velocity and wrapped; the old velocities end up in the second
    velocity buffer; the grid buffers are not touched. *)
Theorem stepSimulationNaive_tick {F : Type} {SF : Scalar F} (dt : F) (d : device F) :
  1 <= numObjects d ->
  length (dev_pos d) = Z.to_nat (numObjects d) ->
  length (dev_vel1 d) = Z.to_nat (numObjects d) ->
  length (dev_vel2 d) = Z.to_nat (numObjects d) ->
  exists d',
    stepSimulationNaive dt d = Ok d' /\
    numObjects d' = numObjects d /\
    dev_vel2 d' = dev_vel1 d /\
    length (dev_pos d') = Z.to_nat (numObjects d) /\
    length (dev_vel1 d') = Z.to_nat (numObjects d) /\
    (dev_particleArrayIndices d', dev_particleGridIndices d',
     dev_gridCellStartIndices d', dev_gridCellEndIndices d', dev_posCopy d')
    = (dev_particleArrayIndices d, dev_particleGridIndices d,
       dev_gridCellStartIndices d, dev_gridCellEndIndices d, dev_posCopy d) /\
    forall i, 0 <= i < numObjects d ->
      exists p v delta,
        rd (dev_pos d) i = Ok p /\ rd (dev_vel1 d) i = Ok v /\
        computeVelocityChange (numObjects d) i (dev_pos d) (dev_vel1 d) = Ok delta /\
        rd (dev_vel1 d') i = Ok (clampSpeed (vadd v delta)) /\
        rd (dev_pos d') i = Ok (advance dt p (clampSpeed (vadd v delta))).
Proof.
  intros HN Hpos Hvel1 Hvel2. unfold stepSimulationNaive. cbn zeta.
  assert (HN0 : 0 <= numObjects d) by lia.
  destruct (launch_kernUpdateVelocityBruteForce (numObjects d) (dev_pos d) (dev_vel1 d)
              HN0 Hpos Hvel1 (dev_vel2 d) Hvel2) as (out & -> & Hout & Hvals).
  cbn [rbind].
  rewrite (launch_kernUpdatePos (numObjects d) dt (dev_pos d) out HN0 Hpos Hout).
  cbn [rbind]. eexists. split; [done|].
  cbn [numObjects dev_pos dev_vel1 dev_vel2 dev_particleArrayIndices
       dev_particleGridIndices dev_gridCellStartIndices dev_gridCellEndIndices
       dev_posCopy].
  split_and!; [done..| |done|done|].
  - rewrite length_zip_with. lia.
  - intros i Hi. destruct (Hvals i Hi) as (v & delta & Hv & Hd & Ho).
    destruct (rd_in_range (dev_pos d) i) as [p Hp]; [lia|].
    exists p, v, delta. split_and!; [done..|].
    apply rd_Ok. split; [lia|]. rewrite lookup_zip_with.
    apply rd_Ok in Hp as [_ ->]. apply rd_Ok in Ho as [_ ->]. done.
Qed.

Lemma stepSimulationNaive_tick_witness :
  let d : device float32 :=
    mkdevice 2
      [mkvec3 (of_int 0) (of_int 0) (of_int 0); mkvec3 (of_int 1) (of_int 0) (of_int 0)]
      (replicate 2 vzero) (replicate 2 vzero) [] [] [] [] [] in
  exists d', stepSimulationNaive (flit 1 5) d = Ok d' /\ dev_vel2 d' = dev_vel1 d.
Proof.
  intros d.
  destruct (stepSimulationNaive_tick (flit 1 5) d) as (d' & Hrun & _ & Hvel & _);
    [subst d; cbn [numObjects]; lia|reflexivity|reflexivity|reflexivity|].
  exists d'. split; [exact Hrun|exact Hvel].
Defined.

(** ** The only fault of a velocity kernel is a read or write out of bounds *)

Lemma not_div_out_of_bounds {A : Type} (c : result A) (e : fault) :
  c <> Err DivByZero -> c = Err e -> e = OutOfBounds.
Proof. intros Hc ->. destruct e; [done|]. by destruct Hc. Qed.

Lemma wr_no_div {A : Type} (buf : list A) (i : Z) (a : A) : wr buf i a <> Err DivByZero.
Proof. unfold wr. by destruct (_ || _). Qed.

Ltac no_div_step :=
  lazymatch goal with
  | |- rd _ _ <> _ => apply rd_no_div
  | |- wr _ _ _ <> _ => apply wr_no_div
  | |- rule1_step _ _ _ _ <> _ => apply rule1_step_no_div
  | |- rule3_step _ _ _ _ _ <> _ => apply rule3_step_no_div
  | |- rule1_finish _ _ _ _ <> _ => apply rule1_finish_no_div
  | |- rule3_finish _ _ <> _ => apply rule3_finish_no_div
  | |- rbind _ _ <> _ => apply rbind_no_fault; [|intros ? _]
  | |- forM _ _ _ <> _ => apply forM_no_fault; intros ? ? _
  | |- forCells _ _ _ <> _ => apply forCells_no_div; intros ? ?
  | |- forSlots _ _ _ _ _ <> _ => apply forSlots_no_div; intros ? ?
  | |- (if ?b then _ else _) <> _ => destruct b
  | |- Ok _ <> Err _ => discriminate
  end.

Ltac no_div := repeat no_div_step.

Section NoDivision.
Context {F : Type} {SF : Scalar F}.

Lemma rule2_step_no_div iSelf (pos : list (vec3 F)) i c :
  rule2_step iSelf pos i c <> Err DivByZero.
Proof. unfold rule2_step. no_div. Qed.

Lemma computeVelocityChange_no_div N iSelf (pos vel : list (vec3 F)) :
  computeVelocityChange N iSelf pos vel <> Err DivByZero.
Proof.
  unfold computeVelocityChange, rule1, rule1_scan, rule2, rule3, rule3_scan.
  no_div; apply rule2_step_no_div.
Qed.

Lemma computeVelocityChangeScattered_no_div iSelf starts ends pai
    (pos vel : list (vec3 F)) used :
  computeVelocityChangeScattered iSelf starts ends pai pos vel used <> Err DivByZero.
Proof.
  unfold computeVelocityChangeScattered, rule1Scatter, rule1Scatter_scan, rule2Scatter,
    rule3Scatter, rule3Scatter_scan.
  no_div; apply rule2_step_no_div.
Qed.

Lemma computeVelocityChangeCoherent_no_div iSelf starts ends
    (pos vel : list (vec3 F)) used :
  computeVelocityChangeCoherent iSelf starts ends pos vel used <> Err DivByZero.
Proof.
  unfold computeVelocityChangeCoherent, rule1Coherent, rule1Coherent_scan,
    rule2Coherent, rule3Coherent, rule3Coherent_scan.
  no_div; apply rule2_step_no_div.
Qed.

Lemma findGridCells_no_div iSelf gridResolution (gridMin : vec3 F)
    inverseCellWidth cellWidth starts pos :
  findGridCells iSelf gridResolution gridMin inverseCellWidth cellWidth starts pos
    <> Err DivByZero.
Proof. unfold findGridCells, probeCell. no_div. Qed.

End NoDivision.

(** ** Threads may run in any order *)

Lemma wr_wr_comm {A : Type} (t : list A) (i j : Z) (a b : A) :
  (i = j -> a = b) ->
  (t' <- wr t i a ;; wr t' j b) = (t' <- wr t j b ;; wr t' i a).
Proof.
  intros Hsame. unfold wr.
  destruct ((i <? 0) || (Z.of_nat (length t) <=? i)) eqn:Hi,
           ((j <? 0) || (Z.of_nat (length t) <=? j)) eqn:Hj;
    cbn [rbind]; rewrite ?length_insert, ?Hi, ?Hj; try done.
  destruct (decide (i = j)) as [->|Hne].
  - by rewrite (Hsame eq_refl).
  - f_equal. apply list_insert_insert_ne.
    apply orb_false_iff in Hi as [?%Z.ltb_ge _].
    apply orb_false_iff in Hj as [?%Z.ltb_ge _]. lia.
Qed.

(** Threads that each store one value, computed from data that no thread
    writes, commute: also when two of them store to the same slot, as long as
    they store the same value there. *)
Lemma scatter_threads_commute {A : Type} (body : Z -> list A -> result (list A))
    (guard : Z -> bool) (val : Z -> result (Z * A)) :
  (forall k t, body k t = if guard k then Ok t else pr <- val k ;; wr t pr.1 pr.2) ->
  (forall k e, val k = Err e -> e = OutOfBounds) ->
  (forall k k' s a b, val k = Ok (s, a) -> val k' = Ok (s, b) -> a = b) ->
  forall k k' t, (t' <- body k t ;; body k' t') = (t' <- body k' t ;; body k t').
Proof.
  intros Hbody Herr Hsame k k' t.
  rewrite (Hbody k t), (Hbody k' t).
  destruct (guard k) eqn:Hgk, (guard k') eqn:Hgk'; cbn [rbind].
  - by rewrite (Hbody k t), (Hbody k' t), Hgk, Hgk'.
  - rewrite (Hbody k' t), Hgk'.
    destruct (pr <- val k' ;; wr t pr.1 pr.2) as [u|e]; cbn [rbind]; [|done].
    by rewrite (Hbody k u), Hgk.
  - rewrite (Hbody k t), Hgk.
    destruct (pr <- val k ;; wr t pr.1 pr.2) as [u|e]; cbn [rbind]; [|done].
    by rewrite (Hbody k' u), Hgk'.
  - destruct (val k) as [[s a]|e] eqn:Hk, (val k') as [[s' b]|e'] eqn:Hk';
      cbn [rbind fst snd].
    + transitivity (u <- wr t s a ;; wr u s' b).
      { destruct (wr t s a) as [u|]; cbn [rbind]; [|done].
        by rewrite (Hbody k' u), Hgk', Hk'. }
      rewrite wr_wr_comm by (intros ->; by eapply Hsame).
      destruct (wr t s' b) as [u|]; cbn [rbind]; [|done].
      by rewrite (Hbody k u), Hgk, Hk.
    + rewrite (Herr k' e' Hk'). unfold wr.
      destruct (_ || _); cbn [rbind]; [done|].
      by rewrite (Hbody k' _), Hgk', Hk', (Herr k' e' Hk').
    + rewrite (Herr k e Hk). unfold wr.
      destruct (_ || _); cbn [rbind]; [done|].
      by rewrite (Hbody k _), Hgk, Hk, (Herr k e Hk).
    + by rewrite (Herr k e Hk), (Herr k' e' Hk').
Qed.

Section Schedules.
Context {F : Type} {SF : Scalar F}.
Variables (N gridResolution : Z) (gridMin : vec3 F) (inverseCellWidth cellWidth dt : F).
Variables (starts ends pai : list Z) (pos vel1 : list (vec3 F)).

Lemma kernUpdateVelocityBruteForce_comm (k k' : Z) (t : list (vec3 F)) :
  (t' <- kernUpdateVelocityBruteForce N pos vel1 k t ;;
   kernUpdateVelocityBruteForce N pos vel1 k' t')
  = (t' <- kernUpdateVelocityBruteForce N pos vel1 k' t ;;
     kernUpdateVelocityBruteForce N pos vel1 k t').
Proof.
  apply (scatter_threads_commute _ (fun k => N <=? k)
           (fun k => v3 <- computeVelocityChange N k pos vel1 ;;
                     v1 <- rd vel1 k ;; Ok (k, clampSpeed (vadd v1 v3)))).
  - intros i u. unfold kernUpdateVelocityBruteForce.
    destruct (N <=? i); [done|].
    destruct (computeVelocityChange N i pos vel1); cbn [rbind]; [|done].
    rewrite storeClamped_cases. by destruct (rd vel1 i).
  - intros i e. apply not_div_out_of_bounds.
    pose proof (computeVelocityChange_no_div N i pos vel1). no_div; done.
  - intros i i' s a b.
    rewrite !rbind_Ok. intros (v3 & Hv3 & Ha) (w3 & Hw3 & Hb).
    rewrite rbind_Ok in Ha, Hb. destruct Ha as (v1 & Hv1 & [= <- <-]).
    destruct Hb as (w1 & Hw1 & [= <- <-]). congruence.
Qed.

Lemma kernUpdateVelNeighborSearchScattered_comm (k k' : Z) (t : list (vec3 F)) :
  (t' <- kernUpdateVelNeighborSearchScattered N gridResolution gridMin inverseCellWidth
           cellWidth starts ends pai pos vel1 k t ;;
   kernUpdateVelNeighborSearchScattered N gridResolution gridMin inverseCellWidth
     cellWidth starts ends pai pos vel1 k' t')
  = (t' <- kernUpdateVelNeighborSearchScattered N gridResolution gridMin
             inverseCellWidth cellWidth starts ends pai pos vel1 k' t ;;
     kernUpdateVelNeighborSearchScattered N gridResolution gridMin inverseCellWidth
       cellWidth starts ends pai pos vel1 k t').
Proof.
  apply (scatter_threads_commute _ (fun k => N <=? k)
           (fun k => iSelf <- rd pai k ;;
                     used <- findGridCells iSelf gridResolution gridMin
                               inverseCellWidth cellWidth starts pos ;;
                     vchange <- computeVelocityChangeScattered iSelf starts ends pai
                                  pos vel1 used ;;
                     v1 <- rd vel1 iSelf ;;
                     Ok (iSelf, clampSpeed (vadd v1 vchange)))).
  - intros i u. unfold kernUpdateVelNeighborSearchScattered.
    destruct (N <=? i); [done|].
    destruct (rd pai i) as [iSelf|]; cbn [rbind]; [|done].
    destruct (findGridCells _ _ _ _ _ _ _) as [used|]; cbn [rbind]; [|done].
    destruct (computeVelocityChangeScattered _ _ _ _ _ _ _); cbn [rbind]; [|done].
    rewrite storeClamped_cases. by destruct (rd vel1 iSelf).
  - intros i e. apply not_div_out_of_bounds.
    no_div; first [apply findGridCells_no_div
                  |apply computeVelocityChangeScattered_no_div|done].
  - intros i i' s a b.
    rewrite !rbind_Ok. intros (j & _ & Ha) (j' & _ & Hb).
    rewrite rbind_Ok in Ha, Hb.
    destruct Ha as (used & Hused & Ha). destruct Hb as (used' & Hused' & Hb).
    rewrite rbind_Ok in Ha, Hb.
    destruct Ha as (v & Hv & Ha). destruct Hb as (v' & Hv' & Hb).
    rewrite rbind_Ok in Ha, Hb.
    destruct Ha as (v1 & Hv1 & [= -> <-]). destruct Hb as (w1 & Hw1 & [= -> <-]).
    congruence.
Qed.

Lemma kernUpdateVelNeighborSearchCoherent_comm (k k' : Z) (t : list (vec3 F)) :
  (t' <- kernUpdateVelNeighborSearchCoherent N gridResolution gridMin inverseCellWidth
           cellWidth starts ends pos vel1 k t ;;
   kernUpdateVelNeighborSearchCoherent N gridResolution gridMin inverseCellWidth
     cellWidth starts ends pos vel1 k' t')
  = (t' <- kernUpdateVelNeighborSearchCoherent N gridResolution gridMin
             inverseCellWidth cellWidth starts ends pos vel1 k' t ;;
     kernUpdateVelNeighborSearchCoherent N gridResolution gridMin inverseCellWidth
       cellWidth starts ends pos vel1 k t').
Proof.
  apply (scatter_threads_commute _ (fun k => N <=? k)
           (fun k => used <- findGridCells k gridResolution gridMin
                               inverseCellWidth cellWidth starts pos ;;
                     vchange <- computeVelocityChangeCoherent k starts ends
                                  pos vel1 used ;;
                     v1 <- rd vel1 k ;;
                     Ok (k, clampSpeed (vadd v1 vchange)))).
  - intros i u. unfold kernUpdateVelNeighborSearchCoherent.
    destruct (N <=? i); [done|].
    destruct (findGridCells _ _ _ _ _ _ _) as [used|]; cbn [rbind]; [|done].
    destruct (computeVelocityChangeCoherent _ _ _ _ _ _); cbn [rbind]; [|done].
    rewrite storeClamped_cases. by destruct (rd vel1 i).
  - intros i e. apply not_div_out_of_bounds.
    no_div; first [apply findGridCells_no_div
                  |apply computeVelocityChangeCoherent_no_div|done].
  - intros i i' s a b.
    rewrite !rbind_Ok. intros (used & Hused & Ha) (used' & Hused' & Hb).
    rewrite rbind_Ok in Ha, Hb.
    destruct Ha as (v & Hv & Ha). destruct Hb as (v' & Hv' & Hb).
    rewrite rbind_Ok in Ha, Hb.
    destruct Ha as (v1 & Hv1 & [= -> <-]). destruct Hb as (w1 & Hw1 & [= -> <-]).
    congruence.
Qed.

Lemma kernUpdatePos_comm (vel : list (vec3 F)) (k k' : Z) (t : list (vec3 F)) :
  (t' <- kernUpdatePos N dt vel k t ;; kernUpdatePos N dt vel k' t')
  = (t' <- kernUpdatePos N dt vel k' t ;; kernUpdatePos N dt vel k t').
Proof.
  destruct (decide (k = k')) as [->|Hne]; [done|].
  assert (Hbody : forall i u,
            kernUpdatePos N dt vel i u
            = if N <=? i then Ok u
              else match rd u i, rd vel i with
                   | Ok p, Ok v => Ok (<[Z.to_nat i := advance dt p v]> u)
                   | _, _ => Err OutOfBounds
                   end).
  { intros i u. unfold kernUpdatePos. destruct (N <=? i); [done|].
    destruct (rd u i) as [p|e] eqn:Hp; cbn [rbind].
    - destruct (rd vel i) as [v|e] eqn:Hv; cbn [rbind].
      + apply wr_in_range. apply rd_Ok in Hp as [? Hp]. apply lookup_lt_Some in Hp. lia.
      + by rewrite (rd_Err _ _ _ Hv).
    - by rewrite (rd_Err _ _ _ Hp). }
  assert (Hkeep : forall i j (u : list (vec3 F)) p x, i <> j -> rd u i = Ok p ->
            rd (<[Z.to_nat i := x]> u) j = rd u j).
  { intros i j u p x Hij Hp. apply (rd_wr_ne u _ i j x); [|done].
    apply wr_in_range. apply rd_Ok in Hp as [? Hp]. apply lookup_lt_Some in Hp. lia. }
  rewrite (Hbody k t), (Hbody k' t).
  destruct (N <=? k) eqn:Hgk, (N <=? k') eqn:Hgk'; cbn [rbind].
  - by rewrite (Hbody k t), (Hbody k' t), Hgk, Hgk'.
  - rewrite (Hbody k' t), Hgk'.
    destruct (rd t k'), (rd vel k'); cbn [rbind]; try done.
    by rewrite Hbody, Hgk.
  - rewrite (Hbody k t), Hgk.
    destruct (rd t k), (rd vel k); cbn [rbind]; try done.
    by rewrite Hbody, Hgk'.
  - destruct (rd t k) as [p|] eqn:Hp, (rd vel k) as [v|] eqn:Hv,
             (rd t k') as [p'|] eqn:Hp', (rd vel k') as [v'|] eqn:Hv'; cbn [rbind];
      rewrite ?Hbody, ?Hgk, ?Hgk';
      rewrite ?(Hkeep k k' t p) by done; rewrite ?(Hkeep k' k t p') by done;
      rewrite ?Hp, ?Hv, ?Hp', ?Hv'; try done.
    f_equal. apply list_insert_insert_ne.
    apply rd_Ok in Hp as [? _]. apply rd_Ok in Hp' as [? _]. lia.
Qed.

End Schedules.

(** X7: the result (or the fault) of each velocity kernel and of the position
    kernel is the same for every sequential order in which the threads of the
    launch run: a thread stores only the value of its own particle, computed
    from buffers that no thread of the launch writes. *)
Theorem velocity_kernels_schedule_independent {F : Type} {SF : Scalar F}
    (N gridResolution : Z) (gridMin : vec3 F) (inverseCellWidth cellWidth dt : F)
    (starts ends pai : list Z) (pos vel1 vel2 : list (vec3 F)) (schedule : list Z) :
  schedule ≡ₚ threadIds N ->
  forM schedule (kernUpdateVelocityBruteForce N pos vel1) vel2
    = launch N (kernUpdateVelocityBruteForce N pos vel1) vel2 /\
  forM schedule (kernUpdateVelNeighborSearchScattered N gridResolution gridMin
                   inverseCellWidth cellWidth starts ends pai pos vel1) vel2
    = launch N (kernUpdateVelNeighborSearchScattered N gridResolution gridMin
                  inverseCellWidth cellWidth starts ends pai pos vel1) vel2 /\
  forM schedule (kernUpdateVelNeighborSearchCoherent N gridResolution gridMin
                   inverseCellWidth cellWidth starts ends pos vel1) vel2
    = launch N (kernUpdateVelNeighborSearchCoherent N gridResolution gridMin
                  inverseCellWidth cellWidth starts ends pos vel1) vel2 /\
  forM schedule (kernUpdatePos N dt vel1) pos = launch N (kernUpdatePos N dt vel1) pos.
Proof.
  intros Hperm. unfold launch. split_and!; apply forM_perm; try done; intros k k' t.
  - apply kernUpdateVelocityBruteForce_comm.
  - apply kernUpdateVelNeighborSearchScattered_comm.
  - apply kernUpdateVelNeighborSearchCoherent_comm.
  - apply kernUpdatePos_comm.
Qed.

Lemma velocity_kernels_schedule_independent_witness :
  let pos : list (vec3 float32) :=
    [mkvec3 (of_int 0) (of_int 0) (of_int 0); mkvec3 (of_int 1) (of_int 0) (of_int 0)] in
  forM (reverse (threadIds 2)) (kernUpdateVelocityBruteForce 2 pos (replicate 2 vzero))
       (replicate 2 vzero)
  = launch 2 (kernUpdateVelocityBruteForce 2 pos (replicate 2 vzero)) (replicate 2 vzero).
Proof.
  intros pos.
  destruct (velocity_kernels_schedule_independent 2 6 vzero fzero fzero fzero [] [] []
              pos (replicate 2 vzero) (replicate 2 vzero) (reverse (threadIds 2)))
    as (Hbrute & _); [apply reverse_Permutation|exact Hbrute].
Defined.

(** ** Positions stay inside the scene *)

Section WrapInvariant.
Context {F : Type} {SF : Scalar F}.
Hypothesis Hhi_lo : fltb (F:=F) scene_scale (fopp scene_scale) = false.
Hypothesis Hhi_hi : fltb (F:=F) scene_scale scene_scale = false.
Hypothesis Hlo_lo : fltb (F:=F) (fopp scene_scale) (fopp scene_scale) = false.

Lemma wrapAxis_in_scene (x : F) : axisInScene (wrapAxis x) = true.
Proof.
  unfold axisInScene, wrapAxis, fgtb.
  destruct (fltb x (fopp scene_scale)) eqn:Hlo.
  - by rewrite Hhi_hi, Hhi_lo, Hhi_hi.
  - destruct (fltb scene_scale x) eqn:Hhi.
    + by rewrite Hlo_lo, Hhi_lo.
    + by rewrite Hlo, Hhi.
Qed.

Lemma wrapAxis_idempotent (x : F) : wrapAxis (wrapAxis x) = wrapAxis x.
Proof.
  pose proof (wrapAxis_in_scene x) as Hin. unfold axisInScene, fgtb in Hin.
  apply andb_true_iff in Hin as [Hlo%negb_true_iff Hhi%negb_true_iff].
  unfold wrapAxis at 1. unfold fgtb. by rewrite Hlo, Hhi.
Qed.

Lemma advance_in_scene (dt : F) (p v : vec3 F) : inScene (advance dt p v) = true.
Proof.
  unfold inScene, advance. cbn [vx vy vz]. by rewrite !wrapAxis_in_scene.
Qed.

Lemma launch_kernUpdatePos_in_scene (N : Z) (dt : F) (pos vel : list (vec3 F)) :
  0 <= N -> length pos = Z.to_nat N -> length vel = Z.to_nat N ->
  exists pos',
    launch N (kernUpdatePos N dt vel) pos = Ok pos' /\
    length pos' = Z.to_nat N /\
    forall p, p ∈ pos' -> inScene p = true.
Proof.
  intros HN Hpos Hvel. exists (zip_with (advance dt) pos vel). split_and!.
  - by apply launch_kernUpdatePos.
  - rewrite length_zip_with. lia.
  - intros p [k Hk]%list_elem_of_lookup.
    apply lookup_zip_with_Some in Hk as (a & b & -> & _ & _).
    apply advance_in_scene.
Qed.

End WrapInvariant.

Lemma Rltb_false (x y : R) : (y <= x)%R -> Rltb x y = false.
Proof. intros Hxy. unfold Rltb. destruct (Rlt_dec x y); [lra|done]. Qed.

Lemma Rltb_true (x y : R) : (x < y)%R -> Rltb x y = true.
Proof. intros Hxy. unfold Rltb. destruct (Rlt_dec x y); [done|lra]. Qed.

Lemma scene_scale_R : scene_scale (F:=R) = 100%R.
Proof. reflexivity. Qed.

(** X8: whatever the positions, velocities and time step, the position kernel
    (launched on buffers of [N] entries) never faults and leaves every
    coordinate where neither comparison of the wrap holds, in binary32 and in
    exact arithmetic; wrapping a wrapped coordinate again changes nothing. *)
Theorem kernUpdatePos_keeps_positions_in_scene :
  (forall (N : Z) (dt : float32) (pos vel : list (vec3 float32)),
     0 <= N -> length pos = Z.to_nat N -> length vel = Z.to_nat N ->
     exists pos',
       launch N (kernUpdatePos N dt vel) pos = Ok pos' /\
       length pos' = Z.to_nat N /\
       forall p, p ∈ pos' -> inScene p = true) /\
  (forall (N : Z) (dt : R) (pos vel : list (vec3 R)),
     0 <= N -> length pos = Z.to_nat N -> length vel = Z.to_nat N ->
     exists pos',
       launch N (kernUpdatePos N dt vel) pos = Ok pos' /\
       length pos' = Z.to_nat N /\
       forall p, p ∈ pos' ->
         (- 100 <= vx p <= 100 /\ - 100 <= vy p <= 100 /\ - 100 <= vz p <= 100)%R) /\
  (forall x : float32, wrapAxis (wrapAxis x) = wrapAxis x) /\
  (forall x : R, wrapAxis (wrapAxis x) = wrapAxis x).
Proof.
  assert (HR1 : fltb (F:=R) scene_scale (fopp scene_scale) = false)
    by (apply Rltb_false; rewrite scene_scale_R; cbn [fopp R_scalar]; lra).
  assert (HR2 : fltb (F:=R) scene_scale scene_scale = false)
    by (apply Rltb_false; lra).
  assert (HR3 : fltb (F:=R) (fopp scene_scale) (fopp scene_scale) = false)
    by (apply Rltb_false; lra).
  split_and!.
  - intros N dt pos vel. by apply launch_kernUpdatePos_in_scene.
  - intros N dt pos vel HN Hpos Hvel.
    destruct (launch_kernUpdatePos_in_scene HR1 HR2 HR3 N dt pos vel HN Hpos Hvel)
      as (pos' & Hrun & Hlen & Hin).
    exists pos'. split_and!; [done..|]. intros p Hp.
    specialize (Hin p Hp). unfold inScene, axisInScene, fgtb in Hin.
    rewrite scene_scale_R in Hin. cbn [fltb fopp R_scalar] in Hin.
    unfold Rltb in Hin.
    repeat match type of Hin with context [Rlt_dec ?a ?b] =>
             destruct (Rlt_dec a b) end; try done.
    lra.
  - intros x. by apply wrapAxis_idempotent.
  - intros x. by apply wrapAxis_idempotent.
Qed.

Lemma kernUpdatePos_keeps_positions_in_scene_witness :
  exists pos',
    launch 1 (kernUpdatePos (F:=float32) 1 (of_int 2) [mkvec3 (of_int 60) fzero fzero])
           [mkvec3 (of_int 90) fzero fzero] = Ok pos' /\
    length pos' = Z.to_nat 1 /\
    forall p, p ∈ pos' -> inScene p = true.
Proof.
  destruct kernUpdatePos_keeps_positions_in_scene as (Hf32 & _).
  apply Hf32; [lia|reflexivity|reflexivity].
Defined.

(** ** The coherent step against the scattered step *)

Lemma gathered_length {A : Type} (N : Z) (pai : list Z) (from to : list A) :
  0 <= N -> length pai = Z.to_nat N -> length from = Z.to_nat N ->
  (forall j, j ∈ pai -> 0 <= j < N) ->
  gathered pai from to -> length to = Z.to_nat N.
Proof.
  intros HN Hpai Hfrom Hvalid Hg.
  destruct (decide (length to = Z.to_nat N)) as [|Hne]; [done|exfalso].
  destruct (decide (length to < Z.to_nat N)%nat) as [Hlt|Hge].
  - specialize (Hg (Z.of_nat (length to))).
    destruct (rd_in_range pai (Z.of_nat (length to))) as [j Hj]; [lia|].
    rewrite Hj in Hg. cbn [rbind] in Hg.
    destruct (rd_in_range from j) as [a Ha].
    { apply rd_Ok in Hj as [_ Hj%list_elem_of_lookup_2]. apply Hvalid in Hj. lia. }
    rewrite Ha in Hg. apply rd_Ok in Hg as [_ Hg%lookup_lt_Some]. lia.
  - specialize (Hg N).
    destruct (rd_in_range to N) as [a Ha]; [lia|]. rewrite Ha in Hg.
    destruct (rd pai N) as [j|] eqn:Hj; [|done].
    apply rd_Ok in Hj as [_ Hj%lookup_lt_Some]. lia.
Qed.

Lemma gathered_zip_with {A B C : Type} (f : A -> B -> C) (N : Z) (pai : list Z)
    (xs xsC : list A) (ys ysC : list B) :
  length xs = Z.to_nat N -> length ys = Z.to_nat N ->
  length xsC = Z.to_nat N -> length ysC = Z.to_nat N ->
  gathered pai xs xsC -> gathered pai ys ysC ->
  gathered pai (zip_with f xs ys) (zip_with f xsC ysC).
Proof.
  intros Hxs Hys HxsC HysC Hgx Hgy i.
  assert (Hz : forall (l1 : list A) (l2 : list B) k,
            rd (zip_with f l1 l2) k
            = match rd l1 k, rd l2 k with
              | Ok a, Ok b => Ok (f a b)
              | _, _ => Err OutOfBounds
              end).
  { intros l1 l2 k. unfold rd. destruct (k <? 0); [done|].
    rewrite lookup_zip_with. destruct (l1 !! Z.to_nat k); [|done].
    cbn [mbind option_bind]. by destruct (l2 !! Z.to_nat k). }
  rewrite Hz, (Hgx i), (Hgy i).
  destruct (rd pai i) as [j|e] eqn:Hj; cbn [rbind].
  - by rewrite Hz.
  - by rewrite (rd_Err _ _ _ Hj).
Qed.

Section GridStepsAgree.
Context {F : Type} {SF : Scalar F}.
Variables (N gridResolution : Z) (gridMin : vec3 F) (inverseCellWidth cellWidth : F).
Variables (starts ends pai : list Z) (pos vel posC velC : list (vec3 F)).
Hypothesis HN : 0 <= N.
Hypothesis Hperm : pai ≡ₚ seqZ 0 N.
Hypothesis Hvel : length vel = Z.to_nat N.
Hypothesis HgP : gathered pai pos posC.
Hypothesis HgV : gathered pai vel velC.

Lemma pai_injective (i i' j : Z) : rd pai i = Ok j -> rd pai i' = Ok j -> i = i'.
Proof.
  intros [? Hi]%rd_Ok [? Hi']%rd_Ok.
  assert (Hnd : NoDup pai) by (rewrite Hperm; apply NoDup_seqZ).
  pose proof (NoDup_lookup _ _ _ _ Hnd Hi Hi'). lia.
Qed.

Lemma pai_in_range (i j : Z) : rd pai i = Ok j -> 0 <= i < N /\ 0 <= j < N.
Proof.
  intros [? Hi]%rd_Ok. split.
  - apply lookup_lt_Some in Hi. rewrite Hperm, length_seqZ in Hi. lia.
  - apply list_elem_of_lookup_2 in Hi. rewrite Hperm in Hi.
    apply elem_of_seqZ in Hi. lia.
Qed.

(** What thread [k] of either grid kernel stores, and where the scattered
    kernel stores it. *)
Lemma grid_threads_agree (k : Z) (vs vc : list (vec3 F)) :
  0 <= k < N -> length vs = Z.to_nat N -> length vc = Z.to_nat N ->
  exists j, rd pai k = Ok j /\
    ((exists x,
        kernUpdateVelNeighborSearchScattered N gridResolution gridMin inverseCellWidth
          cellWidth starts ends pai pos vel k vs = Ok (<[Z.to_nat j := x]> vs) /\
        kernUpdateVelNeighborSearchCoherent N gridResolution gridMin inverseCellWidth
          cellWidth starts ends posC velC k vc = Ok (<[Z.to_nat k := x]> vc)) \/
     (exists e,
        kernUpdateVelNeighborSearchScattered N gridResolution gridMin inverseCellWidth
          cellWidth starts ends pai pos vel k vs = Err e /\
        kernUpdateVelNeighborSearchCoherent N gridResolution gridMin inverseCellWidth
          cellWidth starts ends posC velC k vc = Err e)).
Proof.
  intros Hk Hvs Hvc.
  assert (Hlen : length pai = Z.to_nat N) by (by rewrite Hperm, length_seqZ).
  destruct (rd_in_range pai k) as [j Hj]; [lia|].
  exists j. split; [done|].
  destruct (pai_in_range k j Hj) as [_ Hjr].
  assert (Hinj : forall i, rd pai i = Ok j -> i = k).
  { intros i Hi. by eapply pai_injective. }
  unfold kernUpdateVelNeighborSearchScattered, kernUpdateVelNeighborSearchCoherent.
  destruct (Z.leb_spec N k); [lia|]. rewrite Hj. cbn [rbind].
  rewrite (findGridCells_gathered pai pos posC k j HgP Hj).
  destruct (findGridCells j _ _ _ _ _ _) as [used|e]; cbn [rbind]; [|right; by exists e].
  rewrite (computeVelocityChange_gathered pai pos vel posC velC k j HgP HgV Hj Hinj).
  destruct (computeVelocityChangeScattered _ _ _ _ _ _ _) as [vchange|e]; cbn [rbind];
    [|right; by exists e].
  rewrite !storeClamped_cases, (HgV k), Hj. cbn [rbind].
  destruct (rd_in_range vel j) as [v1 ->]; [lia|]. cbn [rbind].
  rewrite !wr_in_range by lia. left. by eexists.
Qed.

Lemma grid_launches_agree_prefix (vel2 out0 : list (vec3 F)) (k : nat) :
  length vel2 = Z.to_nat N -> length out0 = Z.to_nat N -> (k <= Z.to_nat N)%nat ->
  match forM (seqZ 0 (Z.of_nat k))
              (kernUpdateVelNeighborSearchScattered N gridResolution gridMin
                 inverseCellWidth cellWidth starts ends pai pos vel) vel2,
        forM (seqZ 0 (Z.of_nat k))
              (kernUpdateVelNeighborSearchCoherent N gridResolution gridMin
                 inverseCellWidth cellWidth starts ends posC velC) out0 with
  | Ok vs, Ok vc =>
      length vs = Z.to_nat N /\ length vc = Z.to_nat N /\
      forall i, 0 <= i < Z.of_nat k -> rd vc i = (j <- rd pai i ;; rd vs j)
  | Err e, Err e' => e = e'
  | _, _ => False
  end.
Proof.
  intros Hvel2 Hout0. induction k as [|k IH]; intros Hk.
  - cbn [forM Z.of_nat seqZ]. split_and!; [done..|]. intros i Hi. lia.
  - rewrite seqZ_S, !forM_app. specialize (IH ltac:(lia)).
    destruct (forM (seqZ 0 (Z.of_nat k)) _ vel2) as [vs|e],
             (forM (seqZ 0 (Z.of_nat k)) _ out0) as [vc|e']; cbn [rbind]; try done.
    destruct IH as (Hvs & Hvc & Hprev). cbn [forM]. rewrite Z.add_0_l.
    destruct (grid_threads_agree (Z.of_nat k) vs vc ltac:(lia) Hvs Hvc)
      as (j & Hj & [(x & -> & ->)|(e & -> & ->)]); cbn [rbind]; [|done].
    destruct (pai_in_range _ _ Hj) as [_ Hjr].
    rewrite !length_insert. split_and!; [done..|].
    intros i Hi. destruct (decide (i = Z.of_nat k)) as [->|Hne].
    + rewrite Hj. cbn [rbind].
      rewrite (rd_wr_eq vc _ (Z.of_nat k) x) by (apply wr_in_range; lia).
      by rewrite (rd_wr_eq vs _ j x) by (apply wr_in_range; lia).
    + rewrite (rd_wr_ne vc (<[Z.to_nat (Z.of_nat k) := x]> vc) (Z.of_nat k) i x);
        [|apply wr_in_range; lia|lia].
      rewrite Hprev by lia.
      destruct (rd pai i) as [j'|] eqn:Hj'; cbn [rbind]; [|done].
      rewrite (rd_wr_ne vs (<[Z.to_nat j := x]> vs) j j' x);
        [done|apply wr_in_range; lia|].
      intros <-. apply Hne. by eapply pai_injective.
Qed.

Lemma grid_launches_agree (vel2 out0 : list (vec3 F)) :
  length vel2 = Z.to_nat N -> length out0 = Z.to_nat N ->
  match launch N (kernUpdateVelNeighborSearchScattered N gridResolution gridMin
                    inverseCellWidth cellWidth starts ends pai pos vel) vel2,
        launch N (kernUpdateVelNeighborSearchCoherent N gridResolution gridMin
                    inverseCellWidth cellWidth starts ends posC velC) out0 with
  | Ok vs, Ok vc =>
      length vs = Z.to_nat N /\ length vc = Z.to_nat N /\ gathered pai vs vc
  | Err e, Err e' => e = e'
  | _, _ => False
  end.
Proof.
  intros Hvel2 Hout0.
  rewrite launch_guarded;
    [|done|intros i t Hi; unfold kernUpdateVelNeighborSearchScattered;
           destruct (Z.leb_spec N i); [done|lia]].
  rewrite launch_guarded;
    [|done|intros i t Hi; unfold kernUpdateVelNeighborSearchCoherent;
           destruct (Z.leb_spec N i); [done|lia]].
  - pose proof (grid_launches_agree_prefix vel2 out0 (Z.to_nat N) Hvel2 Hout0
                  ltac:(lia)) as Hp.
    rewrite Z2Nat.id in Hp by done.
    destruct (forM (seqZ 0 N) _ vel2) as [vs|e], (forM (seqZ 0 N) _ out0) as [vc|e'];
      try done.
    destruct Hp as (Hvs & Hvc & Hview). split_and!; [done..|].
    intros i. destruct (decide (0 <= i < N)) as [Hi|Hi]; [by apply Hview|].
    assert (Hlen : length pai = Z.to_nat N) by (by rewrite Hperm, length_seqZ).
    assert (Hout : forall A (l : list A), length l = Z.to_nat N -> rd l i = Err OutOfBounds).
    { intros A l Hl. unfold rd. destruct (Z.ltb_spec i 0); [done|].
      rewrite (proj2 (lookup_ge_None l (Z.to_nat i))); [done|lia]. }
    by rewrite (Hout _ vc Hvc), (Hout _ pai Hlen).
Qed.

End GridStepsAgree.

Lemma buildSortedIndices_returns {F : Type} {SF : Scalar F}
    (sort : list Z -> list Z -> list Z * list Z) (d : device F) :
  (forall keys vals, length keys = length vals ->
     sort_by_key_contract keys vals (sort keys vals).1 (sort keys vals).2) ->
  0 <= numObjects d -> 0 <= gridCellCount (F:=F) ->
  length (dev_pos d) = Z.to_nat (numObjects d) ->
  length (dev_particleArrayIndices d) = Z.to_nat (numObjects d) ->
  length (dev_particleGridIndices d) = Z.to_nat (numObjects d) ->
  length (dev_gridCellStartIndices d) = Z.to_nat (gridCellCount (F:=F)) ->
  length (dev_gridCellEndIndices d) = Z.to_nat (gridCellCount (F:=F)) ->
  exists pai keys,
    buildSortedIndices sort d
    = Ok (pai, keys, replicate (Z.to_nat (gridCellCount (F:=F))) (-1),
          replicate (Z.to_nat (gridCellCount (F:=F))) (-1)) /\
    pai ≡ₚ seqZ 0 (numObjects d) /\ length keys = Z.to_nat (numObjects d).
Proof.
  intros Hsort HN Hcc Hpos Hidx Hgrid Hstarts Hends.
  unfold buildSortedIndices.
  rewrite launch_kernComputeIndices by done. cbn [rbind].
  rewrite !launch_kernResetIntBuffer by done. cbn [rbind fst snd].
  set (keys := cellIdOf gridSideCount gridMinimum gridInverseCellWidth <$> dev_pos d).
  assert (Hlen : length keys = length (seqZ 0 (numObjects d))).
  { unfold keys. by rewrite length_fmap, length_seqZ. }
  destruct (Hsort keys (seqZ 0 (numObjects d)) Hlen) as (Hlen' & Hperm & Hsorted).
  eexists _, _. split; [reflexivity|].
  assert (Hvals : (sort keys (seqZ 0 (numObjects d))).2 ≡ₚ seqZ 0 (numObjects d)).
  { rewrite <- (snd_zip (sort keys (seqZ 0 (numObjects d))).1
                        (sort keys (seqZ 0 (numObjects d))).2) by lia.
    rewrite Hperm. rewrite snd_zip; [done|lia]. }
  split; [done|]. rewrite Hlen', Hvals, length_seqZ. done.
Qed.

(** X9: from the same state, the coherent grid step and the scattered grid
    step either both fault, with the same fault, or both return; then they
    leave the same index, cell-id and range tables, and the coherent buffers
    hold at slot [i] exactly (bit for bit, in any arithmetic) the position and
    the velocity that the scattered buffers hold for particle
    [particleArrayIndices[i]]. *)
Theorem coherent_step_is_reordered_scattered_step {F : Type} {SF : Scalar F}
    (sort : list Z -> list Z -> list Z * list Z) (dt : F) (d : device F) :
  (forall keys vals, length keys = length vals ->
     sort_by_key_contract keys vals (sort keys vals).1 (sort keys vals).2) ->
  0 <= numObjects d -> 0 <= gridCellCount (F:=F) ->
  length (dev_pos d) = Z.to_nat (numObjects d) ->
  length (dev_vel1 d) = Z.to_nat (numObjects d) ->
  length (dev_vel2 d) = Z.to_nat (numObjects d) ->
  length (dev_posCopy d) = Z.to_nat (numObjects d) ->
  length (dev_particleArrayIndices d) = Z.to_nat (numObjects d) ->
  length (dev_particleGridIndices d) = Z.to_nat (numObjects d) ->
  length (dev_gridCellStartIndices d) = Z.to_nat (gridCellCount (F:=F)) ->
  length (dev_gridCellEndIndices d) = Z.to_nat (gridCellCount (F:=F)) ->
  match stepSimulationScatteredGrid sort dt d, stepSimulationCoherentGrid sort dt d with
  | Ok ds, Ok dc =>
      dev_particleArrayIndices dc = dev_particleArrayIndices ds /\
      dev_particleArrayIndices ds ≡ₚ seqZ 0 (numObjects d) /\
      dev_particleGridIndices dc = dev_particleGridIndices ds /\
      dev_gridCellStartIndices dc = dev_gridCellStartIndices ds /\
      dev_gridCellEndIndices dc = dev_gridCellEndIndices ds /\
      gathered (dev_particleArrayIndices ds) (dev_pos ds) (dev_pos dc) /\
      gathered (dev_particleArrayIndices ds) (dev_vel1 ds) (dev_vel1 dc) /\
      gathered (dev_particleArrayIndices ds) (dev_vel1 d) (dev_vel2 dc)
  | Err e, Err e' => e = e'
  | _, _ => False
  end.
Proof.
  intros Hsort HN Hcc Hpos Hvel1 Hvel2 HposC Hidx Hgrid Hstarts Hends.
  destruct (buildSortedIndices_returns sort d Hsort HN Hcc Hpos Hidx Hgrid Hstarts Hends)
    as (pai & keys & Hbuilt & Hperm & Hkeys).
  unfold stepSimulationScatteredGrid, stepSimulationCoherentGrid. cbn zeta.
  rewrite Hbuilt. cbn [rbind fst snd].
  assert (Hlen : length pai = Z.to_nat (numObjects d)) by (by rewrite Hperm, length_seqZ).
  assert (Hvalid : forall j, j ∈ pai -> 0 <= j < numObjects d).
  { intros j. rewrite Hperm, elem_of_seqZ. lia. }
  destruct (launch_kernMakeCoherent (numObjects d) pai (dev_pos d) (dev_vel1 d) HN Hlen
              Hvalid Hpos Hvel1 (dev_posCopy d) (dev_vel2 d) HposC Hvel2)
    as (posC & velC & -> & HgP & HgV).
  cbn [rbind fst snd].
  pose proof (gathered_length _ _ _ _ HN Hlen Hpos Hvalid HgP) as HlenPC.
  pose proof (gathered_length _ _ _ _ HN Hlen Hvel1 Hvalid HgV) as HlenVC.
  destruct (launch (numObjects d) (kernIdentifyCellStartEnd (numObjects d) keys) _)
    as [tables|e]; cbn [rbind]; [|done].
  pose proof (grid_launches_agree (numObjects d) gridSideCount gridMinimum
                gridInverseCellWidth gridCellWidth tables.1 tables.2 pai
                (dev_pos d) (dev_vel1 d) posC velC HN Hperm Hvel1 HgP HgV
                (dev_vel2 d) (dev_vel1 d) Hvel2 Hvel1) as Hagree.
  destruct (launch _ (kernUpdateVelNeighborSearchScattered _ _ _ _ _ _ _ _ _ _) _)
    as [vs|e],
    (launch _ (kernUpdateVelNeighborSearchCoherent _ _ _ _ _ _ _ _ _) _) as [vc|e'];
    cbn [rbind]; try done.
  destruct Hagree as (Hvs & Hvc & HgNew).
  rewrite (launch_kernUpdatePos (numObjects d) dt (dev_pos d) vs HN Hpos Hvs).
  rewrite (launch_kernUpdatePos (numObjects d) dt posC vc HN HlenPC Hvc).
  cbn [rbind dev_particleArrayIndices dev_particleGridIndices dev_gridCellStartIndices
       dev_gridCellEndIndices dev_pos dev_vel1 dev_vel2].
  split_and!; [done..| | |done].
  - by apply (gathered_zip_with _ (numObjects d)).
  - done.
Qed.

Lemma coherent_step_is_reordered_scattered_step_witness :
  let d : device float32 :=
    mkdevice 3
      [mkvec3 (of_int 50) (of_int 0) (of_int 0);
       mkvec3 (of_int (-50)) (of_int 0) (of_int 0);
       mkvec3 (of_int 0) (of_int 0) (of_int 0)]
      (replicate 3 vzero) (replicate 3 vzero) [7; 7; 7] [9; 9; 9]
      (replicate 216 0) (replicate 216 0) (replicate 3 vzero) in
  match stepSimulationScatteredGrid sort_by_key (flit 1 5) d,
        stepSimulationCoherentGrid sort_by_key (flit 1 5) d with
  | Ok ds, Ok dc =>
      dev_particleArrayIndices dc = dev_particleArrayIndices ds /\
      dev_particleArrayIndices ds ≡ₚ seqZ 0 (numObjects d) /\
      dev_particleGridIndices dc = dev_particleGridIndices ds /\
      dev_gridCellStartIndices dc = dev_gridCellStartIndices ds /\
      dev_gridCellEndIndices dc = dev_gridCellEndIndices ds /\
      gathered (dev_particleArrayIndices ds) (dev_pos ds) (dev_pos dc) /\
      gathered (dev_particleArrayIndices ds) (dev_vel1 ds) (dev_vel1 dc) /\
      gathered (dev_particleArrayIndices ds) (dev_vel1 d) (dev_vel2 dc)
  | Err e, Err e' => e = e'
  | _, _ => False
  end.
Proof.
  intros d.
  apply (coherent_step_is_reordered_scattered_step sort_by_key (flit 1 5) d);
    [intros keys vals _; apply sort_by_key_meets_contract
    |subst d; cbn [numObjects]; lia|vm_compute; discriminate
    |reflexivity..].
Defined.

(** X10: when the index table is a permutation of [0, N), the coherence pass
    returns, and the reordered (position, velocity) pairs are a permutation of
    the original pairs: no particle is lost or duplicated and every position
    keeps its own velocity. *)
Theorem kernMakeCoherent_permutes_particles {F : Type} {SF : Scalar F}
    (N : Z) (pai : list Z) (pos vel to1 to2 : list (vec3 F)) :
  0 <= N -> pai ≡ₚ seqZ 0 N ->
  length pos = Z.to_nat N -> length vel = Z.to_nat N ->
  length to1 = Z.to_nat N -> length to2 = Z.to_nat N ->
  exists posC velC,
    launch N (kernMakeCoherent N pai pos vel) (to1, to2) = Ok (posC, velC) /\
    length posC = Z.to_nat N /\ length velC = Z.to_nat N /\
    zip posC velC ≡ₚ zip pos vel /\
    forall i j, rd pai i = Ok j -> rd posC i = rd pos j /\ rd velC i = rd vel j.
Proof.
  intros HN Hperm Hpos Hvel Hto1 Hto2.
  assert (Hlen : length pai = Z.to_nat N) by (by rewrite Hperm, length_seqZ).
  assert (Hvalid : forall j, j ∈ pai -> 0 <= j < N).
  { intros j. rewrite Hperm, elem_of_seqZ. lia. }
  destruct (launch_kernMakeCoherent N pai pos vel HN Hlen Hvalid Hpos Hvel to1 to2
              Hto1 Hto2) as (posC & velC & Hrun & HgP & HgV).
  pose proof (gathered_length _ _ _ _ HN Hlen Hpos Hvalid HgP) as HlenP.
  pose proof (gathered_length _ _ _ _ HN Hlen Hvel Hvalid HgV) as HlenV.
  exists posC, velC. split_and!; [done..| |].
  - pose (pair_at := fun j : Z => (default vzero (pos !! Z.to_nat j),
                                   default vzero (vel !! Z.to_nat j))).
    assert (Hall : zip pos vel = pair_at <$> seqZ 0 N).
    { apply list_eq. intros k. rewrite list_lookup_fmap.
      destruct (decide (k < Z.to_nat N)%nat) as [Hk|Hk].
      - rewrite lookup_seqZ_lt by lia. cbn [fmap option_fmap option_map].
        destruct (lookup_lt_is_Some_2 pos k ltac:(lia)) as [p Hp].
        destruct (lookup_lt_is_Some_2 vel k ltac:(lia)) as [v Hv].
        rewrite (proj2 (lookup_zip_Some pos vel k p v)) by done.
        unfold pair_at. rewrite Z.add_0_l, Nat2Z.id. by rewrite Hp, Hv.
      - rewrite lookup_seqZ_ge by lia. cbn [fmap option_fmap option_map].
        apply lookup_ge_None. rewrite length_zip. lia. }
    assert (Hco : zip posC velC = pair_at <$> pai).
    { apply list_eq. intros k. rewrite list_lookup_fmap.
      destruct (decide (k < Z.to_nat N)%nat) as [Hk|Hk].
      - destruct (lookup_lt_is_Some_2 pai k ltac:(lia)) as [j Hj].
        rewrite Hj. cbn [fmap option_fmap option_map].
        assert (Hjr : 0 <= j < N) by (apply Hvalid; by eapply list_elem_of_lookup_2).
        pose proof (HgP (Z.of_nat k)) as HP. pose proof (HgV (Z.of_nat k)) as HV.
        rewrite (rd_lookup pai k j Hj) in HP, HV. cbn [rbind] in HP, HV.
        destruct (rd_in_range pos j) as [p Hp]; [lia|].
        destruct (rd_in_range vel j) as [v Hv]; [lia|].
        rewrite Hp in HP. rewrite Hv in HV.
        apply rd_Ok in HP as [_ HP]. apply rd_Ok in HV as [_ HV].
        rewrite Nat2Z.id in HP, HV.
        rewrite (proj2 (lookup_zip_Some posC velC k p v)) by done.
        apply rd_Ok in Hp as [_ Hp]. apply rd_Ok in Hv as [_ Hv].
        unfold pair_at. by rewrite Hp, Hv.
      - rewrite (proj2 (lookup_ge_None pai k)) by lia.
        cbn [fmap option_fmap option_map].
        apply lookup_ge_None. rewrite length_zip. lia. }
    by rewrite Hall, Hco, Hperm.
  - intros i j Hj. pose proof (HgP i) as HP. pose proof (HgV i) as HV.
    rewrite Hj in HP, HV. done.
Qed.

Lemma kernMakeCoherent_permutes_particles_witness :
  let pos : list (vec3 float32) :=
    [mkvec3 (of_int 1) fzero fzero; mkvec3 (of_int 2) fzero fzero;
     mkvec3 (of_int 3) fzero fzero] in
  exists posC velC,
    launch 3 (kernMakeCoherent 3 [2; 0; 1] pos (replicate 3 vzero))
           (replicate 3 vzero, replicate 3 vzero) = Ok (posC, velC) /\
    zip posC velC ≡ₚ zip pos (replicate 3 vzero).
Proof.
  intros pos.
  destruct (kernMakeCoherent_permutes_particles 3 [2; 0; 1] pos (replicate 3 vzero)
              (replicate 3 vzero) (replicate 3 vzero))
    as (posC & velC & Hrun & _ & _ & Hperm & _);
    [lia| |reflexivity..|].
  - apply (Permutation_trans (Permutation_swap _ _ _)).
    apply perm_skip, perm_swap.
  - exists posC, velC. split; [exact Hrun|exact Hperm].
Defined.

(** ** The candidate list of [findGridCells] *)

(** One probe appends at most one cell, and only a cell whose start entry
    was read and is not the sentinel. *)
Lemma probeCell_appends (gridResolution : Z) (starts : list Z) (cpy : int3)
    (used used' : list Z) :
  probeCell gridResolution starts cpy used = Ok used' ->
  used' = used \/
  exists s, used' = used ++ [gridIndex3Dto1D (ix cpy) (iy cpy) (iz cpy) gridResolution] /\
            gridInRange cpy gridResolution = true /\
            rd starts (gridIndex3Dto1D (ix cpy) (iy cpy) (iz cpy) gridResolution) = Ok s /\
            s <> -1.
Proof.
  unfold probeCell. destruct (gridInRange cpy gridResolution); [|intros [= <-]; by left].
  destruct (rd starts _) as [s|] eqn:Hs; cbn [rbind]; [|done].
  destruct (Z.eqb_spec s (-1)); intros [= <-]; [by left|right].
  by exists s.
Qed.

Lemma probes_append (gridResolution : Z) (starts : list Z) (probes : list int3)
    (used used' : list Z) :
  forM probes (probeCell gridResolution starts) used = Ok used' ->
  exists added,
    used' = used ++ added /\ (length added <= length probes)%nat /\
    forall c, c ∈ added ->
      exists cpy s, cpy ∈ probes /\
        c = gridIndex3Dto1D (ix cpy) (iy cpy) (iz cpy) gridResolution /\
        gridInRange cpy gridResolution = true /\ rd starts c = Ok s /\ s <> -1.
Proof.
  revert used. induction probes as [|cpy probes IH]; intros used; cbn [forM].
  - intros [= <-]. exists []. rewrite app_nil_r. split_and!; [done..|].
    intros c Hc. by apply elem_of_nil in Hc.
  - rewrite rbind_Ok. intros (mid & Hmid & Hrest).
    destruct (IH mid Hrest) as (added & -> & Hlen & Hadded).
    assert (Hlater : forall c, c ∈ added ->
              exists cpy' s, cpy' ∈ cpy :: probes /\
                c = gridIndex3Dto1D (ix cpy') (iy cpy') (iz cpy') gridResolution /\
                gridInRange cpy' gridResolution = true /\ rd starts c = Ok s /\ s <> -1).
    { intros c Hc. destruct (Hadded c Hc) as (cpy' & s & Hin & Hrest').
      exists cpy', s. split; [by right|done]. }
    destruct (probeCell_appends _ _ _ _ _ Hmid) as [->|(s & -> & Hin & Hs & Hne)].
    + exists added. split_and!; [done|cbn [length]; lia|done].
    + exists (gridIndex3Dto1D (ix cpy) (iy cpy) (iz cpy) gridResolution :: added).
      split_and!; [by rewrite <- app_assoc|cbn [length]; lia|].
      intros c [->|Hc]%elem_of_cons; [|by apply Hlater].
      exists cpy, s. split; [by left|done].
Qed.


